(** * librosa.decompose: a shallow embedding and its verification

    The module [librosa/decompose.py] provides three operations on
    spectrograms: [decompose] (matrix factorisation through an injected
    scikit-learn transformer), [hpss] (median-filtering harmonic/percussive
    separation) and [nn_filter] (nearest-neighbour filtering along an axis).

    Floating-point samples are modelled by exact rationals ([Q]): there
    is no rounding, overflow or NaN, and equality of samples is [Qeq], so
    an identity that holds "up to floating tolerance" is stated exactly.
    Arrays are two-dimensional (features by frames); an [ndarray] is the
    list of its rows.  The input of [nn_filter] also carries its dtype,
    float or integer, because the aggregates are cast to it when they
    are written into the copy of the input.  Python exceptions are
    values of [exn], and a call that may raise returns a [result].

    Part I embeds the code: the operations on array values ([NnFilter],
    [Hpss], [Decompose]), then the same code over a store of array
    objects ([Store]), where allocation and writing in place are
    explicit.  Part II proves the properties. *)

From Stdlib Require Import List ZArith QArith Qabs Qround Qfield Lia Lqa Bool Arith.
From Stdlib Require Import Permutation.
Import ListNotations.

(* ================================================================== *)
(** * Part I: the model *)
(* ================================================================== *)

(** ** Exceptions and results *)

Inductive exn : Type :=
| ParameterError      (* librosa.util.exceptions.ParameterError *)
| IndexError
| TypeError
| ValueError
| ZeroDivisionError
| RuntimeError.

Inductive result (A : Type) : Type :=
| Ok (a : A)
| Raise (e : exn).

Arguments Ok {A} a.
Arguments Raise {A} e.

Definition bind {A B : Type} (r : result A) (k : A -> result B) : result B :=
  match r with
  | Ok a => k a
  | Raise e => Raise e
  end.

Declare Scope result_scope.
Delimit Scope result_scope with result.
Notation "x <- c ;; k" := (bind c (fun x => k))
  (at level 61, c at next level, right associativity) : result_scope.
Notation "' p <- c ;; k" := (bind c (fun x => let p := x in k))
  (at level 61, p pattern, c at next level, right associativity) : result_scope.
Open Scope result_scope.
Open Scope Q_scope.

(** ** Arrays *)

Module Np.

(** A 2-D array holding values of type [A]: the list of its rows. *)
Definition mat (A : Type) : Type := list (list A).

(** A real-valued array, a complex one (pairs real/imaginary) and a
    boolean one (the result of an elementwise comparison). *)
Definition matrix : Type := mat Q.
Definition complex : Type := (Q * Q)%type.
Definition cmatrix : Type := mat complex.
Definition bmatrix : Type := mat bool.

Definition nrows {A} (M : mat A) : nat := length M.
Definition ncols {A} (M : mat A) : nat := length (hd [] M).

(** [M.shape] *)
Definition shape {A} (M : mat A) : nat * nat := (nrows M, ncols M).

(** Every row has the length of the first one: what an [ndarray] is. *)
Definition rect {A} (M : mat A) : Prop :=
  Forall (fun r => length r = ncols M) M.

Definition rectb {A} (M : mat A) : bool :=
  forallb (fun r => Nat.eqb (length r) (ncols M)) M.

(** [M[i]] and [M[i, j]], with a default outside the array. *)
Definition row {A} (M : mat A) (i : nat) : list A := nth i M [].
Definition at_ {A} (d : A) (M : mat A) (i j : nat) : A := nth j (row M i) d.

(** Position [(i, j)] lies inside [M]. *)
Definition in_shape {A} (M : mat A) (i j : nat) : Prop :=
  (i < length M)%nat /\ (j < length (row M i))%nat.

(** The two arrays have the same number of rows and rows of the same
    lengths. *)
Fixpoint same_shapeb {A B} (M : mat A) (N : mat B) : bool :=
  match M, N with
  | [], [] => true
  | r :: M', s :: N' => Nat.eqb (length r) (length s) && same_shapeb M' N'
  | _, _ => false
  end.

(** Elementwise operations: [map2] stops at the shorter argument. *)
Fixpoint map2 {A B C} (f : A -> B -> C) (u : list A) (v : list B) : list C :=
  match u, v with
  | a :: u', b :: v' => f a b :: map2 f u' v'
  | _, _ => []
  end.

Definition mapm {A B} (f : A -> B) (M : mat A) : mat B := map (map f) M.
Definition zipm {A B C} (f : A -> B -> C) (M : mat A) (N : mat B) : mat C :=
  map2 (map2 f) M N.

(** [M.T] *)
Definition column {A} (d : A) (M : mat A) (j : nat) : list A :=
  map (fun r => nth j r d) M.
Definition transpose {A} (d : A) (M : mat A) : mat A :=
  map (column d M) (seq 0 (ncols M)).

(** [l[i] = x] on a Python list or a 1-D array, for [i] in range. *)
Fixpoint set_nth {A} (i : nat) (x : A) (l : list A) : list A :=
  match l, i with
  | [], _ => []
  | _ :: l', O => x :: l'
  | y :: l', S i' => y :: set_nth i' x l'
  end.

(** Comparisons on samples. *)
Definition Qltb (x y : Q) : bool := negb (Qle_bool y x).
Definition Qgtb (x y : Q) : bool := Qltb y x.

Definition sum (l : list Q) : Q := fold_right Qplus 0 l.

(** An axis argument of a 2-D array: [-2 <= axis < 2], negative values
    counting from the last axis.  Anything else is an [IndexError]
    ("tuple index out of range") when [S.shape[axis]] is read. *)
Definition norm_axis (axis : Z) : result nat :=
  if (axis =? 0)%Z || (axis =? -2)%Z then Ok 0%nat
  else if (axis =? 1)%Z || (axis =? -1)%Z then Ok 1%nat
  else Raise IndexError.

(** [M.shape[a]] for a normalised axis. *)
Definition shape_along {A} (M : mat A) (a : nat) : nat :=
  match a with O => nrows M | _ => ncols M end.

(** The slice [M[i, :]] ([a = 0]) or [M[:, i]] ([a = 1]). *)
Definition get_slice (M : matrix) (i a : nat) : list Q :=
  match a with O => row M i | _ => column 0 M i end.

(** [M[i, :] = v] ([a = 0]) or [M[:, i] = v] ([a = 1]). *)
Definition set_slice (M : matrix) (i : nat) (v : list Q) (a : nat) : matrix :=
  match a with
  | O => set_nth i v M
  | _ => map2 (fun r x => set_nth i x r) M v
  end.

(** [np.take(S, targets, axis=a)]: the slices of [S] at the indices
    [targets], stacked along [a]; an index outside [S] raises. *)
Definition take (S : matrix) (targets : list nat) (a : nat) : result matrix :=
  if forallb (fun t => Nat.ltb t (shape_along S a)) targets then
    Ok (match a with
        | O => map (fun t => row S t) targets
        | _ => map (fun r => map (fun t => nth t r 0) targets) S
        end)
  else Raise IndexError.

(** The 1-D lanes of [M] along axis [a]: a reduction along [a] maps
    each lane to one value. *)
Definition lanes (M : matrix) (a : nat) : list (list Q) :=
  match a with O => transpose 0 M | _ => M end.

(** [x.nonzero()[-1]] for a row of a sparse matrix: the column indices
    of its non-zero entries, ascending. *)
Definition nonzero (r : list Q) : list nat :=
  filter (fun j => negb (Qeq_bool (nth j r 0) 0)) (seq 0 (length r)).

(** The weights handed to [np.average]: [.toarray().squeeze()] of a
    [1 x k] array drops every axis of length one, so a single entry
    becomes a 0-d array and anything else a 1-d array. *)
Inductive weights : Type :=
| W0 (w : Q)
| W1 (ws : list Q).

Definition squeeze (r : list Q) : weights :=
  match r with
  | [w] => W0 w
  | _ => W1 r
  end.

(** [np.mean] of a lane. *)
Definition mean (l : list Q) : Q := sum l / inject_Z (Z.of_nat (length l)).

(** [np.average(a, axis, weights)] for a 2-D [a]: the shapes of [a] and
    of the weights differ, so the weights must be 1-D ([TypeError]
    otherwise) with one weight per slice along the axis ([ValueError]
    otherwise); a zero sum of weights is a [ZeroDivisionError]; the
    result is [sum(a * w) / sum(w)] along the axis. *)
Definition average (neighbors : matrix) (a : nat) (w : weights) : result (list Q) :=
  match w with
  | W0 _ => Raise TypeError
  | W1 ws =>
      if negb (Nat.eqb (length ws) (shape_along neighbors a)) then Raise ValueError
      else
        let scl := sum ws in
        if Qeq_bool scl 0 then Raise ZeroDivisionError
        else Ok (map (fun lane => sum (map2 Qmult lane ws) / scl) (lanes neighbors a))
  end.

(** The dtype of an array: its samples are floats, or integers held
    as rationals with denominator one. *)
Inductive dtype : Type :=
| float64
| int64.

(** A float stored into an array of dtype [dt] ([x[...] = v] casts [v]
    to the dtype of [x]): kept for a float array, truncated toward zero
    for an integer one. *)
Definition astype (dt : dtype) (x : Q) : Q :=
  match dt with
  | float64 => x
  | int64 => inject_Z (Z.quot (Qnum x) (Zpos (Qden x)))
  end.

(** An array of [d] rows of [n] entries each. *)
Definition has_shape {A} (M : mat A) (d n : nat) : Prop :=
  length M = d /\ Forall (fun r => length r = n) M.

End Np.

Import Np.

(** ** nn_filter *)

Module NnFilter.

(** The [aggregate] argument: [np.average] itself (the code tests
    [aggregate is np.average]) or any other reduction along an axis,
    given by what it computes on one lane. *)
Inductive aggregator : Type :=
| np_average
| reducer (f : list Q -> Q).

Definition np_mean : aggregator := reducer mean.

(** Lines 479-483: the aggregation of the gathered neighbours for row
    [rec_i] of the graph. *)
Definition aggregate_neighbors (aggregate : aggregator) (rec_i : list Q)
    (targets : list nat) (neighbors : matrix) (a : nat) : result (list Q) :=
  match aggregate with
  | np_average =>
      let weights := squeeze (map (fun t => nth t rec_i 0) targets) in
      average neighbors a weights
  | reducer f => Ok (map f (lanes neighbors a))
  end.

(** Lines 469-483: the loop over the rows of [rec]; [s_out] is the
    output in progress, [S] the input, [dt] the dtype of both ([s_out]
    is a copy of [S]): the aggregate is cast to it when it is assigned
    into [s_out]. *)
Fixpoint filter_rows (dt : dtype) (S rec : matrix) (aggregate : aggregator) (a : nat)
    (rows : list nat) (s_out : matrix) : result matrix :=
  match rows with
  | [] => Ok s_out
  | i :: rest =>
      let targets := nonzero (row rec i) in
      match targets with
      | [] => filter_rows dt S rec aggregate a rest s_out
      | _ :: _ =>
          neighbors <- take S targets a ;;
          v <- aggregate_neighbors aggregate (row rec i) targets neighbors a ;;
          filter_rows dt S rec aggregate a rest
                      (set_slice s_out i (map (astype dt) v) a)
      end
  end.

(** Lines 453-458: the graph.  The graph builder
    [segment.recurrence_matrix(S, axis=axis, sparse=True, **kwargs)] is
    an external collaborator, passed as [recurrence_matrix].  A supplied
    [rec] is identified with its dense contents ([csr_matrix(rec)]). *)
Definition graph (recurrence_matrix : matrix -> Z -> result matrix)
    (S : matrix) (rec : option matrix) (axis : Z) : result matrix :=
  match rec with
  | None => recurrence_matrix S axis
  | Some r => Ok r
  end.

(** Lines 460-485: the validation, the copy and the loop. *)
Definition filter_validated (dt : dtype) (S rec : matrix) (aggregate : aggregator)
    (axis : Z) : result matrix :=
  a <- norm_axis axis ;;
  if negb (Nat.eqb (nrows rec) (shape_along S a))
     || negb (Nat.eqb (nrows rec) (ncols rec))
  then Raise ParameterError
  else
    let s_out := S in
    filter_rows dt S rec aggregate a (seq 0 (nrows rec)) s_out.

(** [nn_filter(S, rec, aggregate, axis, **kwargs)]; the array [S] is
    given by its dtype [dt] and its samples. *)
Definition nn_filter (recurrence_matrix : matrix -> Z -> result matrix)
    (dt : dtype) (S : matrix) (rec : option matrix) (aggregate : option aggregator)
    (axis : Z) : result matrix :=
  let aggregate := match aggregate with None => np_mean | Some f => f end in
  rec <- graph recurrence_matrix S rec axis ;;
  filter_validated dt S rec aggregate axis.

(** *** Stating what the filter computes *)

(** What one row of the graph asks of the output slice [v]: nothing
    (the slice stays [keep]) when the row has no non-zero entry, and
    otherwise the aggregate of the slices of [S] at those entries, cast
    to the dtype of the output. *)
Definition row_filtered (dt : dtype) (S rec : matrix) (aggregate : aggregator)
    (a i : nat) (keep v : list Q) : Prop :=
  match nonzero (row rec i) with
  | [] => v = keep
  | targets =>
      exists neighbors agg,
        take S targets a = Ok neighbors /\
        aggregate_neighbors aggregate (row rec i) targets neighbors a = Ok agg /\
        v = map (astype dt) agg
  end.

(** A row of the graph that [aggregate] can process: any row for a
    plain reducer; for [np.average], a row with no neighbour, or with
    at least two whose weights do not sum to zero. *)
Definition row_aggregates (aggregate : aggregator) (rec_i : list Q) : Prop :=
  match aggregate with
  | reducer _ => True
  | np_average =>
      let ws := map (fun t => nth t rec_i 0) (nonzero rec_i) in
      ws = [] \/ ((2 <= length ws)%nat /\ ~ sum ws == 0)
  end.

(** The sample of [M] at index [n] along axis [a] and index [k] across
    it: [M[n, k]] for [a = 0], [M[k, n]] for [a = 1]; and the length of
    [M] across the axis. *)
Definition along (M : matrix) (a n k : nat) : Q :=
  match a with O => at_ 0 M n k | _ => at_ 0 M k n end.

Definition shape_across {A} (M : mat A) (a : nat) : nat :=
  match a with O => ncols M | _ => nrows M end.

(** What [nn_filter] with a plain reducer [f] puts at index [n] along
    the axis and [k] across it, in an array of dtype [dt]: the sample of
    [S] when row [n] of the graph is empty, else [f] of the samples of
    [S] at the neighbours of [n], in ascending order of their indices,
    cast to [dt]. *)
Definition reduced_sample (dt : dtype) (f : list Q -> Q) (S rec : matrix)
    (a n k : nat) : Q :=
  match nonzero (row rec n) with
  | [] => along S a n k
  | targets => astype dt (f (map (fun t => along S a t k) targets))
  end.

(** The same for [np.average]: the sum of the neighbours' samples times
    their weights in row [n], over the sum of those weights, cast to
    [dt]. *)
Definition averaged_sample (dt : dtype) (S rec : matrix) (a n k : nat) : Q :=
  match nonzero (row rec n) with
  | [] => along S a n k
  | targets =>
      astype dt
        (sum (map (fun t => along S a t k * nth t (row rec n) 0) targets)
         / sum (map (fun t => nth t (row rec n) 0) targets))
  end.


(** The weighted mean as the specification words it: the weights are
    normalised to sum to one, then applied to the lane. *)
Definition weighted_mean (ws lane : list Q) : Q :=
  sum (map2 (fun w x => (w / sum ws) * x) ws lane).

(** A graph builder to run the examples with: every point is its own
    only neighbour. *)
Definition self_graph (S : matrix) (axis : Z) : result matrix :=
  a <- norm_axis axis ;;
  let n := shape_along S a in
  Ok (map (fun i => map (fun j => if Nat.eqb i j then 1 else 0) (seq 0 n))
          (seq 0 n)).

End NnFilter.

(** ** hpss *)

Module Hpss.

(** A kernel size as Python passes it: an [int] or a [float]. *)
Inductive pynum : Type :=
| PyInt (z : Z)
| PyFloat (q : Q).

(** [kernel_size]: a scalar or a pair [(kernel_harmonic, kernel_percussive)]. *)
Inductive kernel : Type :=
| KScalar (k : pynum)
| KPair (k_harm k_perc : pynum).

(** The input spectrogram: real or complex ([np.iscomplexobj]). *)
Inductive array : Type :=
| RealA (m : matrix)
| ComplexA (m : cmatrix).

(** What [hpss] calls outside this file:
    - [median_filter M size] is [scipy.ndimage.median_filter(M, size=size,
      mode='reflect')];
    - [float_power x p] is [x ** p] on floats;
    - [SMALL_FLOAT] is [util.SMALL_FLOAT], the epsilon threshold;
    - [magphase D] is [core.magphase(D)], magnitude and unit phase. *)
Record lib : Type := {
  median_filter : matrix -> pynum * pynum -> result matrix;
  float_power : Q -> Q -> Q;
  SMALL_FLOAT : Q;
  magphase : cmatrix -> matrix * cmatrix
}.

(** [harm = np.empty_like(S); harm[:] = X]: the copy succeeds when [X]
    has the shape of [S] (a different shape does not broadcast into it). *)
Definition assign_all (S X : matrix) : result matrix :=
  if same_shapeb S X then Ok X else Raise ValueError.

(** [x[where] = v] *)
Definition assign_where (x : matrix) (where_ : bmatrix) (v : Q) : matrix :=
  zipm (fun xi (b : bool) => if b then v else xi) x where_.

(** [b.astype(float)] *)
Definition float_of_bool (b : bool) : Q := if b then 1 else 0.

(** Lines 313-314: the hard masks. *)
Definition hard_masks (harm perc : matrix) : matrix * matrix :=
  let mask_harm := mapm float_of_bool (zipm Qgtb harm perc) in
  let mask_perc := mapm (fun m => 1 - m) mask_harm in
  (mask_harm, mask_perc).

(** Lines 318-324: the filter responses raised to [power], values below
    the threshold set to zero, with the positions that were set. *)
Definition raise_and_clamp (L : lib) (x : matrix) (power : Q) : matrix * bmatrix :=
  let x := mapm (fun v => float_power L v power) x in
  let zero_x := mapm (fun v => Qltb v (SMALL_FLOAT L)) x in
  (assign_where x zero_x 0, zero_x).

(** Lines 318-332: the soft masks. *)
Definition soft_masks (L : lib) (harm perc : matrix) (power : Q) : matrix * matrix :=
  let '(perc, zero_perc) := raise_and_clamp L perc power in
  let '(harm, zero_harm) := raise_and_clamp L harm power in
  let both := zipm andb zero_harm zero_perc in
  let harm := assign_where harm both (1 # 2) in
  let perc := assign_where perc both (1 # 2) in
  let mask_harm := zipm Qdiv harm (zipm Qplus harm perc) in
  let mask_perc := zipm Qdiv perc (zipm Qplus harm perc) in
  (mask_harm, mask_perc).

(** Lines 312-332: which masks [hpss] computes. *)
Definition masks (L : lib) (harm perc : matrix) (power : Q) (mask : bool)
    : matrix * matrix :=
  if mask || Qltb power (SMALL_FLOAT L) then hard_masks harm perc
  else soft_masks L harm perc power.

(** Lines 298-310: the two median-filter responses of the magnitude [S]. *)
Definition responses (L : lib) (S : matrix) (kernel_size : kernel)
    : result (matrix * matrix) :=
  let '(win_harm, win_perc) :=
    match kernel_size with
    | KScalar k => (k, k)
    | KPair k_harm k_perc => (k_harm, k_perc)
    end in
  h <- median_filter L S (PyInt 1, win_harm) ;;
  harm <- assign_all S h ;;
  p <- median_filter L S (win_perc, PyInt 1) ;;
  perc <- assign_all S p ;;
  Ok (harm, perc).

(** [(S * m) * phase]: [phase] is [None] for a real input (the code
    multiplies by the integer [1]). *)
Definition times_phase (X : matrix) (phase : option cmatrix) : array :=
  match phase with
  | None => RealA (mapm (fun x => x * 1) X)
  | Some ph => ComplexA (zipm (fun x (p : complex) => (x * fst p, x * snd p)) X ph)
  end.

(** Lines 293-296: magnitude and phase of the input; the code rebinds
    [S] to the magnitude, called [mag] below. *)
Definition split_phase (L : lib) (S : array) : matrix * option cmatrix :=
  match S with
  | ComplexA D => let '(mag, phase) := magphase L D in (mag, Some phase)
  | RealA m => (m, None)
  end.

(** The masks [mask_harm], [mask_perc] that a call of [hpss] computes. *)
Definition hpss_masks (L : lib) (S : array) (kernel_size : kernel) (power : Q)
    (mask : bool) : result (matrix * matrix) :=
  let '(mag, _) := split_phase L S in
  '(harm, perc) <- responses L mag kernel_size ;;
  Ok (masks L harm perc power mask).

(** [hpss(S, kernel_size, power, mask)] *)
Definition hpss (L : lib) (S : array) (kernel_size : kernel) (power : Q)
    (mask : bool) : result (array * array) :=
  let '(mag, phase) := split_phase L S in
  '(harm, perc) <- responses L mag kernel_size ;;
  let '(mask_harm, mask_perc) := masks L harm perc power mask in
  if mask then Ok (RealA mask_harm, RealA mask_perc)
  else Ok (times_phase (zipm Qmult mag mask_harm) phase,
           times_phase (zipm Qmult mag mask_perc) phase).

(** *** Reading the results *)

(** The sample of an array at a position, as a complex number. *)
Definition sample (X : array) (i j : nat) : complex :=
  match X with
  | RealA m => (at_ 0 m i j, 0)
  | ComplexA m => at_ (0, 0) m i j
  end.

Definition array_in_shape (X : array) (i j : nat) : Prop :=
  match X with
  | RealA m => in_shape m i j
  | ComplexA m => in_shape m i j
  end.

Definition is_complex (X : array) : bool :=
  match X with RealA _ => false | ComplexA _ => true end.

Definition ceq (z w : complex) : Prop := fst z == fst w /\ snd z == snd w.
Definition ceqb (z w : complex) : bool :=
  Qeq_bool (fst z) (fst w) && Qeq_bool (snd z) (snd w).
Definition cadd (z w : complex) : complex := (fst z + fst w, snd z + snd w).
Definition cscale (x : Q) (z : complex) : complex := (x * fst z, x * snd z).

Definition all_true (b : bmatrix) : bool := forallb (forallb (fun x => x)) b.

(** Modelled from the spec: [core.magphase] is not part of this file;
    the specification has it split a complex spectrogram into a
    magnitude and a phase whose elementwise product is the input.  The
    check below is that contract on one input [S] (nothing is asked of a
    real input, which [hpss] does not split). *)
Definition magphase_okb (L : lib) (S : array) : bool :=
  match S with
  | RealA _ => true
  | ComplexA D =>
      let '(mag, phase) := magphase L D in
      same_shapeb D mag && same_shapeb D phase &&
      all_true (zipm (fun (z : complex) (mp : Q * complex) =>
                        ceqb (cscale (fst mp) (snd mp)) z)
                     D (zipm pair mag phase))
  end.

(** A kernel size the documentation excludes: not a positive integer. *)
Definition malformed (k : pynum) : Prop :=
  match k with
  | PyInt z => (z <= 0)%Z
  | PyFloat _ => True
  end.

Definition kernel_malformed (k : kernel) : Prop :=
  match k with
  | KScalar k => malformed k
  | KPair k_harm k_perc => malformed k_harm \/ malformed k_perc
  end.

(** The two soft masks at a position whose raised responses are [h]
    and [p]. *)
Definition clamp (L : lib) (v : Q) : Q := if Qltb v (SMALL_FLOAT L) then 0 else v.

Definition equalize (L : lib) (h p v : Q) : Q :=
  if Qltb h (SMALL_FLOAT L) && Qltb p (SMALL_FLOAT L) then 1 # 2 else clamp L v.

Definition soft_harm (L : lib) (h p : Q) : Q :=
  equalize L h p h / (equalize L h p h + equalize L h p p).

Definition soft_perc (L : lib) (h p : Q) : Q :=
  equalize L h p p / (equalize L h p h + equalize L h p p).

(** *** A reference instance of the libraries *)

(** [k] reflected into [0 .. n-1] the way [mode='reflect'] extends an
    axis: [d c b a | a b c d | d c b a]. *)
Definition reflect (n : nat) (k : Z) : nat :=
  let p := (2 * Z.of_nat n)%Z in
  let r := (k mod p)%Z in
  Z.to_nat (if (r <? Z.of_nat n)%Z then r else (p - 1 - r)%Z).

Fixpoint insert_sorted (x : Q) (l : list Q) : list Q :=
  match l with
  | [] => [x]
  | y :: l' => if Qle_bool x y then x :: l else y :: insert_sorted x l'
  end.

Definition sort (l : list Q) : list Q := fold_right insert_sorted [] l.

(** The median a rank filter returns: the element of rank [size // 2]. *)
Definition median (l : list Q) : Q := nth (length l / 2) (sort l) 0.

(** The [kr x kc] window centred at [(i, j)], origin 0. *)
Definition window (M : matrix) (kr kc i j : nat) : list Q :=
  flat_map (fun di =>
    map (fun dj =>
      at_ 0 M
        (reflect (length M) (Z.of_nat i + Z.of_nat di - Z.of_nat (kr / 2)))
        (reflect (length (row M i)) (Z.of_nat j + Z.of_nat dj - Z.of_nat (kc / 2))))
      (seq 0 kc))
    (seq 0 kr).

(** A window length: a float is a [TypeError], a negative length a
    [ValueError] (both from building the footprint), and an empty
    footprint a [RuntimeError]. *)
Definition window_length (k : pynum) : result nat :=
  match k with
  | PyFloat _ => Raise TypeError
  | PyInt z =>
      if (z <? 0)%Z then Raise ValueError
      else if (z =? 0)%Z then Raise RuntimeError
      else Ok (Z.to_nat z)
  end.

Definition scipy_median_filter (M : matrix) (size : pynum * pynum) : result matrix :=
  kr <- window_length (fst size) ;;
  kc <- window_length (snd size) ;;
  Ok (map (fun i =>
            map (fun j => median (window M kr kc i j))
                (seq 0 (length (row M i))))
          (seq 0 (length M))).

(** [x ** p], exact for an integer exponent and for base 0 with a
    positive exponent (other cases have no rational value in general and
    use the integer part of the exponent). *)
Definition rational_power (x p : Q) : Q :=
  if Qeq_bool x 0 && Qltb 0 p then 0
  else Qpower x (Qfloor p).

(** Magnitude and phase of one sample: the magnitude is exact when it is
    rational, and [mag * phase] is the sample in every case; the phase
    of 0 is 1. *)
Definition magphase1 (z : complex) : Q * complex :=
  let n := fst z * fst z + snd z * snd z in
  let mag := Z.sqrt (Qnum n * Zpos (Qden n)) # Qden n in
  if Qeq_bool mag 0 then (0, (1, 0)) else (mag, (fst z / mag, snd z / mag)).

Definition rational_magphase (D : cmatrix) : matrix * cmatrix :=
  (mapm (fun z => fst (magphase1 z)) D, mapm (fun z => snd (magphase1 z)) D).

Definition reference : lib := {|
  median_filter := scipy_median_filter;
  float_power := rational_power;
  SMALL_FLOAT := 1 # 100000000000000000000;
  magphase := rational_magphase
|}.

End Hpss.

(** ** decompose *)

Module Decompose.

(** The transformer interface [decompose] relies on (scikit-learn's):
    the default constructor [sklearn.decomposition.NMF(n_components=n,
    **kwargs)], the methods [fit_transform] and [transform], and the
    attribute [components_].  Each of them may raise: the constructor
    on a keyword it does not know, the attribute on an object that has
    none.  A transformer is a mutable object of state [T]:
    [fit_transform] returns its state after fitting next to the
    transformed data.  [K] is the type of the keyword arguments. *)
Record factorizer (T K : Type) : Type := {
  NMF : option nat -> K -> result T;
  fit_transform : T -> matrix -> result (T * matrix);
  transform : T -> matrix -> result matrix;
  components_ : T -> result matrix
}.

Arguments NMF {T K} _ _ _.
Arguments fit_transform {T K} _ _ _.
Arguments transform {T K} _ _ _.
Arguments components_ {T K} _ _.

(** [np.argmax]: the index of the first largest entry. *)
Fixpoint argmax_from (best_i : nat) (best : Q) (i : nat) (l : list Q) : nat :=
  match l with
  | [] => best_i
  | x :: l' =>
      if Qltb best x then argmax_from i x (S i) l'
      else argmax_from best_i best (S i) l'
  end.

Definition argmax (l : list Q) : nat :=
  match l with
  | [] => 0%nat
  | x :: l' => argmax_from 0 x 1 l'
  end.

(** [np.argsort]: the indices in ascending order of their keys (equal
    keys in ascending order of index). *)
Fixpoint insert_by (key : nat -> nat) (i : nat) (l : list nat) : list nat :=
  match l with
  | [] => [i]
  | j :: l' =>
      if Nat.leb (key i) (key j) then i :: l else j :: insert_by key i l'
  end.

Definition argsort (keys : list nat) : list nat :=
  fold_right (insert_by (fun i => nth i keys 0%nat)) [] (seq 0 (length keys)).

(** Modelled from the spec: [util.axis_sort(components, index=True)] is
    not part of this file.  The specification has the components
    reordered by ascending index of peak magnitude along the feature
    axis; the permutation used is returned with them. *)
Definition peak_index (component : list Q) : nat := argmax (map Qabs component).

Definition axis_sort (components : matrix) : matrix * list nat :=
  let bin_idx :=
    map (fun k => peak_index (column 0 components k)) (seq 0 (ncols components)) in
  let idx := argsort bin_idx in
  (map (fun r => map (fun k => nth k r 0) idx) components, idx).

(** [activations[idx]]: the rows at the indices [idx]. *)
Definition index_rows (M : matrix) (idx : list nat) : result matrix :=
  if forallb (fun k => Nat.ltb k (nrows M)) idx then Ok (map (fun k => row M k) idx)
  else Raise IndexError.

(** [components.dot(activations)] *)
Definition dot (X Y : matrix) : matrix :=
  map (fun r => map (fun j => sum (map2 Qmult r (column 0 Y j))) (seq 0 (ncols Y))) X.

(** Lines 165-170: the transformer [decompose] works with. *)
Definition default_transformer {T K} (F : factorizer T K) (n_components : option nat)
    (transformer : option T) (fit : bool) (kwargs : K) : result T :=
  match transformer with
  | None =>
      if negb fit then Raise ParameterError
      else NMF F n_components kwargs
  | Some t => Ok t
  end.

(** [decompose(S, n_components, transformer, sort, fit, **kwargs)]; the
    state of the transformer after the call is returned with the
    components and the activations.  Lines 172-173 rebind [n_components]
    after the transformer was built; the new value is not read again. *)
Definition decompose {T K} (F : factorizer T K) (S : matrix)
    (n_components : option nat) (transformer : option T) (sort fit : bool)
    (kwargs : K) : result (matrix * matrix * T) :=
  transformer <- default_transformer F n_components transformer fit kwargs ;;
  let n_components :=
    match n_components with None => nrows S | Some n => n end in
  '(transformer, activations) <-
    (if fit then
       '(t, Y) <- fit_transform F transformer (transpose 0 S) ;;
       Ok (t, transpose 0 Y)
     else
       Y <- transform F transformer (transpose 0 S) ;;
       Ok (transformer, transpose 0 Y)) ;;
  components_ <- components_ F transformer ;;
  let components := transpose 0 components_ in
  if sort then
    let '(components, idx) := axis_sort components in
    activations <- index_rows activations idx ;;
    Ok (components, activations, transformer)
  else Ok (components, activations, transformer).

(** *** A transformer to run the examples with *)

(** It keeps the last [k] features, most recent first; [k] is its
    [n_components] parameter, every feature when that is [None] (as
    scikit-learn's transformers read it). *)
Record keep_last : Type := {
  n_components_ : option nat;
  basis : matrix
}.

Definition unit_row (n i : nat) : list Q :=
  map (fun j => if Nat.eqb i j then 1 else 0) (seq 0 n).

Definition keep_last_fit (t : keep_last) (X : matrix) : keep_last :=
  let n := ncols X in
  let k := match n_components_ t with None => n | Some k => Nat.min k n end in
  {| n_components_ := n_components_ t;
     basis := map (fun i => unit_row n (n - 1 - i)) (seq 0 k) |}.

Definition keep_last_transform (t : keep_last) (X : matrix) : matrix :=
  map (fun x => map (fun b => sum (map2 Qmult x b)) (basis t)) X.

Definition keep_last_factorizer : factorizer keep_last unit := {|
  NMF := fun n _ => Ok {| n_components_ := n; basis := [] |};
  fit_transform := fun t X =>
    let t' := keep_last_fit t X in Ok (t', keep_last_transform t' X);
  transform := fun t X => Ok (keep_last_transform t X);
  components_ := fun t => Ok (basis t)
|}.

End Decompose.

(** ** Arrays as objects: the store *)

(** The definitions above compute with array values.  To say which
    arrays a call writes to, the same code is given below over a store:
    a name of the program holds a reference, an operation that returns a
    new array allocates, and an assignment through an index ([x[...] =
    v]) overwrites the array the reference points to.  The store has two
    regions: [old] holds the arrays that exist when the call starts (the
    arguments among them), [new] the arrays allocated since.  1-D
    temporaries (index and weight vectors, aggregated slices) and
    scalars are values. *)

Module Store.

Import Hpss NnFilter.

Inductive buffer : Type :=
| FloatBuf (m : matrix)      (* a real ndarray *)
| ComplexBuf (m : cmatrix)   (* a complex ndarray *)
| BoolBuf (m : bmatrix)      (* a boolean ndarray *)
| SparseBuf (m : matrix).    (* a scipy.sparse matrix, by its contents *)

Inductive ref : Type :=
| Old (i : nat)
| New (i : nat).

Record store : Type := {
  old : list buffer;
  new : list buffer
}.

(** The store a call starts in. *)
Definition enter (arrays : list buffer) : store := {| old := arrays; new := [] |}.

Definition lookup (s : store) (r : ref) : option buffer :=
  match r with
  | Old i => nth_error (old s) i
  | New i => nth_error (new s) i
  end.

(** Computations over the store that may raise. *)
Definition M (A : Type) : Type := store -> result A * store.

Definition ret {A} (a : A) : M A := fun s => (Ok a, s).
Definition raise {A} (e : exn) : M A := fun s => (Raise e, s).
Definition lift {A} (r : result A) : M A := fun s => (r, s).

Definition bindM {A B} (c : M A) (k : A -> M B) : M B :=
  fun s =>
    match c s with
    | (Ok a, s') => k a s'
    | (Raise e, s') => (Raise e, s')
    end.

Declare Scope store_scope.
Delimit Scope store_scope with store.
Notation "x <~ c ;; k" := (bindM c (fun x => k))
  (at level 61, c at next level, right associativity) : store_scope.
Notation "' p <~ c ;; k" := (bindM c (fun x => let p := x in k))
  (at level 61, p pattern, c at next level, right associativity) : store_scope.
Notation "c ;;; k" := (bindM c (fun _ => k))
  (at level 61, right associativity) : store_scope.
Open Scope store_scope.

(** A new array. *)
Definition alloc (b : buffer) : M ref :=
  fun s => (Ok (New (length (new s))), {| old := old s; new := new s ++ [b] |}).

Definition read (r : ref) : M buffer :=
  fun s =>
    match lookup s r with
    | Some b => (Ok b, s)
    | None => (Raise RuntimeError, s)
    end.

(** Overwriting the array behind a reference. *)
Definition write (r : ref) (b : buffer) : M unit :=
  fun s =>
    match r with
    | Old i => (Ok tt, {| old := set_nth i b (old s); new := new s |})
    | New i => (Ok tt, {| old := old s; new := set_nth i b (new s) |})
    end.

Definition read_float (r : ref) : M matrix :=
  b <~ read r ;;
  match b with FloatBuf m => ret m | _ => raise TypeError end.

Definition read_bool (r : ref) : M bmatrix :=
  b <~ read r ;;
  match b with BoolBuf m => ret m | _ => raise TypeError end.

Definition read_complex (r : ref) : M cmatrix :=
  b <~ read r ;;
  match b with ComplexBuf m => ret m | _ => raise TypeError end.

Definition read_sparse (r : ref) : M matrix :=
  b <~ read r ;;
  match b with SparseBuf m => ret m | _ => raise TypeError end.

(** Operations that return a new array. *)
Definition map_float (f : Q -> Q) (x : ref) : M ref :=
  m <~ read_float x ;; alloc (FloatBuf (mapm f m)).

Definition zip_float (f : Q -> Q -> Q) (x y : ref) : M ref :=
  a <~ read_float x ;; b <~ read_float y ;; alloc (FloatBuf (zipm f a b)).

Definition less (x : ref) (v : Q) : M ref :=
  m <~ read_float x ;; alloc (BoolBuf (mapm (fun xi => Qltb xi v) m)).

Definition greater (x y : ref) : M ref :=
  a <~ read_float x ;; b <~ read_float y ;; alloc (BoolBuf (zipm Qgtb a b)).

Definition and_ (x y : ref) : M ref :=
  a <~ read_bool x ;; b <~ read_bool y ;; alloc (BoolBuf (zipm andb a b)).

Definition astype_float (x : ref) : M ref :=
  b <~ read_bool x ;; alloc (FloatBuf (mapm float_of_bool b)).

(** [np.empty_like(S)]: an array of the shape of [S]; its contents are
    arbitrary until written (zeros here). *)
Definition empty_like (x : ref) : M ref :=
  m <~ read_float x ;; alloc (FloatBuf (mapm (fun _ => 0) m)).

(** [x.copy()] *)
Definition copy (x : ref) : M ref :=
  m <~ read_float x ;; alloc (FloatBuf m).

Definition median_filter_st (L : lib) (x : ref) (size : pynum * pynum) : M ref :=
  m <~ read_float x ;;
  r <~ lift (median_filter L m size) ;;
  alloc (FloatBuf r).

(** Operations that write into an existing array: [dst[:] = src] and
    [x[where] = v]. *)
Definition copy_into (dst src : ref) : M unit :=
  d <~ read_float dst ;;
  x <~ read_float src ;;
  v <~ lift (assign_all d x) ;;
  write dst (FloatBuf v).

Definition assign_where_st (x where_ : ref) (v : Q) : M unit :=
  m <~ read_float x ;;
  w <~ read_bool where_ ;;
  write x (FloatBuf (assign_where m w v)).

(** [(S * m) * phase] *)
Definition times_phase_st (x : ref) (phase : option ref) : M ref :=
  match phase with
  | None => map_float (fun v => v * 1) x
  | Some p =>
      m <~ read_float x ;;
      ph <~ read_complex p ;;
      alloc (ComplexBuf (zipm (fun v (z : complex) => (v * fst z, v * snd z)) m ph))
  end.

(** [hpss], line by line. *)
Definition hpss_st (L : lib) (S : ref) (kernel_size : kernel) (power : Q)
    (mask : bool) : M (ref * ref) :=
  b <~ read S ;;
  '(mag, phase) <~
    match b with
    | ComplexBuf D =>
        let '(m, p) := magphase L D in
        mag <~ alloc (FloatBuf m) ;;
        phase <~ alloc (ComplexBuf p) ;;
        ret (mag, Some phase)
    | _ => ret (S, None)
    end ;;
  let '(win_harm, win_perc) :=
    match kernel_size with
    | KScalar k => (k, k)
    | KPair k_harm k_perc => (k_harm, k_perc)
    end in
  harm <~ empty_like mag ;;
  h <~ median_filter_st L mag (PyInt 1, win_harm) ;;
  copy_into harm h ;;;
  perc <~ empty_like mag ;;
  p <~ median_filter_st L mag (win_perc, PyInt 1) ;;
  copy_into perc p ;;;
  if mask || Qltb power (SMALL_FLOAT L) then
    gt <~ greater harm perc ;;
    mask_harm <~ astype_float gt ;;
    mask_perc <~ map_float (fun m => 1 - m) mask_harm ;;
    if mask then ret (mask_harm, mask_perc)
    else
      sh <~ zip_float Qmult mag mask_harm ;;
      harmonic <~ times_phase_st sh phase ;;
      sp <~ zip_float Qmult mag mask_perc ;;
      percussive <~ times_phase_st sp phase ;;
      ret (harmonic, percussive)
  else
    perc <~ map_float (fun v => float_power L v power) perc ;;
    zero_perc <~ less perc (SMALL_FLOAT L) ;;
    assign_where_st perc zero_perc 0 ;;;
    harm <~ map_float (fun v => float_power L v power) harm ;;
    zero_harm <~ less harm (SMALL_FLOAT L) ;;
    assign_where_st harm zero_harm 0 ;;;
    both <~ and_ zero_harm zero_perc ;;
    assign_where_st harm both (1 # 2) ;;;
    both' <~ and_ zero_harm zero_perc ;;
    assign_where_st perc both' (1 # 2) ;;;
    den <~ zip_float Qplus harm perc ;;
    mask_harm <~ zip_float Qdiv harm den ;;
    den' <~ zip_float Qplus harm perc ;;
    mask_perc <~ zip_float Qdiv perc den' ;;
    sh <~ zip_float Qmult mag mask_harm ;;
    harmonic <~ times_phase_st sh phase ;;
    sp <~ zip_float Qmult mag mask_perc ;;
    percussive <~ times_phase_st sp phase ;;
    ret (harmonic, percussive).

(** [s_out[tuple(index)] = v] *)
Definition set_slice_st (x : ref) (i : nat) (v : list Q) (a : nat) : M unit :=
  m <~ read_float x ;;
  write x (FloatBuf (set_slice m i v a)).

(** The loop of [nn_filter], lines 469-483; the arrays of the store are
    float arrays, and [s_out] is one of them. *)
Fixpoint filter_rows_st (S rec : ref) (aggregate : aggregator) (a : nat)
    (rows : list nat) (s_out : ref) : M unit :=
  match rows with
  | [] => ret tt
  | i :: rest =>
      r <~ read_sparse rec ;;
      let targets := nonzero (row r i) in
      match targets with
      | [] => filter_rows_st S rec aggregate a rest s_out
      | _ :: _ =>
          m <~ read_float S ;;
          n <~ lift (take m targets a) ;;
          neighbors <~ alloc (FloatBuf n) ;;
          nb <~ read_float neighbors ;;
          v <~ lift (aggregate_neighbors aggregate (row r i) targets nb a) ;;
          set_slice_st s_out i (map (astype float64) v) a ;;;
          filter_rows_st S rec aggregate a rest s_out
      end
  end.

(** Lines 453-458: the graph.  A dense [rec] is converted to a new
    sparse matrix, a sparse one is used as it is; the graph builder is
    taken to read [S] only. *)
Definition graph_st (recurrence_matrix : matrix -> Z -> result matrix)
    (S : ref) (rec : option ref) (axis : Z) : M ref :=
  match rec with
  | None =>
      m <~ read_float S ;;
      r <~ lift (recurrence_matrix m axis) ;;
      alloc (SparseBuf r)
  | Some r =>
      b <~ read r ;;
      match b with
      | SparseBuf _ => ret r
      | FloatBuf m => alloc (SparseBuf m)
      | _ => raise TypeError
      end
  end.

(** Lines 460-485: the validation, the copy and the loop. *)
Definition filter_st (S rec : ref) (aggregate : aggregator) (axis : Z) : M ref :=
  r <~ read_sparse rec ;;
  m <~ read_float S ;;
  a <~ lift (norm_axis axis) ;;
  if negb (Nat.eqb (nrows r) (shape_along m a))
     || negb (Nat.eqb (nrows r) (ncols r))
  then raise ParameterError
  else
    s_out <~ copy S ;;
    filter_rows_st S rec aggregate a (seq 0 (nrows r)) s_out ;;;
    ret s_out.

(** [nn_filter], line by line. *)
Definition nn_filter_st (recurrence_matrix : matrix -> Z -> result matrix)
    (S : ref) (rec : option ref) (aggregate : option aggregator) (axis : Z)
    : M ref :=
  let aggregate := match aggregate with None => np_mean | Some f => f end in
  rec <~ graph_st recurrence_matrix S rec axis ;;
  filter_st S rec aggregate axis.

(** *** Stating what a call does to the store *)

(** A reference to an array allocated since the call started. *)
Definition is_new (r : ref) : Prop :=
  match r with New _ => True | Old _ => False end.

(** [c] leaves the old region as it found it, whether it returns or
    raises, and what it returns satisfies [P]. *)
Definition keeps_old {A} (c : M A) (P : A -> Prop) : Prop :=
  forall s, old (snd (c s)) = old s /\
            forall a, fst (c s) = Ok a -> P a.

(** The outcome of a run over the store agrees with a result on
    values: the same exception, or a reference to a new array holding
    the value. *)
Definition agrees (r : result matrix) (run : result ref * store) : Prop :=
  match r with
  | Ok out =>
      exists o, fst run = Ok o /\ is_new o /\ lookup (snd run) o = Some (FloatBuf out)
  | Raise e => fst run = Raise e
  end.

(** The graph argument in the store: none, or a reference to a dense
    or a sparse array holding the values [rec]. *)
Definition holds_graph (s : store) (rec : option ref) (recv : option matrix) : Prop :=
  match rec, recv with
  | None, None => True
  | Some r, Some m =>
      lookup s r = Some (FloatBuf m) \/ lookup s r = Some (SparseBuf m)
  | _, _ => False
  end.

(** The array an [hpss] argument or result is, as a buffer. *)
Definition buffer_of (X : array) : buffer :=
  match X with
  | RealA m => FloatBuf m
  | ComplexA m => ComplexBuf m
  end.

(** The same for the two results of [hpss]. *)
Definition agrees2 (r : result (array * array)) (run : result (ref * ref) * store)
    : Prop :=
  match r with
  | Ok (H, P) =>
      exists h p,
        fst run = Ok (h, p) /\ is_new h /\ is_new p /\
        lookup (snd run) h = Some (buffer_of H) /\
        lookup (snd run) p = Some (buffer_of P)
  | Raise e => fst run = Raise e
  end.

(** The store [s] after the arrays [l] were allocated, and the
    reference to the [k]-th of them. *)
Definition grow (s : store) (l : list buffer) : store :=
  {| old := old s; new := new s ++ l |}.

Definition loc (s : store) (k : nat) : ref := New (length (new s) + k).

End Store.

(* ================================================================== *)
(** * Part II: properties *)
(* ================================================================== *)

(** ** Lists and arrays *)

Section ListFacts.

Context {A B C : Type}.

Lemma length_set_nth (i : nat) (x : A) (l : list A) :
  length (set_nth i x l) = length l.
Proof.
  revert i; induction l as [|y l IH]; intros [|i]; simpl; auto.
Qed.

Lemma nth_set_nth_same (i : nat) (x d : A) (l : list A) :
  (i < length l)%nat -> nth i (set_nth i x l) d = x.
Proof.
  revert i; induction l as [|y l IH]; intros [|i] Hi; simpl in *; try lia; auto.
  apply IH; lia.
Qed.

Lemma nth_set_nth_other (i j : nat) (x d : A) (l : list A) :
  i <> j -> nth j (set_nth i x l) d = nth j l d.
Proof.
  revert i j; induction l as [|y l IH]; intros [|i] [|j] Hij; simpl; auto; try lia.
Qed.

Lemma length_map2 (f : A -> B -> C) (u : list A) (v : list B) :
  length (map2 f u v) = Nat.min (length u) (length v).
Proof.
  revert v; induction u as [|a u IH]; intros [|b v]; simpl; auto.
Qed.

Lemma nth_map2 (f : A -> B -> C) (u : list A) (v : list B) (i : nat) da db dc :
  (i < length u)%nat -> (i < length v)%nat ->
  nth i (map2 f u v) dc = f (nth i u da) (nth i v db).
Proof.
  revert v i; induction u as [|a u IH]; intros [|b v] [|i] Hu Hv;
    simpl in *; try lia; auto.
  apply IH; lia.
Qed.

Lemma map2_map_l (f : A -> B -> C) (g : nat -> A) (h : nat -> B) (l : list nat) :
  map2 f (map g l) (map h l) = map (fun k => f (g k) (h k)) l.
Proof.
  induction l as [|k l IH]; simpl; congruence.
Qed.

End ListFacts.

Lemma map_nth_seq {A} (l : list A) (d : A) :
  map (fun k => nth k l d) (seq 0 (length l)) = l.
Proof.
  induction l as [|x l IH]; simpl; auto.
  f_equal. rewrite <- seq_shift, map_map. exact IH.
Qed.

Lemma rect_has_shape {A} (M : mat A) :
  rect M -> has_shape M (nrows M) (ncols M).
Proof. intros H; split; auto. Qed.

Lemma has_shape_row {A} (M : mat A) (d n i : nat) :
  has_shape M d n -> (i < d)%nat -> length (row M i) = n.
Proof.
  intros [Hd Hn] Hi. rewrite Forall_forall in Hn. apply Hn.
  unfold row. apply nth_In. lia.
Qed.

Lemma has_shape_ncols {A} (M : mat A) d n :
  has_shape M d n -> (0 < d)%nat -> ncols M = n.
Proof.
  intros H Hd. pose proof (has_shape_row M d n 0 H Hd) as Hr.
  unfold row, ncols in *. destruct M; simpl in *; auto.
Qed.

Lemma rectb_rect {A} (M : mat A) : rectb M = true <-> rect M.
Proof.
  unfold rectb, rect. rewrite forallb_forall, Forall_forall.
  split; intros H r Hr; specialize (H r Hr).
  - now apply Nat.eqb_eq.
  - now apply Nat.eqb_eq.
Qed.

Lemma rect_transpose {A} (d : A) (M : mat A) : rect (transpose d M).
Proof.
  assert (H : forall r, In r (transpose d M) -> length r = length M).
  { intros r Hr. unfold transpose in Hr. apply in_map_iff in Hr.
    destruct Hr as (k & <- & _). unfold column. now rewrite length_map. }
  unfold rect. apply Forall_forall. intros r Hr. rewrite (H r Hr).
  unfold ncols. destruct (transpose d M) as [|r0 T'] eqn:E; [contradiction|].
  simpl. symmetry. apply H. now left.
Qed.

Lemma nth_column (M : matrix) (j k : nat) :
  nth k (column 0 M j) 0 = nth j (row M k) 0.
Proof.
  unfold column, row.
  pose proof (map_nth (fun r => nth j r 0) M [] k) as H. cbv beta in H.
  rewrite <- H. now destruct j.
Qed.

(** Slices of an array after one slice was written. *)

Lemma set_slice_shape (M : matrix) d n i v a :
  has_shape M d n ->
  length v = match a with O => n | _ => d end ->
  has_shape (set_slice M i v a) d n.
Proof.
  intros [Hd Hn] Hv. destruct a as [|a]; simpl in *.
  - split; [now rewrite length_set_nth|].
    clear Hd. revert i. induction Hn as [|r M Hr HM IH]; intros [|i]; simpl;
      constructor; auto.
  - split; [rewrite length_map2; lia|].
    assert (Hle : (length M <= length v)%nat) by lia. clear Hd Hv.
    revert v Hle. induction Hn as [|r M Hr HM IH]; intros [|x v] Hle; simpl in *;
      try constructor; try lia.
    + now rewrite length_set_nth.
    + apply IH. lia.
Qed.

Lemma get_set_slice_same (M : matrix) d n i v a :
  has_shape M d n ->
  length v = match a with O => n | _ => d end ->
  (i < match a with O => d | _ => n end)%nat ->
  get_slice (set_slice M i v a) i a = v.
Proof.
  intros [Hd Hn] Hv Hi. destruct a as [|a]; simpl in *.
  - unfold row. apply nth_set_nth_same. lia.
  - unfold column. subst d. revert v Hv.
    induction Hn as [|r M Hr HM IH]; intros [|x v] Hv; simpl in *; try lia; auto.
    f_equal.
    + apply nth_set_nth_same. lia.
    + apply IH. lia.
Qed.

Lemma get_set_slice_other (M : matrix) d n i j v a :
  has_shape M d n ->
  length v = match a with O => n | _ => d end ->
  i <> j ->
  get_slice (set_slice M i v a) j a = get_slice M j a.
Proof.
  intros [Hd Hn] Hv Hij. destruct a as [|a]; simpl in *.
  - unfold row. now apply nth_set_nth_other.
  - unfold column. subst d. clear Hn. revert v Hv.
    induction M as [|r M IH]; intros [|x v] Hv; simpl in *; try lia; auto.
    f_equal.
    + now apply nth_set_nth_other.
    + apply IH. lia.
Qed.

(** ** nn_filter *)

Section NnFilterFacts.

Import NnFilter.

Variable recurrence_matrix : matrix -> Z -> result matrix.
Variable dt : dtype.

(** The indices [nonzero] returns are column indices of the row, and the
    entries there are not zero. *)
Lemma nonzero_spec (r : list Q) (t : nat) :
  In t (nonzero r) <-> (t < length r)%nat /\ ~ nth t r 0 == 0.
Proof.
  unfold nonzero. rewrite filter_In, in_seq, negb_true_iff.
  rewrite <- Qeq_bool_iff.
  split; intros [H1 H2]; split; try lia.
  - now rewrite H2.
  - now destruct (Qeq_bool (nth t r 0) 0).
Qed.


Lemma take_ok (S : matrix) (targets : list nat) (a : nat) :
  (forall t, In t targets -> (t < shape_along S a)%nat) ->
  exists neighbors, take S targets a = Ok neighbors.
Proof.
  intros H. unfold take.
  assert (E : forallb (fun t => Nat.ltb t (shape_along S a)) targets = true).
  { apply forallb_forall. intros t Ht. apply Nat.ltb_lt. auto. }
  rewrite E. eauto.
Qed.

Lemma take_in_bounds (S : matrix) (targets : list nat) (a : nat) neighbors :
  take S targets a = Ok neighbors ->
  forall t, In t targets -> (t < shape_along S a)%nat.
Proof.
  unfold take. intros H t Ht.
  destruct (forallb _ targets) eqn:E; [|discriminate].
  rewrite forallb_forall in E. apply Nat.ltb_lt. auto.
Qed.

(** The lanes of the gathered neighbours: one per entry of a slice. *)
Lemma length_lanes_take (S : matrix) d n targets a neighbors :
  has_shape S d n -> targets <> [] ->
  take S targets a = Ok neighbors ->
  length (lanes neighbors a) = match a with O => n | _ => d end.
Proof.
  intros HS Hne Htake.
  pose proof (take_in_bounds _ _ _ _ Htake) as Hb.
  unfold take in Htake. destruct (forallb _ targets); [|discriminate].
  injection Htake as <-. destruct a as [|a]; simpl in *.
  - unfold transpose. rewrite length_map, length_seq.
    destruct targets as [|t ts]; [congruence|]. simpl.
    unfold ncols; simpl. apply (has_shape_row S d n t HS).
    destruct HS as [HS _]. unfold nrows in Hb. rewrite <- HS. apply Hb. now left.
  - rewrite length_map. apply HS.
Qed.

Lemma length_aggregate (aggregate : aggregator) rec_i targets neighbors a v :
  aggregate_neighbors aggregate rec_i targets neighbors a = Ok v ->
  length v = length (lanes neighbors a).
Proof.
  destruct aggregate as [|f]; simpl.
  - unfold average. destruct (squeeze _) as [w|ws]; [discriminate|].
    destruct (negb _); [discriminate|].
    destruct (Qeq_bool _ 0); [discriminate|].
    intros H; injection H as <-. now rewrite length_map.
  - intros H; injection H as <-. now rewrite length_map.
Qed.

(** The loop invariant: rows already visited hold their aggregate over
    the input [S], the others are untouched. *)
Lemma filter_rows_spec (S rec : matrix) (aggregate : aggregator) (a d n : nat) :
  has_shape S d n ->
  forall rows s_out out,
    has_shape s_out d n ->
    NoDup rows ->
    (forall i, In i rows -> (i < match a with O => d | _ => n end)%nat) ->
    filter_rows dt S rec aggregate a rows s_out = Ok out ->
    has_shape out d n /\
    (forall i, ~ In i rows -> get_slice out i a = get_slice s_out i a) /\
    (forall i, In i rows ->
       row_filtered dt S rec aggregate a i (get_slice s_out i a) (get_slice out i a)).
Proof.
  intros HS. induction rows as [|i rest IH]; intros s_out out Hs Hnd Hb Hrun.
  - simpl in Hrun. injection Hrun as <-.
    split; [exact Hs|]. split; [reflexivity|]. intros i [].
  - inversion Hnd as [|? ? Hi Hnd']; subst. simpl in Hrun.
    destruct (nonzero (row rec i)) as [|t ts] eqn:Et.
    + destruct (IH s_out out Hs Hnd' (fun j Hj => Hb j (or_intror Hj)) Hrun)
        as (Ho & Hkeep & Hdone).
      split; [exact Ho|]. split.
      * intros j Hj. apply Hkeep. intros Hin. apply Hj. now right.
      * intros j [<-|Hj]; [|now apply Hdone].
        unfold row_filtered. rewrite Et. now apply Hkeep.
    + destruct (take S (t :: ts) a) as [neighbors|e] eqn:Etake; [|discriminate].
      simpl in Hrun.
      destruct (aggregate_neighbors aggregate (row rec i) (t :: ts) neighbors a)
        as [v|e] eqn:Eagg; [|discriminate].
      simpl in Hrun.
      assert (Hv : length (map (astype dt) v) = match a with O => n | _ => d end).
      { rewrite length_map, (length_aggregate _ _ _ _ _ _ Eagg).
        apply (length_lanes_take S d n (t :: ts) a neighbors HS); [discriminate|exact Etake]. }
      assert (Hs' : has_shape (set_slice s_out i (map (astype dt) v) a) d n)
        by (apply set_slice_shape; auto).
      destruct (IH _ out Hs' Hnd' (fun j Hj => Hb j (or_intror Hj)) Hrun)
        as (Ho & Hkeep & Hdone).
      split; [exact Ho|]. split.
      * intros j Hj. rewrite Hkeep by (intros Hin; apply Hj; now right).
        apply (get_set_slice_other s_out d n i j _ a Hs Hv). intros ->. apply Hj. now left.
      * intros j [<-|Hj].
        -- unfold row_filtered. rewrite Et. exists neighbors, v.
           split; [exact Etake|]. split; [exact Eagg|].
           rewrite Hkeep by exact Hi.
           apply (get_set_slice_same s_out d n i _ a Hs Hv). apply Hb. now left.
        -- specialize (Hdone j Hj). unfold row_filtered in *.
           destruct (nonzero (row rec j)); auto.
           rewrite Hdone. apply (get_set_slice_other s_out d n i j _ a Hs Hv).
           intros ->. contradiction.
Qed.

(** The failures of the loop are those of the gather and of
    [np.average]; it never raises [ParameterError]. *)
Lemma average_raises (neighbors : matrix) (a : nat) (w : weights) (e : exn) :
  average neighbors a w = Raise e ->
  e = TypeError \/ e = ValueError \/ e = ZeroDivisionError.
Proof.
  unfold average. destruct w as [w|ws]; [intros [= <-]; auto|].
  destruct (negb _); [intros [= <-]; auto|].
  destruct (Qeq_bool _ 0); [intros [= <-]; auto|discriminate].
Qed.

Lemma aggregate_raises aggregate rec_i targets neighbors a (e : exn) :
  aggregate_neighbors aggregate rec_i targets neighbors a = Raise e ->
  aggregate = np_average /\
  (e = TypeError \/ e = ValueError \/ e = ZeroDivisionError).
Proof.
  destruct aggregate as [|f]; simpl; [|discriminate].
  intros H. split; [reflexivity|]. eapply average_raises; eauto.
Qed.

Lemma filter_rows_raises (S rec : matrix) aggregate a rows s_out (e : exn) :
  filter_rows dt S rec aggregate a rows s_out = Raise e ->
  e = IndexError \/
  (aggregate = np_average /\
   (e = TypeError \/ e = ValueError \/ e = ZeroDivisionError)).
Proof.
  revert s_out. induction rows as [|i rest IH]; intros s_out; simpl; [discriminate|].
  destruct (nonzero (row rec i)) as [|t ts]; [apply IH|].
  destruct (take S (t :: ts) a) as [neighbors|e'] eqn:Etake; simpl.
  - destruct (aggregate_neighbors aggregate (row rec i) (t :: ts) neighbors a)
      as [v|e'] eqn:Eagg; simpl; [apply IH|].
    intros [= <-]. right. eapply aggregate_raises; eauto.
  - unfold take in Etake. destruct (forallb _ (t :: ts)); [discriminate|].
    injection Etake as <-. intros [= <-]. now left.
Qed.

Lemma filter_rows_not_parameter_error (S rec : matrix) aggregate a rows s_out :
  filter_rows dt S rec aggregate a rows s_out <> Raise ParameterError.
Proof.
  intros H. apply filter_rows_raises in H.
  destruct H as [H|[_ [H|[H|H]]]]; discriminate.
Qed.

Lemma shape_along_take (S : matrix) targets a neighbors :
  targets <> [] ->
  take S targets a = Ok neighbors ->
  shape_along neighbors a = length targets.
Proof.
  intros Hne Htake. pose proof (take_in_bounds _ _ _ _ Htake) as Hb.
  unfold take in Htake. destruct (forallb _ targets); [|discriminate].
  injection Htake as <-. destruct a as [|a]; simpl in *.
  - unfold nrows. now rewrite length_map.
  - destruct targets as [|t ts]; [congruence|].
    specialize (Hb t (or_introl eq_refl)).
    unfold ncols in *. destruct S as [|r S]; simpl in *; [lia|].
    now rewrite length_map.
Qed.

Lemma aggregate_ok (S : matrix) aggregate rec_i a neighbors :
  nonzero rec_i <> [] ->
  take S (nonzero rec_i) a = Ok neighbors ->
  row_aggregates aggregate rec_i ->
  exists v, aggregate_neighbors aggregate rec_i (nonzero rec_i) neighbors a = Ok v.
Proof.
  intros Hne Htake Hrow. destruct aggregate as [|f]; simpl in *; [|eauto].
  destruct Hrow as [Hnil|[Hlen Hsum]].
  { apply map_eq_nil in Hnil. contradiction. }
  assert (Hsq : squeeze (map (fun t => nth t rec_i 0) (nonzero rec_i))
                = W1 (map (fun t => nth t rec_i 0) (nonzero rec_i))).
  { destruct (map _ (nonzero rec_i)) as [|w [|w' ws]]; simpl in *; auto; lia. }
  rewrite Hsq. unfold average.
  rewrite length_map, (shape_along_take S _ a neighbors Hne Htake), Nat.eqb_refl. simpl.
  destruct (Qeq_bool _ 0) eqn:E; [|eauto].
  apply Qeq_bool_iff in E. contradiction.
Qed.

(** The loop runs to completion when every gather is in bounds and
    every row can be aggregated. *)
Lemma filter_rows_total (S rec : matrix) aggregate a rows s_out :
  (forall i t, In i rows -> In t (nonzero (row rec i)) -> (t < shape_along S a)%nat) ->
  (forall i, In i rows -> row_aggregates aggregate (row rec i)) ->
  exists out, filter_rows dt S rec aggregate a rows s_out = Ok out.
Proof.
  revert s_out. induction rows as [|i rest IH]; intros s_out Hb Hagg; simpl; [eauto|].
  destruct (nonzero (row rec i)) as [|t ts] eqn:Et.
  - apply IH; intros; [eapply Hb|apply Hagg]; eauto; now right.
  - destruct (take_ok S (t :: ts) a) as [neighbors Htake].
    { intros u Hu. apply (Hb i u); [now left|now rewrite Et]. }
    rewrite Htake. simpl.
    destruct (aggregate_ok S aggregate (row rec i) a neighbors) as [v Hv];
      rewrite ?Et; auto; try discriminate.
    { apply Hagg. now left. }
    rewrite Et in Hv. rewrite Hv. simpl.
    apply IH; intros; [eapply Hb|apply Hagg]; eauto; now right.
Qed.

(** After the shape validation every neighbour index is in bounds. *)
Lemma targets_in_bounds (S rec : matrix) (a i t : nat) :
  rect rec ->
  nrows rec = shape_along S a -> nrows rec = ncols rec ->
  (i < nrows rec)%nat ->
  In t (nonzero (row rec i)) -> (t < shape_along S a)%nat.
Proof.
  intros Hrect H1 H2 Hi Ht. apply nonzero_spec in Ht. destruct Ht as [Ht _].
  rewrite (has_shape_row rec _ _ i (rect_has_shape rec Hrect) Hi) in Ht. lia.
Qed.

(** [nn_filter] once [rec] is supplied, the axis is valid and the shapes
    agree: the loop over the rows of [rec], started on a copy of [S]. *)
Lemma nn_filter_validated (S rec : matrix) aggregate axis a :
  norm_axis axis = Ok a ->
  nrows rec = shape_along S a -> nrows rec = ncols rec ->
  nn_filter recurrence_matrix dt S (Some rec) aggregate axis =
  filter_rows dt S rec (match aggregate with None => np_mean | Some f => f end)
              a (seq 0 (nrows rec)) S.
Proof.
  intros Ha H1 H2. unfold nn_filter, graph, filter_validated. simpl. rewrite Ha. simpl.
  rewrite <- H1, <- H2, Nat.eqb_refl. reflexivity.
Qed.

Lemma nn_filter_ok_inv (S rec : matrix) aggregate axis out :
  nn_filter recurrence_matrix dt S (Some rec) aggregate axis = Ok out ->
  exists a, norm_axis axis = Ok a /\
            nrows rec = shape_along S a /\ nrows rec = ncols rec.
Proof.
  unfold nn_filter, graph, filter_validated. simpl.
  destruct (norm_axis axis) as [a|e]; simpl; [|discriminate].
  destruct (Nat.eqb (nrows rec) (shape_along S a)) eqn:E1; simpl; [|discriminate].
  destruct (Nat.eqb (nrows rec) (ncols rec)) eqn:E2; simpl; [|discriminate].
  intros _. exists a. apply Nat.eqb_eq in E1, E2. auto.
Qed.


Lemma filter_rows_no_index_error (S rec : matrix) aggregate a rows s_out :
  (forall i t, In i rows -> In t (nonzero (row rec i)) -> (t < shape_along S a)%nat) ->
  filter_rows dt S rec aggregate a rows s_out <> Raise IndexError.
Proof.
  revert s_out. induction rows as [|i rest IH]; intros s_out Hb; simpl; [discriminate|].
  assert (Hb' : forall j t, In j rest -> In t (nonzero (row rec j)) ->
                            (t < shape_along S a)%nat)
    by (intros j t Hj; apply Hb; now right).
  destruct (nonzero (row rec i)) as [|t ts] eqn:Et; [now apply IH|].
  destruct (take_ok S (t :: ts) a) as [neighbors Htake].
  { intros u Hu. apply (Hb i u); [now left|now rewrite Et]. }
  rewrite Htake. simpl.
  destruct (aggregate_neighbors aggregate (row rec i) (t :: ts) neighbors a)
    as [v|e] eqn:Eagg; simpl; [now apply IH|].
  apply aggregate_raises in Eagg.
  destruct Eagg as [_ [E|[E|E]]]; subst e; discriminate.
Qed.

(** C5. With a supplied graph, [nn_filter] raises [ParameterError]
    exactly when the axis is valid and [rec] is not square or its
    dimension differs from the length of [S] along the axis; the check
    comes before the loop, so the outcome does not depend on the
    aggregation.  An [8 x 8] graph for an [S] of shape [(12, 10)] is
    rejected. *)
Theorem nn_filter_shape_validation (S rec : matrix) (aggregate : option aggregator)
    (axis : Z) :
  (nn_filter recurrence_matrix dt S (Some rec) aggregate axis = Raise ParameterError <->
   exists a, norm_axis axis = Ok a /\
             (nrows rec <> ncols rec \/ nrows rec <> shape_along S a)) /\
  nn_filter recurrence_matrix dt (repeat (repeat 0 10%nat) 12%nat)
            (Some (repeat (repeat 0 8%nat) 8%nat)) aggregate (-1)
  = Raise ParameterError.
Proof.
  split; [|reflexivity]. unfold nn_filter, graph, filter_validated. simpl.
  destruct (norm_axis axis) as [a|e] eqn:Ea; simpl.
  - destruct (Nat.eqb_spec (nrows rec) (shape_along S a)) as [E1|E1];
      destruct (Nat.eqb_spec (nrows rec) (ncols rec)) as [E2|E2]; simpl.
    + split.
      * intros H. now apply filter_rows_not_parameter_error in H.
      * intros (a' & Ha' & [H|H]); injection Ha' as <-; contradiction.
    + split; [|reflexivity]. intros _. exists a. auto.
    + split; [|reflexivity]. intros _. exists a. auto.
    + split; [|reflexivity]. intros _. exists a. auto.
  - split; [intros H; injection H as ->|intros (a & H & _); discriminate].
    unfold norm_axis in Ea.
    destruct ((axis =? 0)%Z || (axis =? -2)%Z); [discriminate|].
    destruct ((axis =? 1)%Z || (axis =? -1)%Z); discriminate.
Qed.

(** C10 (amended). Once the shape validation has passed, every neighbour
    index read from a row of [rec] is below the length of [S] along the
    axis, every gather succeeds and the call never raises [IndexError];
    the loop runs to completion whenever every row can be aggregated:
    always for a reducer other than [np.average], and for [np.average]
    when each row has no non-zero weight or at least two that do not sum
    to zero. *)
Theorem nn_filter_gather_in_bounds (S rec : matrix) (aggregate : aggregator)
    (axis : Z) (a : nat) :
  rect rec ->
  norm_axis axis = Ok a ->
  nrows rec = shape_along S a -> nrows rec = ncols rec ->
  (forall i t, (i < nrows rec)%nat -> In t (nonzero (row rec i)) ->
               (t < shape_along S a)%nat) /\
  (forall i, (i < nrows rec)%nat ->
             exists neighbors, take S (nonzero (row rec i)) a = Ok neighbors) /\
  nn_filter recurrence_matrix dt S (Some rec) (Some aggregate) axis <> Raise IndexError /\
  ((forall i, (i < nrows rec)%nat -> row_aggregates aggregate (row rec i)) ->
   exists out, nn_filter recurrence_matrix dt S (Some rec) (Some aggregate) axis = Ok out) /\
  (forall f, exists out,
     nn_filter recurrence_matrix dt S (Some rec) (Some (reducer f)) axis = Ok out).
Proof.
  intros Hrec Ha H1 H2.
  assert (Hb : forall i t, (i < nrows rec)%nat -> In t (nonzero (row rec i)) ->
                           (t < shape_along S a)%nat)
    by (intros i t; now apply targets_in_bounds).
  assert (Hb' : forall i t, In i (seq 0 (nrows rec)) -> In t (nonzero (row rec i)) ->
                            (t < shape_along S a)%nat)
    by (intros i t Hi; apply Hb; apply in_seq in Hi; lia).
  split; [exact Hb|]. split; [|split; [|split]].
  - intros i Hi. apply take_ok. intros t. now apply Hb.
  - rewrite (nn_filter_validated S rec (Some aggregate) axis a Ha H1 H2).
    now apply filter_rows_no_index_error.
  - intros Hagg.
    rewrite (nn_filter_validated S rec (Some aggregate) axis a Ha H1 H2).
    apply filter_rows_total; auto.
    intros i Hi. apply Hagg. apply in_seq in Hi. lia.
  - intros f.
    rewrite (nn_filter_validated S rec (Some (reducer f)) axis a Ha H1 H2).
    apply filter_rows_total; auto. intros; exact I.
Qed.

Lemma mean_single (x : Q) : mean [x] == x.
Proof. unfold mean. simpl. field. Qed.

Lemma nth_map_seq {A} (f : nat -> A) (n i : nat) (d : A) :
  (i < n)%nat -> nth i (map f (seq 0 n)) d = f i.
Proof.
  intros Hi. rewrite (nth_indep _ d (f 0%nat)) by now rewrite length_map, length_seq.
  rewrite map_nth, seq_nth; auto.
Qed.

End NnFilterFacts.

(** *** Weighted averaging *)

Lemma sum_scaled (W : Q) (ws lane : list Q) :
  sum (map2 (fun w x => (w / W) * x) ws lane) == sum (map2 Qmult lane ws) / W.
Proof.
  revert lane. induction ws as [|w ws IH]; intros [|x lane]; simpl;
    try (unfold Qdiv; ring).
  rewrite IH. unfold Qdiv. ring.
Qed.

Lemma sum_normalised (W : Q) (ws : list Q) :
  sum (map (fun w => w / W) ws) == sum ws / W.
Proof.
  induction ws as [|w ws IH]; simpl; [unfold Qdiv; ring|].
  rewrite IH. unfold Qdiv. ring.
Qed.

(** [np.average] with 1-D weights of the right length and a non-zero sum
    computes, on every lane, the weighted mean with the normalised
    weights, which sum to one. *)
Lemma average_weighted_mean (neighbors : matrix) (a : nat) (ws : list Q) :
  length ws = shape_along neighbors a ->
  ~ sum ws == 0 ->
  exists v,
    average neighbors a (W1 ws) = Ok v /\
    Forall2 Qeq v (map (NnFilter.weighted_mean ws) (lanes neighbors a)) /\
    sum (map (fun w => w / sum ws) ws) == 1.
Proof.
  intros Hlen Hsum. unfold average. rewrite Hlen, Nat.eqb_refl. simpl.
  destruct (Qeq_bool (sum ws) 0) eqn:E.
  { apply Qeq_bool_iff in E. contradiction. }
  eexists. split; [reflexivity|]. split.
  - induction (lanes neighbors a) as [|lane ls IH]; simpl; constructor; auto.
    unfold NnFilter.weighted_mean. now rewrite sum_scaled.
  - rewrite sum_normalised. now field.
Qed.

(** Lines 479-483.  With [np.average] and at least two neighbours whose
    weights do not sum to zero, the aggregate is, on every lane, the
    weighted mean of the neighbours under the entries of the row of [rec]
    at the gathered indices, in that order, normalised to sum to one;
    any other aggregation function sees the neighbours only. *)
Theorem aggregate_weighted_or_plain (rec_i : list Q) (targets : list nat)
    (neighbors : matrix) (a : nat) :
  (2 <= length targets)%nat ->
  length targets = shape_along neighbors a ->
  ~ sum (map (fun t => nth t rec_i 0) targets) == 0 ->
  (exists v,
     NnFilter.aggregate_neighbors NnFilter.np_average rec_i targets neighbors a = Ok v /\
     Forall2 Qeq v
       (map (NnFilter.weighted_mean (map (fun t => nth t rec_i 0) targets))
            (lanes neighbors a)) /\
     sum (map (fun w => w / sum (map (fun t => nth t rec_i 0) targets))
              (map (fun t => nth t rec_i 0) targets)) == 1) /\
  (forall f rec_i',
     NnFilter.aggregate_neighbors (NnFilter.reducer f) rec_i' targets neighbors a
     = Ok (map f (lanes neighbors a))).
Proof.
  intros Hlen Hshape Hsum. split; [|reflexivity].
  unfold NnFilter.aggregate_neighbors.
  assert (Hsq : squeeze (map (fun t => nth t rec_i 0) targets)
                = W1 (map (fun t => nth t rec_i 0) targets)).
  { destruct targets as [|t [|t' ts]]; simpl in *; auto; lia. }
  rewrite Hsq. apply average_weighted_mean; auto. now rewrite length_map.
Qed.

Lemma aggregate_weighted_or_plain_witness :
  ~ sum (map (fun t => nth t [0; 1; 3] 0) [1; 2]%nat) == 0 /\
  exists v,
    NnFilter.aggregate_neighbors NnFilter.np_average [0; 1; 3] [1; 2]%nat
      [[2; 6]; [4; 8]] 1 = Ok v /\
    Forall2 Qeq v (map (NnFilter.weighted_mean [1; 3]) [[2; 6]; [4; 8]]).
Proof.
  assert (Hsum : ~ sum (map (fun t => nth t [0; 1; 3] 0) [1; 2]%nat) == 0)
    by discriminate.
  split; [exact Hsum|].
  destruct (aggregate_weighted_or_plain [0; 1; 3] [1; 2]%nat [[2; 6]; [4; 8]] 1
              (le_n 2) eq_refl Hsum) as ((v & Hv & Hmean & _) & _).
  exists v. split; [exact Hv|exact Hmean].
Defined.

(** C4. The single-neighbour case of the weighted average: the weights
    of a row with exactly one non-zero entry are squeezed to a 0-d array,
    which [np.average] refuses, so the call raises [TypeError] instead of
    returning the weighted mean (which would be the neighbour's slice). *)
Theorem nn_filter_average_single_neighbor :
  (forall rec_i t neighbors a,
     NnFilter.aggregate_neighbors NnFilter.np_average rec_i [t] neighbors a
     = Raise TypeError) /\
  NnFilter.nn_filter NnFilter.self_graph float64 [[1; 2]; [3; 4]]
    (Some [[0; 1]; [1; 1]]) (Some NnFilter.np_average) (-1)
  = Raise TypeError /\
  NnFilter.nn_filter NnFilter.self_graph float64 [[1; 2]; [3; 4]]
    (Some [[0; 1]; [1; 1]]) (Some NnFilter.np_mean) (-1)
  = Ok [[2 / 1; (1 + 2) / 2]; [4 / 1; (3 + 4) / 2]] /\
  NnFilter.weighted_mean [1] [2] == 2.
Proof.
  repeat split.
Qed.

(** *** Instances *)

Lemma nn_filter_gather_in_bounds_witness :
  rect [[0; 1; 1]; [0; 0; 0]; [1; 0; 0]] /\
  norm_axis (-1) = Ok 1%nat /\
  NnFilter.nn_filter NnFilter.self_graph float64 [[1; 2; 3]; [4; 5; 6]]
    (Some [[0; 1; 1]; [0; 0; 0]; [1; 0; 0]]) (Some NnFilter.np_average) (-1)
  <> Raise IndexError.
Proof.
  assert (HR : rect [[0; 1; 1]; [0; 0; 0]; [1; 0; 0]]) by (apply rectb_rect; reflexivity).
  split; [exact HR|]. split; [reflexivity|].
  apply (nn_filter_gather_in_bounds NnFilter.self_graph float64 [[1; 2; 3]; [4; 5; 6]]
           [[0; 1; 1]; [0; 0; 0]; [1; 0; 0]] NnFilter.np_average (-1) 1
           HR eq_refl eq_refl eq_refl).
Defined.

(** A graph that passes the shape validation and stops the loop: the two
    weights of row 0 sum to zero, which [np.average] rejects. *)
Lemma nn_filter_zero_weight_sum_stops :
  nrows [[1; -1]; [0; 0]] = shape_along [[1; 2]; [3; 4]] 1 /\
  nrows [[1; -1]; [0; 0]] = ncols [[1; -1]; [0; 0]] /\
  NnFilter.nn_filter NnFilter.self_graph float64 [[1; 2]; [3; 4]]
    (Some [[1; -1]; [0; 0]]) (Some NnFilter.np_average) (-1)
  = Raise ZeroDivisionError.
Proof.
  repeat split.
Qed.

(** ** nn_filter, sample by sample *)

Section NnFilterSamples.

Import NnFilter.

Variable recurrence_matrix : matrix -> Z -> result matrix.
Variable dt : dtype.

Lemma nth_get_slice (M : matrix) (a n k : nat) :
  nth k (get_slice M n a) 0 = along M a n k.
Proof.
  destruct a as [|a]; simpl.
  - reflexivity.
  - apply nth_column.
Qed.

(** Lane [k] of the gathered neighbours holds the samples of [S] at the
    neighbours' indices, [k] across the axis. *)
Lemma nth_lanes_take (S : matrix) (d n : nat) (targets : list nat) (a k : nat)
    (neighbors : matrix) :
  has_shape S d n -> targets <> [] ->
  take S targets a = Ok neighbors ->
  (k < match a with O => n | _ => d end)%nat ->
  nth k (lanes neighbors a) [] = map (fun t => along S a t k) targets.
Proof.
  intros HS Hne Htake Hk.
  pose proof (take_in_bounds _ _ _ _ Htake) as Hb.
  unfold take in Htake. destruct (forallb _ targets); [|discriminate].
  injection Htake as <-. destruct a as [|a]; simpl in *.
  - unfold transpose.
    assert (Hc : ncols (map (fun t => row S t) targets) = n).
    { destruct targets as [|t ts]; [congruence|]. unfold ncols. simpl.
      apply (has_shape_row S d n t HS). destruct HS as [HS _].
      unfold nrows in Hb. rewrite <- HS. apply Hb. now left. }
    rewrite Hc.
    rewrite (nth_indep _ [] (column 0 (map (fun t => row S t) targets) 0))
      by now rewrite length_map, length_seq.
    rewrite map_nth, seq_nth by exact Hk. simpl.
    unfold column. rewrite map_map. reflexivity.
  - destruct HS as [HS _].
    rewrite (nth_indep _ [] (map (fun t => nth t [] 0) targets))
      by (rewrite length_map; lia).
    rewrite (map_nth (fun r => map (fun t => nth t r 0) targets) S [] k).
    reflexivity.
Qed.

Lemma nth_map_lanes (f : list Q -> Q) (ls : list (list Q)) (k : nat) :
  (k < length ls)%nat -> nth k (map f ls) 0 = f (nth k ls []).
Proof.
  intros Hk. rewrite (nth_indep _ 0 (f [])) by now rewrite length_map.
  apply map_nth.
Qed.

Lemma nth_map_astype (v : list Q) (k : nat) :
  (k < length v)%nat -> nth k (map (astype dt) v) 0 = astype dt (nth k v 0).
Proof.
  intros Hk. rewrite (nth_indep _ 0 (astype dt 0)) by now rewrite length_map.
  apply map_nth.
Qed.

(** A validated call that returns: the output has the shape of [S], and
    every slice is what its row of the graph asks for. *)
Lemma nn_filter_ok_slices (S rec : matrix) (aggregate : option aggregator) (axis : Z)
    (a : nat) (out : matrix) :
  rect S -> norm_axis axis = Ok a ->
  nrows rec = shape_along S a -> nrows rec = ncols rec ->
  nn_filter recurrence_matrix dt S (Some rec) aggregate axis = Ok out ->
  has_shape out (nrows S) (ncols S) /\
  forall i, (i < nrows rec)%nat ->
    row_filtered dt S rec (match aggregate with None => np_mean | Some f => f end)
                 a i (get_slice S i a) (get_slice out i a).
Proof.
  intros HS Ha H1 H2 Hrun.
  rewrite (nn_filter_validated recurrence_matrix dt S rec aggregate axis a Ha H1 H2) in Hrun.
  assert (Hshape : has_shape S (nrows S) (ncols S)) by now apply rect_has_shape.
  destruct (filter_rows_spec dt S rec
              (match aggregate with None => np_mean | Some f => f end)
              a (nrows S) (ncols S) Hshape
              (seq 0 (nrows rec)) S out Hshape (seq_NoDup _ _)) as (Ho & _ & Hdone);
    auto.
  { intros j Hj. apply in_seq in Hj. rewrite H1 in Hj. destruct a; simpl in *; lia. }
  split; [exact Ho|]. intros i Hi. apply Hdone. apply in_seq. lia.
Qed.

(** A validated call returns when every row can be aggregated. *)
Lemma nn_filter_returns (S rec : matrix) (aggregate : option aggregator) (axis : Z)
    (a : nat) :
  rect rec ->
  norm_axis axis = Ok a ->
  nrows rec = shape_along S a -> nrows rec = ncols rec ->
  (forall i, (i < nrows rec)%nat ->
     row_aggregates (match aggregate with None => np_mean | Some f => f end)
                    (row rec i)) ->
  exists out, nn_filter recurrence_matrix dt S (Some rec) aggregate axis = Ok out.
Proof.
  intros Hrec Ha H1 H2 Hrows.
  rewrite (nn_filter_validated recurrence_matrix dt S rec aggregate axis a Ha H1 H2).
  apply filter_rows_total.
  - intros i t Hi Ht. apply in_seq in Hi.
    apply (targets_in_bounds S rec a i t); auto. lia.
  - intros i Hi. apply Hrows. apply in_seq in Hi. lia.
Qed.

(** The samples of the output under a plain reducer. *)
Lemma nn_filter_reducer_at (S rec : matrix) (f : list Q -> Q) (axis : Z)
    (a : nat) (out : matrix) :
  rect S ->
  norm_axis axis = Ok a ->
  nrows rec = shape_along S a -> nrows rec = ncols rec ->
  nn_filter recurrence_matrix dt S (Some rec) (Some (reducer f)) axis = Ok out ->
  forall n k, (n < shape_along S a)%nat -> (k < shape_across S a)%nat ->
    along out a n k = reduced_sample dt f S rec a n k.
Proof.
  intros HS Ha H1 H2 Hout.
  assert (Hshape : has_shape S (nrows S) (ncols S)) by now apply rect_has_shape.
  destruct (nn_filter_ok_slices S rec (Some (reducer f)) axis a out HS Ha H1 H2 Hout)
    as [Ho Hslices].
  intros n k Hn Hk. rewrite <- nth_get_slice.
  specialize (Hslices n). unfold row_filtered in Hslices. unfold reduced_sample.
  destruct (nonzero (row rec n)) as [|t ts] eqn:Et.
  - rewrite Hslices by lia. apply nth_get_slice.
  - destruct Hslices as (nb & agg & Htake & Hagg & Hv); [lia|].
    simpl in Hagg. injection Hagg as Hagg. rewrite Hv, <- Hagg.
    assert (Hk' : (k < match a with O => ncols S | _ => nrows S end)%nat)
      by (destruct a; exact Hk).
    assert (Hlen : length (lanes nb a) = match a with O => ncols S | _ => nrows S end).
    { apply (length_lanes_take S (nrows S) (ncols S) (t :: ts) a nb Hshape);
        [discriminate|exact Htake]. }
    rewrite nth_map_astype by (rewrite length_map, Hlen; exact Hk').
    rewrite nth_map_lanes by (rewrite Hlen; exact Hk').
    now rewrite (nth_lanes_take S (nrows S) (ncols S) (t :: ts) a k nb Hshape).
Qed.

(** Lines 465-485.  With an aggregation function other than
    [np.average], [nn_filter] returns for every validated graph; the
    output has the shape of [S]; and its sample at index [n] along the
    axis and [k] across it is the sample of [S] when row [n] of [rec] has
    no non-zero entry, and otherwise the aggregate of the samples of [S]
    at [(t, k)] for the non-zero columns [t] of row [n], in ascending
    order, cast to the dtype of [S] (kept for a float [S], truncated
    toward zero for an integer [S]). *)
Theorem nn_filter_reduces_samples (S rec : matrix) (f : list Q -> Q) (axis : Z)
    (a : nat) :
  rect S -> rect rec ->
  norm_axis axis = Ok a ->
  nrows rec = shape_along S a -> nrows rec = ncols rec ->
  exists out,
    nn_filter recurrence_matrix dt S (Some rec) (Some (reducer f)) axis = Ok out /\
    has_shape out (nrows S) (ncols S) /\
    forall n k, (n < shape_along S a)%nat -> (k < shape_across S a)%nat ->
      along out a n k = reduced_sample dt f S rec a n k.
Proof.
  intros HS Hrec Ha H1 H2.
  destruct (nn_filter_returns S rec (Some (reducer f)) axis a Hrec Ha H1 H2)
    as [out Hout]; [intros; exact I|].
  exists out. split; [exact Hout|]. split.
  - now destruct (nn_filter_ok_slices S rec (Some (reducer f)) axis a out
                    HS Ha H1 H2 Hout).
  - now apply (nn_filter_reducer_at S rec f axis a out).
Qed.

(** The samples of the output under [np.average]. *)
Lemma nn_filter_average_at (S rec : matrix) (axis : Z) (a : nat) (out : matrix) :
  rect S ->
  norm_axis axis = Ok a ->
  nrows rec = shape_along S a -> nrows rec = ncols rec ->
  nn_filter recurrence_matrix dt S (Some rec) (Some np_average) axis = Ok out ->
  forall n k, (n < shape_along S a)%nat -> (k < shape_across S a)%nat ->
    along out a n k = averaged_sample dt S rec a n k.
Proof.
  intros HS Ha H1 H2 Hout.
  assert (Hshape : has_shape S (nrows S) (ncols S)) by now apply rect_has_shape.
  destruct (nn_filter_ok_slices S rec (Some np_average) axis a out HS Ha H1 H2 Hout)
    as [Ho Hslices].
  intros n k Hn Hk. rewrite <- nth_get_slice.
  specialize (Hslices n). unfold row_filtered in Hslices. unfold averaged_sample.
  destruct (nonzero (row rec n)) as [|t ts] eqn:Et.
  - rewrite Hslices by lia. apply nth_get_slice.
  - destruct Hslices as (nb & agg & Htake & Hagg & Hv); [lia|].
    assert (Hk' : (k < match a with O => ncols S | _ => nrows S end)%nat)
      by (destruct a; exact Hk).
    pose proof (length_lanes_take S (nrows S) (ncols S) (t :: ts) a nb Hshape
                  ltac:(discriminate) Htake) as Hlen.
    pose proof (nth_lanes_take S (nrows S) (ncols S) (t :: ts) a k nb Hshape
                  ltac:(discriminate) Htake Hk') as Hlane.
    unfold aggregate_neighbors, average in Hagg.
    destruct (squeeze _) as [w|ws] eqn:Esq; [discriminate|].
    assert (Ews : ws = map (fun t0 => nth t0 (row rec n) 0) (t :: ts)).
    { unfold squeeze in Esq.
      destruct (map _ (t :: ts)) as [|w [|w' ws']]; congruence. }
    destruct (negb _); [discriminate|].
    destruct (Qeq_bool (sum ws) 0) eqn:Esum; [discriminate|].
    injection Hagg as Hagg. rewrite Hv, <- Hagg.
    rewrite nth_map_astype by (rewrite length_map, Hlen; exact Hk').
    rewrite (nth_map_lanes (fun lane => sum (map2 Qmult lane ws) / sum ws))
      by (rewrite Hlen; exact Hk').
    rewrite Hlane, Ews. now rewrite map2_map_l.
Qed.



(** Signs.  A cast keeps a non-negative value non-negative, and so do
    the mean and a weighted average with non-negative weights. *)
Lemma astype_nonneg (x : Q) : 0 <= x -> 0 <= astype dt x.
Proof.
  intros Hx. destruct dt; simpl; [exact Hx|].
  change 0 with (inject_Z 0). rewrite <- Zle_Qle.
  apply Z.quot_pos; [|lia].
  unfold Qle in Hx. simpl in Hx. lia.
Qed.

Lemma sum_list_nonneg (l : list Q) :
  (forall x, In x l -> 0 <= x) -> 0 <= sum l.
Proof.
  induction l as [|x l IH]; intros H; simpl; [lra|].
  pose proof (H x (or_introl eq_refl)) as Hx.
  assert (Hl : 0 <= sum l) by (apply IH; intros y Hy; apply H; now right).
  unfold sum in *. simpl. lra.
Qed.

Lemma mean_nonneg (l : list Q) :
  l <> [] -> (forall x, In x l -> 0 <= x) -> 0 <= mean l.
Proof.
  intros Hne H. pose proof (sum_list_nonneg l H) as Hs.
  assert (Hpos : 0 < inject_Z (Z.of_nat (length l))).
  { destruct l as [|x l]; [congruence|].
    change 0 with (inject_Z 0). rewrite <- Zlt_Qlt. simpl length. lia. }
  unfold mean. apply Qle_shift_div_l; [exact Hpos|]. lra.
Qed.

(** Non-negative samples of [S], read along an axis. *)
Lemma along_nonneg (S : matrix) (a : nat) :
  rect S ->
  (forall i j, in_shape S i j -> 0 <= at_ 0 S i j) ->
  forall n k, (n < shape_along S a)%nat -> (k < shape_across S a)%nat ->
    0 <= along S a n k.
Proof.
  intros HS Hb n k Hn Hk.
  assert (Hshape : has_shape S (nrows S) (ncols S)) by now apply rect_has_shape.
  destruct a as [|a]; simpl in *; apply Hb; split; auto; unfold nrows in *;
    [rewrite (has_shape_row S _ _ n Hshape Hn)|rewrite (has_shape_row S _ _ k Hshape Hk)];
    auto.
Qed.

(** From the samples read along the axis back to positions. *)
Lemma at_nonneg_of_along (S out : matrix) (a : nat) :
  rect S ->
  (forall n k, (n < shape_along S a)%nat -> (k < shape_across S a)%nat ->
     0 <= along out a n k) ->
  forall i j, in_shape S i j -> 0 <= at_ 0 out i j.
Proof.
  intros HS Hal i j [Hi Hj].
  assert (Hshape : has_shape S (nrows S) (ncols S)) by now apply rect_has_shape.
  assert (Hj' : (j < ncols S)%nat)
    by (rewrite <- (has_shape_row S _ _ i Hshape Hi); exact Hj).
  destruct a as [|a]; simpl in Hal.
  - apply (Hal i j); auto.
  - apply (Hal j i); auto.
Qed.

(** Lines 450-451 and 465-485.  With the default aggregation (the
    mean), a non-negative [S] gives a non-negative output, for a float
    and for an integer [S]: every sample of the output is a sample of
    [S], or the mean of samples of [S] cast to the dtype of [S]. *)
Theorem nn_filter_mean_keeps_nonnegative (S rec : matrix) (axis : Z) (a : nat) :
  rect S -> rect rec ->
  norm_axis axis = Ok a ->
  nrows rec = shape_along S a -> nrows rec = ncols rec ->
  (forall i j, in_shape S i j -> 0 <= at_ 0 S i j) ->
  exists out,
    nn_filter recurrence_matrix dt S (Some rec) None axis = Ok out /\
    forall i j, in_shape S i j -> 0 <= at_ 0 out i j.
Proof.
  intros HS Hrec Ha H1 H2 Hb.
  destruct (nn_filter_returns S rec None axis a Hrec Ha H1 H2) as [out Hout];
    [intros; exact I|].
  exists out. split; [exact Hout|].
  pose proof (nn_filter_reducer_at S rec mean axis a out HS Ha H1 H2 Hout) as Hat.
  pose proof (along_nonneg S a HS Hb) as Hal.
  apply (at_nonneg_of_along S out a HS).
  intros n k Hn Hk. rewrite (Hat n k Hn Hk). unfold reduced_sample.
  destruct (nonzero (row rec n)) as [|t ts] eqn:Et; [now apply Hal|].
  apply astype_nonneg. apply mean_nonneg; [discriminate|].
  intros x Hx. apply in_map_iff in Hx. destruct Hx as (u & <- & Hu).
  apply Hal; [|exact Hk].
  apply (targets_in_bounds S rec a n u); auto; [lia|now rewrite Et].
Qed.

(** A weighted sum of non-negative values with non-negative weights. *)
Lemma weighted_sum_nonneg (g w : nat -> Q) (l : list nat) :
  (forall t, In t l -> 0 <= w t) ->
  (forall t, In t l -> 0 <= g t) ->
  0 <= sum (map (fun t => g t * w t) l).
Proof.
  intros Hw Hg. apply sum_list_nonneg. intros x Hx.
  apply in_map_iff in Hx. destruct Hx as (t & <- & Ht).
  apply Qmult_le_0_compat; auto.
Qed.

(** Lines 479-481.  With [np.average] and weights that are nowhere
    negative, a non-negative [S] gives a non-negative output, for a
    float and for an integer [S]. *)
Theorem nn_filter_average_keeps_nonnegative (S rec : matrix) (axis : Z) (a : nat) :
  rect S -> rect rec ->
  norm_axis axis = Ok a ->
  nrows rec = shape_along S a -> nrows rec = ncols rec ->
  (forall i, (i < nrows rec)%nat -> row_aggregates np_average (row rec i)) ->
  (forall i j, 0 <= at_ 0 rec i j) ->
  (forall i j, in_shape S i j -> 0 <= at_ 0 S i j) ->
  exists out,
    nn_filter recurrence_matrix dt S (Some rec) (Some np_average) axis = Ok out /\
    forall i j, in_shape S i j -> 0 <= at_ 0 out i j.
Proof.
  intros HS Hrec Ha H1 H2 Hrows Hw Hb.
  destruct (nn_filter_returns S rec (Some np_average) axis a Hrec Ha H1 H2 Hrows)
    as [out Hout].
  exists out. split; [exact Hout|].
  pose proof (nn_filter_average_at S rec axis a out HS Ha H1 H2 Hout) as Hat.
  pose proof (along_nonneg S a HS Hb) as Hal.
  apply (at_nonneg_of_along S out a HS).
  intros n k Hn Hk. rewrite (Hat n k Hn Hk). unfold averaged_sample.
  destruct (nonzero (row rec n)) as [|t ts] eqn:Et; [now apply Hal|].
  assert (Hin : forall u, In u (t :: ts) -> (u < shape_along S a)%nat).
  { intros u Hu. apply (targets_in_bounds S rec a n u); auto; [lia|now rewrite Et]. }
  assert (Hwn : forall u, In u (t :: ts) -> 0 <= nth u (row rec n) 0)
    by (intros u _; apply (Hw n u)).
  pose proof (weighted_sum_nonneg (fun u => along S a u k)
                (fun u => nth u (row rec n) 0) (t :: ts) Hwn
                (fun u Hu => Hal u k (Hin u Hu) Hk)) as Hnum.
  assert (Hs : 0 <= sum (map (fun u => nth u (row rec n) 0) (t :: ts))).
  { apply sum_list_nonneg. intros x Hx. apply in_map_iff in Hx.
    destruct Hx as (u & <- & Hu). now apply Hwn. }
  assert (Hnz : ~ sum (map (fun u => nth u (row rec n) 0) (t :: ts)) == 0).
  { specialize (Hrows n ltac:(lia)). simpl in Hrows. rewrite Et in Hrows.
    destruct Hrows as [E|[_ E]]; [discriminate|exact E]. }
  assert (Hpos : 0 < sum (map (fun u => nth u (row rec n) 0) (t :: ts))).
  { apply Qle_lteq in Hs. destruct Hs as [Hs|Hs]; [exact Hs|].
    elim Hnz. now symmetry. }
  apply astype_nonneg. apply Qle_shift_div_l; [exact Hpos|].
  rewrite Qmult_0_l. exact Hnum.
Qed.

(** Two graphs with the same non-zero positions. *)
Lemma filter_rows_pattern (S rec rec' : matrix) (f : list Q -> Q) (a : nat)
    (rows : list nat) (s_out : matrix) :
  (forall i, In i rows -> nonzero (row rec i) = nonzero (row rec' i)) ->
  filter_rows dt S rec (reducer f) a rows s_out
  = filter_rows dt S rec' (reducer f) a rows s_out.
Proof.
  revert s_out. induction rows as [|i rest IH]; intros s_out H; simpl; [reflexivity|].
  rewrite <- (H i) by now left.
  assert (H' : forall j, In j rest -> nonzero (row rec j) = nonzero (row rec' j))
    by (intros j Hj; apply H; now right).
  destruct (nonzero (row rec i)) as [|t ts]; [now apply IH|].
  destruct (take S (t :: ts) a) as [nb|e]; simpl; [now apply IH|reflexivity].
Qed.

Lemma same_shapeb_lengths {A B} (M : mat A) (N : mat B) :
  same_shapeb M N = true ->
  length M = length N /\ forall i, length (row M i) = length (row N i).
Proof.
  revert N. induction M as [|r M IH]; intros [|s N] H; simpl in H; try discriminate.
  - split; [reflexivity|]. intros i. unfold row. now destruct i.
  - apply andb_true_iff in H. destruct H as [Hr H]. apply Nat.eqb_eq in Hr.
    destruct (IH N H) as [Hl Hrows]. split; [simpl; lia|].
    intros [|i]; [exact Hr|apply Hrows].
Qed.

Lemma nonzero_pattern (r r' : list Q) :
  length r = length r' ->
  (forall j, nth j r 0 == 0 <-> nth j r' 0 == 0) ->
  nonzero r = nonzero r'.
Proof.
  intros Hl H. unfold nonzero. rewrite <- Hl. apply filter_ext. intros j.
  f_equal. specialize (H j). rewrite <- !Qeq_bool_iff in H.
  destruct (Qeq_bool (nth j r 0) 0), (Qeq_bool (nth j r' 0) 0); auto.
  - symmetry. now apply H.
  - now apply H.
Qed.

(** Lines 473-483.  For every aggregation function other than
    [np.average] (the default mean among them), the outcome depends on
    [rec] only through the positions of its non-zero entries: two graphs
    of the same shape that are zero at the same positions give the same
    result, or the same exception. *)
Theorem nn_filter_unweighted_pattern (S rec rec' : matrix)
    (aggregate : option aggregator) (axis : Z) :
  aggregate <> Some np_average ->
  same_shapeb rec rec' = true ->
  (forall i j, at_ 0 rec i j == 0 <-> at_ 0 rec' i j == 0) ->
  nn_filter recurrence_matrix dt S (Some rec) aggregate axis
  = nn_filter recurrence_matrix dt S (Some rec') aggregate axis.
Proof.
  intros Hagg Hshape Hzero.
  destruct (same_shapeb_lengths rec rec' Hshape) as [Hl Hrows].
  assert (Hn : nrows rec = nrows rec') by exact Hl.
  assert (Hc : ncols rec = ncols rec').
  { unfold ncols. destruct rec as [|r rec0], rec' as [|r' rec0']; try discriminate; auto.
    apply (Hrows 0%nat). }
  assert (Hf : exists f, match aggregate with None => np_mean | Some g => g end
                         = reducer f).
  { destruct aggregate as [[|f]|]; [congruence|eauto|unfold np_mean; eauto]. }
  destruct Hf as [f Hf].
  unfold nn_filter, graph, filter_validated. rewrite Hf. simpl.
  destruct (norm_axis axis) as [a|e]; simpl; [|reflexivity].
  rewrite <- Hn, <- Hc.
  destruct (_ || _); [reflexivity|].
  apply filter_rows_pattern. intros i _.
  apply nonzero_pattern; [apply Hrows|]. intros j. apply (Hzero i j).
Qed.

(** Transposition. *)
Lemma row_transpose (M : matrix) (j : nat) :
  (j < ncols M)%nat -> row (transpose 0 M) j = column 0 M j.
Proof.
  intros Hj. unfold row, transpose.
  rewrite (nth_indep _ [] (column 0 M 0)) by now rewrite length_map, length_seq.
  now rewrite map_nth, seq_nth.
Qed.

Lemma at_transpose (M : matrix) (i j : nat) :
  (j < ncols M)%nat -> at_ 0 (transpose 0 M) j i = at_ 0 M i j.
Proof.
  intros Hj. unfold at_. rewrite row_transpose by exact Hj. apply nth_column.
Qed.

Lemma nrows_transpose (M : matrix) : nrows (transpose 0 M) = ncols M.
Proof. unfold nrows, transpose. now rewrite length_map, length_seq. Qed.

Lemma ncols_transpose (M : matrix) :
  (0 < ncols M)%nat -> ncols (transpose 0 M) = nrows M.
Proof.
  intros H. unfold ncols at 1.
  replace (hd [] (transpose 0 M)) with (row (transpose 0 M) 0)
    by (unfold row; now destruct (transpose 0 M)).
  rewrite row_transpose by exact H. unfold column. now rewrite length_map.
Qed.

Lemma mat_ext (M N : matrix) :
  length M = length N ->
  (forall i, (i < length M)%nat -> length (row M i) = length (row N i)) ->
  (forall i j, in_shape M i j -> at_ 0 M i j = at_ 0 N i j) ->
  M = N.
Proof.
  intros Hl Hr Hat. apply (nth_ext M N [] []); [exact Hl|].
  intros i Hi. apply (nth_ext _ _ 0 0); [now apply Hr|].
  intros j Hj. apply (Hat i j). split; assumption.
Qed.

(** Lines 465-485.  The two axes agree: filtering the transpose of [S]
    along axis 0 gives the transpose of filtering [S] along axis 1, for
    every aggregation function other than [np.average]. *)
Theorem nn_filter_axis_transpose (S rec : matrix) (f : list Q -> Q) :
  rect S -> rect rec ->
  nrows rec = ncols S -> nrows rec = ncols rec ->
  exists out0 out1,
    nn_filter recurrence_matrix dt (transpose 0 S) (Some rec) (Some (reducer f)) 0 = Ok out0 /\
    nn_filter recurrence_matrix dt S (Some rec) (Some (reducer f)) 1 = Ok out1 /\
    out0 = transpose 0 out1.
Proof.
  intros HS Hrec H1 H2.
  assert (HT : rect (transpose 0 S)) by apply rect_transpose.
  assert (H1T : nrows rec = shape_along (transpose 0 S) 0)
    by (simpl; now rewrite nrows_transpose).
  destruct (nn_filter_returns (transpose 0 S) rec (Some (reducer f)) 0 0
              Hrec eq_refl H1T H2) as [out0 E0]; [intros; exact I|].
  destruct (nn_filter_returns S rec (Some (reducer f)) 1 1 Hrec eq_refl H1 H2)
    as [out1 E1]; [intros; exact I|].
  exists out0, out1. split; [exact E0|]. split; [exact E1|].
  destruct (nn_filter_ok_slices (transpose 0 S) rec (Some (reducer f)) 0 0 out0
              HT eq_refl H1T H2 E0) as [Ho0 _].
  destruct (nn_filter_ok_slices S rec (Some (reducer f)) 1 1 out1 HS eq_refl H1 H2 E1)
    as [Ho1 _].
  pose proof (nn_filter_reducer_at (transpose 0 S) rec f 0 0 out0 HT eq_refl H1T H2 E0)
    as Hat0.
  pose proof (nn_filter_reducer_at S rec f 1 1 out1 HS eq_refl H1 H2 E1) as Hat1.
  rewrite nrows_transpose in Ho0. simpl in Hat0, Hat1.
  rewrite nrows_transpose in Hat0.
  assert (Hc1 : ncols out1 = ncols S).
  { destruct Ho1 as [Hl Hall]. unfold ncols.
    destruct out1 as [|r o], S as [|s S']; simpl in *; try discriminate; auto.
    now inversion Hall. }
  assert (Hr1 : nrows out1 = nrows S) by apply Ho1.
  apply mat_ext.
  - destruct Ho0 as [Hl _]. rewrite Hl.
    change (length (transpose 0 out1)) with (nrows (transpose 0 out1)).
    now rewrite nrows_transpose.
  - intros j Hj. destruct Ho0 as [Hl Hall]. rewrite Hl in Hj.
    rewrite (has_shape_row out0 _ _ j (conj Hl Hall)) by lia.
    rewrite ncols_transpose by lia.
    rewrite row_transpose by lia. unfold column. now rewrite length_map.
  - intros j i [Hj Hi].
    assert (Hj' : (j < ncols S)%nat) by (destruct Ho0 as [Hl _]; lia).
    assert (Hi' : (i < nrows S)%nat).
    { rewrite (has_shape_row out0 _ _ j Ho0) in Hi by lia.
      rewrite ncols_transpose in Hi by lia. exact Hi. }
    rewrite at_transpose by lia.
    specialize (Hat0 j i Hj'). rewrite ncols_transpose in Hat0 by lia.
    rewrite (Hat0 Hi'), (Hat1 j i Hj' Hi').
    unfold reduced_sample.
    destruct (nonzero (row rec j)) as [|t ts] eqn:Et; unfold along.
    + now apply at_transpose.
    + assert (Hb : forall u, In u (t :: ts) -> (u < ncols S)%nat).
      { intros u Hu. rewrite <- Et in Hu.
        apply (targets_in_bounds S rec 1 j u); auto. lia. }
      do 2 f_equal.
      apply map_ext_in. intros u Hu. apply at_transpose. now apply Hb.
Qed.

End NnFilterSamples.

(** Lines 465-485.  With the mean and a graph in which every point has
    itself as its only neighbour, [nn_filter] returns an array of the
    shape of [S] with the samples of [S]. *)
Theorem nn_filter_self_loops (recurrence_matrix : matrix -> Z -> result matrix)
    (S rec : matrix) (axis : Z) (a : nat) :
  rect S ->
  norm_axis axis = Ok a ->
  nrows rec = shape_along S a -> nrows rec = ncols rec ->
  (forall i, (i < nrows rec)%nat -> nonzero (row rec i) = [i]) ->
  exists out,
    NnFilter.nn_filter recurrence_matrix float64 S (Some rec) None axis = Ok out /\
    has_shape out (nrows S) (ncols S) /\
    forall i j, in_shape S i j -> at_ 0 out i j == at_ 0 S i j.
Proof.
  intros HS Ha H1 H2 Hself.
  assert (Hshape : has_shape S (nrows S) (ncols S)) by now apply rect_has_shape.
  destruct (filter_rows_total float64 S rec NnFilter.np_mean a (seq 0 (nrows rec)) S)
    as [out Hout].
  { intros i t Hi Ht. apply in_seq in Hi. rewrite Hself in Ht by lia.
    destruct Ht as [<-|[]]. lia. }
  { intros; exact I. }
  rewrite <- (nn_filter_validated recurrence_matrix float64 S rec None axis a Ha H1 H2)
    in Hout.
  exists out. split; [exact Hout|].
  destruct (nn_filter_ok_slices recurrence_matrix float64 S rec None axis a out
              HS Ha H1 H2 Hout) as [Ho _].
  split; [exact Ho|].
  pose proof (nn_filter_reducer_at recurrence_matrix float64 S rec mean axis a out
                HS Ha H1 H2 Hout) as Hat.
  intros i j [Hi Hj].
  assert (Hjn : (j < ncols S)%nat)
    by (rewrite <- (has_shape_row S _ _ i Hshape Hi); exact Hj).
  destruct a as [|a]; simpl in H1, Hat.
  - rewrite (Hat i j Hi Hjn). unfold NnFilter.reduced_sample.
    rewrite Hself by (unfold nrows in *; lia). simpl. apply mean_single.
  - rewrite (Hat j i Hjn Hi). unfold NnFilter.reduced_sample.
    rewrite Hself by lia. simpl. apply mean_single.
Qed.

(** *** Instances *)



Lemma nn_filter_self_loops_witness :
  rect [[1; 2; 3]; [4; 5; 6]] /\
  exists out,
    NnFilter.nn_filter NnFilter.self_graph float64 [[1; 2; 3]; [4; 5; 6]]
      (Some [[1; 0; 0]; [0; 1; 0]; [0; 0; 1]]) None (-1) = Ok out /\
    at_ 0 out 1 2 == 6.
Proof.
  assert (HS : rect [[1; 2; 3]; [4; 5; 6]]) by (apply rectb_rect; reflexivity).
  split; [exact HS|].
  assert (Hself : forall i, (i < nrows [[1; 0; 0]; [0; 1; 0]; [0; 0; 1]])%nat ->
            nonzero (row [[1; 0; 0]; [0; 1; 0]; [0; 0; 1]] i) = [i]).
  { intros i Hi. destruct i as [|[|[|i]]]; try reflexivity. simpl in Hi. lia. }
  destruct (nn_filter_self_loops NnFilter.self_graph [[1; 2; 3]; [4; 5; 6]]
              [[1; 0; 0]; [0; 1; 0]; [0; 0; 1]] (-1) 1 HS eq_refl eq_refl eq_refl Hself)
    as (out & Hrun & _ & Hat).
  exists out. split; [exact Hrun|].
  apply (Hat 1%nat 2%nat). unfold in_shape. simpl. lia.
Defined.

Lemma nn_filter_reduces_samples_witness :
  rect [[1; 2; 3]; [4; 5; 6]] /\
  rect [[0; 1; 1]; [0; 0; 0]; [1; 0; 0]] /\
  exists out,
    NnFilter.nn_filter NnFilter.self_graph float64 [[1; 2; 3]; [4; 5; 6]]
      (Some [[0; 1; 1]; [0; 0; 0]; [1; 0; 0]]) (Some NnFilter.np_mean) (-1) = Ok out /\
    at_ 0 out 1 0 = mean [5; 6] /\ at_ 0 out 1 1 = 5 /\ at_ 0 out 0 2 = mean [1].
Proof.
  assert (HS : rect [[1; 2; 3]; [4; 5; 6]]) by (apply rectb_rect; reflexivity).
  assert (HR : rect [[0; 1; 1]; [0; 0; 0]; [1; 0; 0]]) by (apply rectb_rect; reflexivity).
  split; [exact HS|]. split; [exact HR|].
  destruct (nn_filter_reduces_samples NnFilter.self_graph float64 [[1; 2; 3]; [4; 5; 6]]
              [[0; 1; 1]; [0; 0; 0]; [1; 0; 0]] mean (-1) 1
              HS HR eq_refl eq_refl eq_refl) as (out & Hrun & _ & Hat).
  exists out. split; [exact Hrun|]. split; [|split].
  - apply (Hat 0%nat 1%nat); unfold shape_along, NnFilter.shape_across, nrows, ncols; simpl; lia.
  - apply (Hat 1%nat 1%nat); unfold shape_along, NnFilter.shape_across, nrows, ncols; simpl; lia.
  - apply (Hat 2%nat 0%nat); unfold shape_along, NnFilter.shape_across, nrows, ncols; simpl; lia.
Defined.


Lemma nn_filter_mean_keeps_nonnegative_witness :
  (forall i j, in_shape [[1; 2; 3]; [4; 5; 6]] i j ->
     0 <= at_ 0 [[1; 2; 3]; [4; 5; 6]] i j) /\
  exists out,
    NnFilter.nn_filter NnFilter.self_graph int64 [[1; 2; 3]; [4; 5; 6]]
      (Some [[0; 1; 1]; [0; 0; 0]; [1; 0; 0]]) None (-1) = Ok out /\
    0 <= at_ 0 out 1 0.
Proof.
  assert (HS : rect [[1; 2; 3]; [4; 5; 6]]) by (apply rectb_rect; reflexivity).
  assert (HR : rect [[0; 1; 1]; [0; 0; 0]; [1; 0; 0]]) by (apply rectb_rect; reflexivity).
  assert (Hb : forall i j, in_shape [[1; 2; 3]; [4; 5; 6]] i j ->
            0 <= at_ 0 [[1; 2; 3]; [4; 5; 6]] i j).
  { intros i j [Hi Hj].
    destruct i as [|[|i]]; simpl in Hi; try lia;
      destruct j as [|[|[|j]]]; simpl in Hj; try lia; discriminate. }
  split; [exact Hb|].
  destruct (nn_filter_mean_keeps_nonnegative NnFilter.self_graph int64
              [[1; 2; 3]; [4; 5; 6]] [[0; 1; 1]; [0; 0; 0]; [1; 0; 0]] (-1) 1
              HS HR eq_refl eq_refl eq_refl Hb) as (out & Hrun & Hat).
  exists out. split; [exact Hrun|].
  apply (Hat 1%nat 0%nat). unfold in_shape. simpl. lia.
Defined.

Lemma nn_filter_average_keeps_nonnegative_witness :
  (forall i j, 0 <= at_ 0 [[0; 1; 3]; [0; 0; 0]; [2; 2; 0]] i j) /\
  (forall i j, in_shape [[1; 2; 3]; [4; 5; 6]] i j ->
     0 <= at_ 0 [[1; 2; 3]; [4; 5; 6]] i j) /\
  exists out,
    NnFilter.nn_filter NnFilter.self_graph float64 [[1; 2; 3]; [4; 5; 6]]
      (Some [[0; 1; 3]; [0; 0; 0]; [2; 2; 0]]) (Some NnFilter.np_average) (-1) = Ok out /\
    0 <= at_ 0 out 1 0.
Proof.
  assert (HS : rect [[1; 2; 3]; [4; 5; 6]]) by (apply rectb_rect; reflexivity).
  assert (HR : rect [[0; 1; 3]; [0; 0; 0]; [2; 2; 0]]) by (apply rectb_rect; reflexivity).
  assert (Hrows : forall i, (i < nrows [[0; 1; 3]; [0; 0; 0]; [2; 2; 0]])%nat ->
            NnFilter.row_aggregates NnFilter.np_average
              (row [[0; 1; 3]; [0; 0; 0]; [2; 2; 0]] i)).
  { intros i Hi. destruct i as [|[|[|i]]]; simpl in Hi; try lia.
    - right. split; [simpl; lia|discriminate].
    - left. reflexivity.
    - right. split; [simpl; lia|discriminate]. }
  assert (Hw : forall i j, 0 <= at_ 0 [[0; 1; 3]; [0; 0; 0]; [2; 2; 0]] i j).
  { intros i j. unfold at_, row.
    destruct i as [|[|[|[|i]]]]; destruct j as [|[|[|[|j]]]]; simpl; discriminate. }
  assert (Hb : forall i j, in_shape [[1; 2; 3]; [4; 5; 6]] i j ->
            0 <= at_ 0 [[1; 2; 3]; [4; 5; 6]] i j).
  { intros i j [Hi Hj].
    destruct i as [|[|i]]; simpl in Hi; try lia;
      destruct j as [|[|[|j]]]; simpl in Hj; try lia; discriminate. }
  split; [exact Hw|]. split; [exact Hb|].
  destruct (nn_filter_average_keeps_nonnegative NnFilter.self_graph float64
              [[1; 2; 3]; [4; 5; 6]] [[0; 1; 3]; [0; 0; 0]; [2; 2; 0]] (-1) 1
              HS HR eq_refl eq_refl eq_refl Hrows Hw Hb) as (out & Hrun & Hat).
  exists out. split; [exact Hrun|].
  apply (Hat 1%nat 0%nat). unfold in_shape. simpl. lia.
Defined.

Lemma nn_filter_unweighted_pattern_witness :
  (forall i j, at_ 0 [[0; 1]; [2; 0]] i j == 0 <-> at_ 0 [[0; 5]; [7; 0]] i j == 0) /\
  NnFilter.nn_filter NnFilter.self_graph float64 [[1; 2]; [3; 4]] (Some [[0; 1]; [2; 0]]) None (-1)
  = NnFilter.nn_filter NnFilter.self_graph float64 [[1; 2]; [3; 4]] (Some [[0; 5]; [7; 0]]) None (-1).
Proof.
  assert (Hz : forall i j,
            at_ 0 [[0; 1]; [2; 0]] i j == 0 <-> at_ 0 [[0; 5]; [7; 0]] i j == 0).
  { intros i j. unfold at_, row.
    destruct i as [|[|[|i]]]; destruct j as [|[|[|j]]]; simpl;
      split; intros H; first [reflexivity | discriminate H]. }
  split; [exact Hz|].
  apply (nn_filter_unweighted_pattern NnFilter.self_graph float64 [[1; 2]; [3; 4]]
           [[0; 1]; [2; 0]] [[0; 5]; [7; 0]] None (-1));
    [discriminate|reflexivity|exact Hz].
Defined.

Lemma nn_filter_axis_transpose_witness :
  rect [[1; 2; 3]; [4; 5; 6]] /\
  rect [[0; 1; 1]; [0; 0; 0]; [1; 0; 0]] /\
  exists out0 out1,
    NnFilter.nn_filter NnFilter.self_graph float64 [[1; 4]; [2; 5]; [3; 6]]
      (Some [[0; 1; 1]; [0; 0; 0]; [1; 0; 0]]) (Some NnFilter.np_mean) 0 = Ok out0 /\
    NnFilter.nn_filter NnFilter.self_graph float64 [[1; 2; 3]; [4; 5; 6]]
      (Some [[0; 1; 1]; [0; 0; 0]; [1; 0; 0]]) (Some NnFilter.np_mean) 1 = Ok out1 /\
    out0 = transpose 0 out1.
Proof.
  assert (HS : rect [[1; 2; 3]; [4; 5; 6]]) by (apply rectb_rect; reflexivity).
  assert (HR : rect [[0; 1; 1]; [0; 0; 0]; [1; 0; 0]]) by (apply rectb_rect; reflexivity).
  split; [exact HS|]. split; [exact HR|].
  apply (nn_filter_axis_transpose NnFilter.self_graph float64 [[1; 2; 3]; [4; 5; 6]]
           [[0; 1; 1]; [0; 0; 0]; [1; 0; 0]] mean HS HR eq_refl eq_refl).
Defined.

(** ** Elementwise operations *)

Section Elementwise.

Context {A B C : Type}.

Lemma row_mapm (f : A -> B) (M : mat A) (i : nat) :
  row (mapm f M) i = map f (row M i).
Proof.
  unfold row, mapm. change (@nil B) with (map f []). apply map_nth.
Qed.

Lemma row_zipm (f : A -> B -> C) (M : mat A) (N : mat B) (i : nat) :
  (i < length M)%nat -> (i < length N)%nat ->
  row (zipm f M N) i = map2 f (row M i) (row N i).
Proof.
  intros HM HN. unfold row, zipm. now apply nth_map2.
Qed.

Lemma in_shape_mapm (f : A -> B) (M : mat A) (i j : nat) :
  in_shape (mapm f M) i j <-> in_shape M i j.
Proof.
  unfold in_shape. rewrite row_mapm, length_map.
  unfold mapm. now rewrite length_map.
Qed.

Lemma in_shape_zipm (f : A -> B -> C) (M : mat A) (N : mat B) (i j : nat) :
  in_shape (zipm f M N) i j <-> in_shape M i j /\ in_shape N i j.
Proof.
  unfold in_shape. unfold zipm at 1. rewrite length_map2. split.
  - intros [Hi Hj]. rewrite row_zipm, length_map2 in Hj by lia. lia.
  - intros [[Hi Hj] [Hi' Hj']]. rewrite row_zipm, length_map2 by lia. lia.
Qed.

Lemma at_mapm (f : A -> B) (M : mat A) (i j : nat) (da : A) (db : B) :
  in_shape M i j -> at_ db (mapm f M) i j = f (at_ da M i j).
Proof.
  intros [Hi Hj]. unfold at_. rewrite row_mapm.
  rewrite (nth_indep _ db (f da)) by now rewrite length_map.
  apply map_nth.
Qed.

Lemma at_zipm (f : A -> B -> C) (M : mat A) (N : mat B) (i j : nat)
    (da : A) (db : B) (dc : C) :
  in_shape M i j -> in_shape N i j ->
  at_ dc (zipm f M N) i j = f (at_ da M i j) (at_ db N i j).
Proof.
  intros [Hi Hj] [Hi' Hj']. unfold at_. rewrite row_zipm by lia.
  now apply nth_map2.
Qed.

Lemma same_shapeb_in_shape (M : mat A) (N : mat B) (i j : nat) :
  same_shapeb M N = true -> (in_shape M i j <-> in_shape N i j).
Proof.
  unfold in_shape, row. revert N i.
  induction M as [|r M IH]; intros [|s N] i H; simpl in *; try discriminate.
  - split; intros [Hi _]; lia.
  - apply andb_true_iff in H. destruct H as [Hr HM]. apply Nat.eqb_eq in Hr.
    destruct i as [|i].
    + rewrite Hr. lia.
    + specialize (IH N i HM). lia.
Qed.

End Elementwise.

Lemma same_shapeb_refl {A} (M : mat A) : same_shapeb M M = true.
Proof.
  induction M as [|r M IH]; simpl; auto. now rewrite Nat.eqb_refl.
Qed.

Lemma Qltb_lt (x y : Q) : Qltb x y = true <-> x < y.
Proof.
  unfold Qltb. rewrite negb_true_iff. split.
  - intros H. apply Qnot_le_lt. intros Hle. apply Qle_bool_iff in Hle. congruence.
  - intros H. destruct (Qle_bool y x) eqn:E; auto.
    apply Qle_bool_iff in E. apply Qlt_not_le in H. contradiction.
Qed.

Lemma Qltb_ge (x y : Q) : Qltb x y = false <-> y <= x.
Proof.
  unfold Qltb. rewrite negb_false_iff. apply Qle_bool_iff.
Qed.

(** ** hpss *)

Ltac shape :=
  repeat first [rewrite in_shape_zipm | rewrite in_shape_mapm];
  repeat match goal with |- _ /\ _ => split end; assumption.

Ltac at_step :=
  match goal with
  | |- context [at_ ?d (zipm ?f ?M ?N) ?i ?j] =>
      first [ rewrite (at_zipm f M N i j 0 0 d) by shape
            | rewrite (at_zipm f M N i j 0 false d) by shape
            | rewrite (at_zipm f M N i j false false d) by shape ]
  | |- context [at_ ?d (mapm ?f ?M) ?i ?j] =>
      first [ rewrite (at_mapm f M i j 0 d) by shape
            | rewrite (at_mapm f M i j false d) by shape ]
  end.

Section HpssFacts.

Import Hpss.

Variable L : lib.

Lemma soft_masks_at (harm perc : matrix) (power : Q) (i j : nat) :
  in_shape harm i j -> in_shape perc i j ->
  let h := float_power L (at_ 0 harm i j) power in
  let p := float_power L (at_ 0 perc i j) power in
  in_shape (fst (soft_masks L harm perc power)) i j /\
  in_shape (snd (soft_masks L harm perc power)) i j /\
  at_ 0 (fst (soft_masks L harm perc power)) i j = soft_harm L h p /\
  at_ 0 (snd (soft_masks L harm perc power)) i j = soft_perc L h p.
Proof.
  intros Hh Hp. unfold soft_masks, raise_and_clamp, assign_where. cbn [fst snd].
  split; [shape|]. split; [shape|].
  unfold soft_harm, soft_perc, equalize, clamp.
  split; repeat at_step; reflexivity.
Qed.

Lemma hard_masks_at (harm perc : matrix) (i j : nat) :
  in_shape harm i j -> in_shape perc i j ->
  let m := float_of_bool (Qgtb (at_ 0 harm i j) (at_ 0 perc i j)) in
  in_shape (fst (hard_masks harm perc)) i j /\
  in_shape (snd (hard_masks harm perc)) i j /\
  at_ 0 (fst (hard_masks harm perc)) i j = m /\
  at_ 0 (snd (hard_masks harm perc)) i j = 1 - m.
Proof.
  intros Hh Hp. unfold hard_masks. cbn [fst snd].
  split; [shape|]. split; [shape|].
  split; repeat at_step; reflexivity.
Qed.

Hypothesis SMALL_FLOAT_pos : 0 < SMALL_FLOAT L.

Lemma equalize_sum_pos (h p : Q) : 0 < equalize L h p h + equalize L h p p.
Proof.
  unfold equalize, clamp.
  destruct (Qltb h (SMALL_FLOAT L)) eqn:Eh, (Qltb p (SMALL_FLOAT L)) eqn:Ep; simpl;
    try apply Qltb_ge in Eh; try apply Qltb_ge in Ep; lra.
Qed.

Lemma soft_sum_one (h p : Q) : soft_harm L h p + soft_perc L h p == 1.
Proof.
  unfold soft_harm, soft_perc. pose proof (equalize_sum_pos h p) as Hpos.
  field. lra.
Qed.

Lemma soft_half (h p : Q) :
  h < SMALL_FLOAT L -> p < SMALL_FLOAT L ->
  soft_harm L h p == 1 # 2 /\ soft_perc L h p == 1 # 2.
Proof.
  intros Hh Hp. apply Qltb_lt in Hh, Hp.
  unfold soft_harm, soft_perc, equalize. rewrite Hh, Hp. simpl. split; reflexivity.
Qed.

Lemma hard_sum_one (m : Q) : m + (1 - m) == 1.
Proof. ring. Qed.

(** The masks of every branch sum to one at every position. *)
Lemma masks_at (harm perc : matrix) (power : Q) (mask : bool) (i j : nat) :
  in_shape harm i j -> in_shape perc i j ->
  in_shape (fst (masks L harm perc power mask)) i j /\
  in_shape (snd (masks L harm perc power mask)) i j /\
  at_ 0 (fst (masks L harm perc power mask)) i j
  + at_ 0 (snd (masks L harm perc power mask)) i j == 1.
Proof.
  intros Hh Hp. unfold masks.
  destruct (mask || Qltb power (SMALL_FLOAT L)).
  - destruct (hard_masks_at harm perc i j Hh Hp) as (H1 & H2 & E1 & E2).
    rewrite E1, E2. auto using hard_sum_one.
  - destruct (soft_masks_at harm perc power i j Hh Hp) as (H1 & H2 & E1 & E2).
    rewrite E1, E2. auto using soft_sum_one.
Qed.

(** The responses have the shape of the array they were computed from. *)
Lemma responses_shape (S : matrix) (k : kernel) (harm perc : matrix) :
  responses L S k = Ok (harm, perc) ->
  same_shapeb S harm = true /\ same_shapeb S perc = true.
Proof.
  unfold responses. destruct k as [k|kh kp];
    (destruct (median_filter L S (PyInt 1, _)) as [h|e]; simpl; [|discriminate];
     unfold assign_all at 1; destruct (same_shapeb S h) eqn:Eh; simpl; [|discriminate];
     destruct (median_filter L S (_, PyInt 1)) as [p|e]; simpl; [|discriminate];
     unfold assign_all; destruct (same_shapeb S p) eqn:Ep; simpl; [|discriminate];
     intros [= <- <-]; auto).
Qed.

End HpssFacts.

Lemma all_true_at (b : bmatrix) (i j : nat) :
  Hpss.all_true b = true -> in_shape b i j -> at_ false b i j = true.
Proof.
  unfold Hpss.all_true, in_shape, at_. intros H [Hi Hj].
  rewrite forallb_forall in H.
  assert (Hr : forallb (fun x => x) (row b i) = true)
    by (apply H; unfold row; now apply nth_In).
  rewrite forallb_forall in Hr. apply Hr. now apply nth_In.
Qed.

Lemma Qeq_bool_true (x y : Q) : Qeq_bool x y = true -> x == y.
Proof. apply Qeq_bool_iff. Qed.

(** What [magphase_okb] gives at one position of a complex input. *)
Lemma magphase_ok_at (L : Hpss.lib) (D : cmatrix) (i j : nat) :
  Hpss.magphase_okb L (Hpss.ComplexA D) = true ->
  in_shape D i j ->
  in_shape (fst (Hpss.magphase L D)) i j /\
  in_shape (snd (Hpss.magphase L D)) i j /\
  Hpss.ceq (Hpss.cscale (at_ 0 (fst (Hpss.magphase L D)) i j)
                        (at_ (0, 0) (snd (Hpss.magphase L D)) i j))
           (at_ (0, 0) D i j).
Proof.
  unfold Hpss.magphase_okb. destruct (Hpss.magphase L D) as [mag phase]. simpl.
  intros H HD. apply andb_true_iff in H. destruct H as [H Hall].
  apply andb_true_iff in H. destruct H as [Hm Hp].
  assert (Hmag : in_shape mag i j) by now apply (same_shapeb_in_shape D mag i j Hm).
  assert (Hph : in_shape phase i j) by now apply (same_shapeb_in_shape D phase i j Hp).
  split; [exact Hmag|]. split; [exact Hph|].
  apply (all_true_at _ i j) in Hall; [|shape].
  rewrite (at_zipm _ D (zipm pair mag phase) i j (0, 0) (0, (0, 0)) false) in Hall
    by shape.
  rewrite (at_zipm pair mag phase i j 0 (0, 0) (0, (0, 0))) in Hall by shape.
  unfold Hpss.ceqb in Hall. apply andb_true_iff in Hall. destruct Hall as [H1 H2].
  split; now apply Qeq_bool_true.
Qed.

Section HpssProperties.

Import Hpss.

Variable L : lib.
Hypothesis SMALL_FLOAT_pos : 0 < SMALL_FLOAT L.

(** C1. When the two median filters return, [hpss] with [mask=False]
    returns a pair (harmonic, percussive) of the input's shape and kind
    whose elementwise sum is the input: the real [S] itself, and for a
    complex [S] (split by [magphase] into a magnitude and a phase whose
    product is [S]) the original complex samples.  This holds for every
    kernel size and every power, in the soft and in the hard branch. *)
Theorem hpss_reconstructs (S : array) (k : kernel) (power : Q) (harm perc : matrix) :
  magphase_okb L S = true ->
  responses L (fst (split_phase L S)) k = Ok (harm, perc) ->
  exists H P,
    hpss L S k power false = Ok (H, P) /\
    is_complex H = is_complex S /\ is_complex P = is_complex S /\
    forall i j, array_in_shape S i j ->
      array_in_shape H i j /\ array_in_shape P i j /\
      ceq (cadd (sample H i j) (sample P i j)) (sample S i j).
Proof.
  intros Hmp Hresp. unfold hpss.
  destruct (responses_shape L _ k harm perc Hresp) as [Hsh Hsp].
  destruct S as [m|D]; simpl in Hresp, Hsh, Hsp |- *.
  - rewrite Hresp. simpl.
    destruct (masks L harm perc power false) as [mh mp] eqn:Em.
    eexists _, _. split; [reflexivity|]. split; [reflexivity|]. split; [reflexivity|].
    intros i j Hm. simpl in Hm |- *.
    assert (Hh : in_shape harm i j) by now apply (same_shapeb_in_shape m harm i j Hsh).
    assert (Hp : in_shape perc i j) by now apply (same_shapeb_in_shape m perc i j Hsp).
    destruct (masks_at L SMALL_FLOAT_pos harm perc power false i j Hh Hp)
      as (Hmh & Hmp' & Hsum).
    rewrite Em in Hmh, Hmp', Hsum. simpl in Hmh, Hmp', Hsum.
    split; [shape|]. split; [shape|].
    unfold ceq, cadd. simpl. repeat at_step. split; [|ring].
    transitivity (at_ 0 m i j * (at_ 0 mh i j + at_ 0 mp i j)); [ring|].
    rewrite Hsum. ring.
  - pose proof (fun i j => magphase_ok_at L D i j Hmp) as Hat.
    destruct (magphase L D) as [mag phase] eqn:Emag. simpl in Hresp, Hsh, Hsp, Hat |- *.
    rewrite Hresp. simpl.
    destruct (masks L harm perc power false) as [mh mp] eqn:Em.
    eexists _, _. split; [reflexivity|]. split; [reflexivity|]. split; [reflexivity|].
    intros i j HD. simpl in HD |- *.
    destruct (Hat i j HD) as (Hmag & Hph & Hprod).
    assert (Hh : in_shape harm i j) by now apply (same_shapeb_in_shape mag harm i j Hsh).
    assert (Hp : in_shape perc i j) by now apply (same_shapeb_in_shape mag perc i j Hsp).
    destruct (masks_at L SMALL_FLOAT_pos harm perc power false i j Hh Hp)
      as (Hmh & Hmp' & Hsum).
    rewrite Em in Hmh, Hmp', Hsum. simpl in Hmh, Hmp', Hsum.
    split; [shape|]. split; [shape|].
    rewrite (at_zipm _ (zipm Qmult mag mh) phase i j 0 (0, 0) (0, 0)) by shape.
    rewrite (at_zipm _ (zipm Qmult mag mp) phase i j 0 (0, 0) (0, 0)) by shape.
    repeat at_step.
    destruct Hprod as [Hre Him]. unfold ceq, cadd, cscale, complex in *. simpl in *.
    split.
    + rewrite <- Hre.
      match goal with
      | |- ?x * ?h * ?f + ?x * ?p * ?f == _ => transitivity (x * f * (h + p)); [ring|]
      end.
      rewrite Hsum. ring.
    + rewrite <- Him.
      match goal with
      | |- ?x * ?h * ?f + ?x * ?p * ?f == _ => transitivity (x * f * (h + p)); [ring|]
      end.
      rewrite Hsum. ring.
Qed.

(** C2 (amended). For a real [S] whose median filters return, the masks
    [hpss] computes have the shape of [S] and sum to one at every
    position, for every power and in both branches; in the soft branch
    ([mask=False] and [power] not below the threshold) both masks are one
    half wherever both responses raised to [power] are below the
    threshold; and in the hard branch ([mask=True], or [power] below the
    threshold) the masks are 0/1-valued: [mask_harm] is 1 where the
    harmonic response exceeds the percussive one and 0 elsewhere, and
    [mask_perc = 1 - mask_harm]. *)
Theorem hpss_masks_sum_to_one (S : matrix) (k : kernel) (power : Q) (mask : bool)
    (harm perc : matrix) :
  responses L S k = Ok (harm, perc) ->
  exists mask_harm mask_perc,
    hpss_masks L (RealA S) k power mask = Ok (mask_harm, mask_perc) /\
    (forall i j, in_shape S i j ->
       in_shape mask_harm i j /\ in_shape mask_perc i j /\
       at_ 0 mask_harm i j + at_ 0 mask_perc i j == 1) /\
    (mask = false -> SMALL_FLOAT L <= power ->
     forall i j, in_shape S i j ->
       float_power L (at_ 0 harm i j) power < SMALL_FLOAT L ->
       float_power L (at_ 0 perc i j) power < SMALL_FLOAT L ->
       at_ 0 mask_harm i j == 1 # 2 /\ at_ 0 mask_perc i j == 1 # 2) /\
    (mask = true \/ power < SMALL_FLOAT L ->
     forall i j, in_shape S i j ->
       at_ 0 mask_harm i j
       = (if Qgtb (at_ 0 harm i j) (at_ 0 perc i j) then 1 else 0) /\
       at_ 0 mask_perc i j = 1 - at_ 0 mask_harm i j).
Proof.
  intros Hresp. unfold hpss_masks. simpl. rewrite Hresp. simpl.
  destruct (responses_shape L S k harm perc Hresp) as [Hsh Hsp].
  exists (fst (masks L harm perc power mask)), (snd (masks L harm perc power mask)).
  split; [now destruct (masks L harm perc power mask)|]. split; [|split].
  - intros i j HS. apply masks_at; auto.
    + now apply (same_shapeb_in_shape S harm i j Hsh).
    + now apply (same_shapeb_in_shape S perc i j Hsp).
  - intros -> Hpow i j HS Hh Hp. unfold masks.
    apply Qltb_ge in Hpow. rewrite Hpow. cbn [orb].
    destruct (soft_masks_at L harm perc power i j) as (_ & _ & E1 & E2).
    + now apply (same_shapeb_in_shape S harm i j Hsh).
    + now apply (same_shapeb_in_shape S perc i j Hsp).
    + rewrite E1, E2. now apply soft_half.
  - intros Hhard i j HS.
    assert (Eb : mask || Qltb power (SMALL_FLOAT L) = true).
    { destruct Hhard as [-> | Hpow]; [reflexivity|].
      apply Qltb_lt in Hpow. rewrite Hpow. apply orb_true_r. }
    unfold masks. rewrite Eb.
    destruct (hard_masks_at harm perc i j) as (_ & _ & E1 & E2).
    + now apply (same_shapeb_in_shape S harm i j Hsh).
    + now apply (same_shapeb_in_shape S perc i j Hsp).
    + rewrite E2, E1. split; reflexivity.
Qed.

(** Lines 312-316.  With [mask=True], [hpss] returns the two hard masks
    themselves, real whatever the input, of the shape of the input:
    [mask_harm] is 1 where the harmonic response exceeds the percussive
    one and 0 elsewhere, and [mask_perc = 1 - mask_harm]. *)
Theorem hpss_mask_binary (S : array) (k : kernel) (power : Q) (harm perc : matrix) :
  responses L (fst (split_phase L S)) k = Ok (harm, perc) ->
  exists mask_harm mask_perc,
    hpss L S k power true = Ok (RealA mask_harm, RealA mask_perc) /\
    forall i j, in_shape (fst (split_phase L S)) i j ->
      in_shape mask_harm i j /\ in_shape mask_perc i j /\
      at_ 0 mask_harm i j
      = (if Qgtb (at_ 0 harm i j) (at_ 0 perc i j) then 1 else 0) /\
      at_ 0 mask_perc i j = 1 - at_ 0 mask_harm i j.
Proof.
  intros Hresp. unfold hpss.
  destruct (responses_shape L _ k harm perc Hresp) as [Hsh Hsp].
  destruct (split_phase L S) as [mag phase]. simpl in Hresp, Hsh, Hsp |- *.
  rewrite Hresp. simpl. unfold masks. simpl.
  eexists _, _. split; [reflexivity|].
  intros i j Hm.
  assert (Hh : in_shape harm i j) by now apply (same_shapeb_in_shape mag harm i j Hsh).
  assert (Hp : in_shape perc i j) by now apply (same_shapeb_in_shape mag perc i j Hsp).
  destruct (hard_masks_at harm perc i j Hh Hp) as (H1 & H2 & E1 & E2).
  unfold hard_masks in *. simpl in *.
  split; [exact H1|]. split; [exact H2|]. split.
  - rewrite E1. reflexivity.
  - rewrite E2, E1. reflexivity.
Qed.

(** Lines 293-296 and 334.  [hpss] of a complex input is [hpss] of its
    magnitude, multiplied sample by sample by the phase. *)
Theorem hpss_complex_is_magnitude_times_phase (D : cmatrix) (k : kernel) (power : Q)
    (harm perc : matrix) :
  magphase_okb L (ComplexA D) = true ->
  responses L (fst (magphase L D)) k = Ok (harm, perc) ->
  exists H P Hm Pm,
    hpss L (ComplexA D) k power false = Ok (ComplexA H, ComplexA P) /\
    hpss L (RealA (fst (magphase L D))) k power false = Ok (RealA Hm, RealA Pm) /\
    forall i j, in_shape D i j ->
      ceq (at_ (0, 0) H i j)
          (cscale (at_ 0 Hm i j) (at_ (0, 0) (snd (magphase L D)) i j)) /\
      ceq (at_ (0, 0) P i j)
          (cscale (at_ 0 Pm i j) (at_ (0, 0) (snd (magphase L D)) i j)).
Proof.
  intros Hmp Hresp.
  pose proof (fun i j => magphase_ok_at L D i j Hmp) as Hat.
  destruct (responses_shape L _ k harm perc Hresp) as [Hsh Hsp].
  unfold hpss. simpl.
  destruct (magphase L D) as [mag phase] eqn:Emag. simpl in Hresp, Hsh, Hsp, Hat |- *.
  rewrite Hresp. simpl.
  destruct (masks L harm perc power false) as [mh mp] eqn:Em.
  eexists _, _, _, _. split; [reflexivity|]. split; [reflexivity|].
  intros i j HD.
  destruct (Hat i j HD) as (Hmag & Hph & _).
  assert (Hh : in_shape harm i j) by now apply (same_shapeb_in_shape mag harm i j Hsh).
  assert (Hp : in_shape perc i j) by now apply (same_shapeb_in_shape mag perc i j Hsp).
  assert (Hms : in_shape mh i j /\ in_shape mp i j).
  { unfold masks in Em. destruct (false || Qltb power (SMALL_FLOAT L)).
    - destruct (hard_masks_at harm perc i j Hh Hp) as (H1 & H2 & _).
      rewrite Em in H1, H2. auto.
    - destruct (soft_masks_at L harm perc power i j Hh Hp) as (H1 & H2 & _).
      rewrite Em in H1, H2. auto. }
  destruct Hms as [Hmh Hmp'].
  rewrite (at_zipm _ (zipm Qmult mag mh) phase i j 0 (0, 0) (0, 0)) by shape.
  rewrite (at_zipm _ (zipm Qmult mag mp) phase i j 0 (0, 0) (0, 0)) by shape.
  repeat at_step.
  unfold ceq, cscale, complex in *. simpl. repeat split; ring.
Qed.

(** [hpss] validates nothing itself: whatever it raises was raised by
    one of its two median filters, or is the [ValueError] of copying a
    response of another shape. *)
Lemma hpss_raises (S : array) (k : kernel) (power : Q) (mask : bool) (e : exn) :
  hpss L S k power mask = Raise e ->
  (exists M size, median_filter L M size = Raise e) \/ e = ValueError.
Proof.
  unfold hpss. destruct (split_phase L S) as [mag phase].
  unfold responses.
  destruct (match k with KScalar k0 => (k0, k0) | KPair kh kp => (kh, kp) end)
    as [win_harm win_perc].
  destruct (median_filter L mag (PyInt 1, win_harm)) as [h|e1] eqn:E1; simpl.
  2: { intros [= <-]. left. eauto. }
  unfold assign_all at 1. destruct (same_shapeb mag h); simpl.
  2: { intros [= <-]. now right. }
  destruct (median_filter L mag (win_perc, PyInt 1)) as [p|e2] eqn:E2; simpl.
  2: { intros [= <-]. left. eauto. }
  unfold assign_all. destruct (same_shapeb mag p); simpl.
  2: { intros [= <-]. now right. }
  destruct (masks L h p power mask). destruct mask; discriminate.
Qed.

End HpssProperties.

(** *** The values of the masks *)

Section HpssMasks.

Import Hpss.

Variable L : lib.
Hypothesis SMALL_FLOAT_pos : 0 < SMALL_FLOAT L.

Lemma equalize_nonneg (h p v : Q) : 0 <= equalize L h p v.
Proof.
  unfold equalize, clamp.
  destruct (Qltb h (SMALL_FLOAT L) && Qltb p (SMALL_FLOAT L)); [lra|].
  destruct (Qltb v (SMALL_FLOAT L)) eqn:E; [lra|].
  apply Qltb_ge in E. lra.
Qed.

Lemma ratio_unit (x y : Q) : 0 <= x -> 0 <= y -> 0 < x + y -> 0 <= x / (x + y) <= 1.
Proof.
  intros Hx Hy Hs. split.
  - apply Qle_shift_div_l; [exact Hs|]. lra.
  - apply Qle_shift_div_r; [exact Hs|]. lra.
Qed.

Lemma soft_unit (h p : Q) :
  0 <= soft_harm L h p <= 1 /\ 0 <= soft_perc L h p <= 1.
Proof.
  pose proof (equalize_sum_pos L SMALL_FLOAT_pos h p) as Hs.
  pose proof (equalize_nonneg h p h) as Hh.
  pose proof (equalize_nonneg h p p) as Hp.
  unfold soft_harm, soft_perc. split.
  - now apply ratio_unit.
  - assert (E : equalize L h p h + equalize L h p p == equalize L h p p + equalize L h p h)
      by ring.
    rewrite E. apply ratio_unit; auto. lra.
Qed.

(** Every mask value lies between 0 and 1, in both branches. *)
Lemma masks_unit_at (harm perc : matrix) (power : Q) (mask : bool) (i j : nat) :
  in_shape harm i j -> in_shape perc i j ->
  0 <= at_ 0 (fst (masks L harm perc power mask)) i j <= 1 /\
  0 <= at_ 0 (snd (masks L harm perc power mask)) i j <= 1.
Proof.
  intros Hh Hp. unfold masks.
  destruct (mask || Qltb power (SMALL_FLOAT L)).
  - destruct (hard_masks_at harm perc i j Hh Hp) as (_ & _ & E1 & E2).
    rewrite E1, E2. unfold float_of_bool.
    destruct (Qgtb (at_ 0 harm i j) (at_ 0 perc i j)); lra.
  - destruct (soft_masks_at L harm perc power i j Hh Hp) as (_ & _ & E1 & E2).
    rewrite E1, E2. apply soft_unit.
Qed.

(** Lines 312-334.  With [mask=False], every sample of the harmonic and
    of the percussive output is the input sample at that position (the
    complex one, for a complex input) times the value of its mask there,
    and every mask value lies between 0 and 1: a component is never
    larger in magnitude than the input and never changes its sign or
    phase. *)
Theorem hpss_components_scale_input (S : array) (k : kernel) (power : Q)
    (harm perc : matrix) :
  magphase_okb L S = true ->
  responses L (fst (split_phase L S)) k = Ok (harm, perc) ->
  exists mask_harm mask_perc H P,
    hpss_masks L S k power false = Ok (mask_harm, mask_perc) /\
    hpss L S k power false = Ok (H, P) /\
    forall i j, array_in_shape S i j ->
      0 <= at_ 0 mask_harm i j <= 1 /\ 0 <= at_ 0 mask_perc i j <= 1 /\
      ceq (sample H i j) (cscale (at_ 0 mask_harm i j) (sample S i j)) /\
      ceq (sample P i j) (cscale (at_ 0 mask_perc i j) (sample S i j)).
Proof.
  intros Hmp Hresp. unfold hpss, hpss_masks.
  destruct (responses_shape L _ k harm perc Hresp) as [Hsh Hsp].
  destruct S as [m|D]; simpl in Hresp, Hsh, Hsp |- *.
  - rewrite Hresp. simpl.
    destruct (masks L harm perc power false) as [mh mp] eqn:Em.
    eexists _, _, _, _. split; [reflexivity|]. split; [reflexivity|].
    intros i j Hm. simpl in Hm |- *.
    assert (Hh : in_shape harm i j) by now apply (same_shapeb_in_shape m harm i j Hsh).
    assert (Hp : in_shape perc i j) by now apply (same_shapeb_in_shape m perc i j Hsp).
    destruct (masks_unit_at harm perc power false i j Hh Hp) as [U1 U2].
    destruct (masks_at L SMALL_FLOAT_pos harm perc power false i j Hh Hp)
      as (Hmh & Hmp' & _).
    rewrite Em in U1, U2, Hmh, Hmp'. simpl in U1, U2, Hmh, Hmp'.
    split; [exact U1|]. split; [exact U2|].
    unfold ceq, cscale. simpl. repeat at_step. repeat split; ring.
  - pose proof (fun i j => magphase_ok_at L D i j Hmp) as Hat.
    destruct (magphase L D) as [mag phase] eqn:Emag. simpl in Hresp, Hsh, Hsp, Hat |- *.
    rewrite Hresp. simpl.
    destruct (masks L harm perc power false) as [mh mp] eqn:Em.
    eexists _, _, _, _. split; [reflexivity|]. split; [reflexivity|].
    intros i j HD. simpl in HD |- *.
    destruct (Hat i j HD) as (Hmag & Hph & Hprod).
    assert (Hh : in_shape harm i j) by now apply (same_shapeb_in_shape mag harm i j Hsh).
    assert (Hp : in_shape perc i j) by now apply (same_shapeb_in_shape mag perc i j Hsp).
    destruct (masks_unit_at harm perc power false i j Hh Hp) as [U1 U2].
    destruct (masks_at L SMALL_FLOAT_pos harm perc power false i j Hh Hp)
      as (Hmh & Hmp' & _).
    rewrite Em in U1, U2, Hmh, Hmp'. simpl in U1, U2, Hmh, Hmp'.
    split; [exact U1|]. split; [exact U2|].
    rewrite (at_zipm _ (zipm Qmult mag mh) phase i j 0 (0, 0) (0, 0)) by shape.
    rewrite (at_zipm _ (zipm Qmult mag mp) phase i j 0 (0, 0) (0, 0)) by shape.
    repeat at_step.
    destruct Hprod as [Hre Him]. unfold ceq, cscale, complex in *. simpl in *.
    repeat split; first [rewrite <- Hre | rewrite <- Him]; ring.
Qed.

(** The soft masks at a position, by which of the raised responses are
    below the threshold. *)
Lemma soft_cases (h p : Q) :
  (SMALL_FLOAT L <= h -> SMALL_FLOAT L <= p ->
   soft_harm L h p == h / (h + p) /\ soft_perc L h p == p / (h + p) /\ 0 < h + p) /\
  (h < SMALL_FLOAT L -> SMALL_FLOAT L <= p ->
   soft_harm L h p == 0 /\ soft_perc L h p == 1) /\
  (SMALL_FLOAT L <= h -> p < SMALL_FLOAT L ->
   soft_harm L h p == 1 /\ soft_perc L h p == 0).
Proof.
  unfold soft_harm, soft_perc, equalize, clamp. split; [|split].
  - intros Hh Hp. pose proof Hh as Eh. pose proof Hp as Ep.
    apply Qltb_ge in Eh, Ep. rewrite Eh, Ep. simpl.
    split; [reflexivity|]. split; [reflexivity|lra].
  - intros Hh Hp. pose proof Hh as Eh. pose proof Hp as Ep.
    apply Qltb_lt in Eh. apply Qltb_ge in Ep. rewrite Eh, Ep. simpl.
    split; field; lra.
  - intros Hh Hp. pose proof Hh as Eh. pose proof Hp as Ep.
    apply Qltb_ge in Eh. apply Qltb_lt in Ep. rewrite Eh, Ep. simpl.
    split; field; lra.
Qed.

(** Lines 318-332.  In the soft branch ([mask=False], [power] not below
    the threshold) the masks follow the documented formula
    [mask_H = r_H ** power / (r_H ** power + r_P ** power)] wherever
    both raised responses reach the threshold, with a positive
    denominator; where only one of them is below the threshold its mask
    is 0 and the other mask is 1. *)
Theorem hpss_soft_mask_formula (S : array) (k : kernel) (power : Q)
    (harm perc : matrix) :
  responses L (fst (split_phase L S)) k = Ok (harm, perc) ->
  SMALL_FLOAT L <= power ->
  exists mask_harm mask_perc,
    hpss_masks L S k power false = Ok (mask_harm, mask_perc) /\
    forall i j, in_shape (fst (split_phase L S)) i j ->
      let h := float_power L (at_ 0 harm i j) power in
      let p := float_power L (at_ 0 perc i j) power in
      (SMALL_FLOAT L <= h -> SMALL_FLOAT L <= p ->
       at_ 0 mask_harm i j == h / (h + p) /\
       at_ 0 mask_perc i j == p / (h + p) /\ 0 < h + p) /\
      (h < SMALL_FLOAT L -> SMALL_FLOAT L <= p ->
       at_ 0 mask_harm i j == 0 /\ at_ 0 mask_perc i j == 1) /\
      (SMALL_FLOAT L <= h -> p < SMALL_FLOAT L ->
       at_ 0 mask_harm i j == 1 /\ at_ 0 mask_perc i j == 0).
Proof.
  intros Hresp Hpow. unfold hpss_masks.
  destruct (responses_shape L _ k harm perc Hresp) as [Hsh Hsp].
  destruct (split_phase L S) as [mag phase]. simpl in Hresp, Hsh, Hsp |- *.
  rewrite Hresp. simpl.
  unfold masks. apply Qltb_ge in Hpow. rewrite Hpow. cbn [orb].
  exists (fst (soft_masks L harm perc power)), (snd (soft_masks L harm perc power)).
  split; [now destruct (soft_masks L harm perc power)|].
  intros i j Hm.
  assert (Hh : in_shape harm i j) by now apply (same_shapeb_in_shape mag harm i j Hsh).
  assert (Hp : in_shape perc i j) by now apply (same_shapeb_in_shape mag perc i j Hsp).
  destruct (soft_masks_at L harm perc power i j Hh Hp) as (_ & _ & E1 & E2).
  rewrite E1, E2. apply soft_cases.
Qed.

End HpssMasks.

Section HpssHard.

Import Hpss.

Variable L : lib.

(** Lines 312-314 and 334.  With [mask=False] and a power below the
    threshold (power 0, for one), the separation of a real [S] is
    binary: a sample goes whole to the harmonic output where the
    harmonic response exceeds the percussive one, and whole to the
    percussive output elsewhere (ties included); the other output is 0
    there. *)
Theorem hpss_small_power_splits_hard (S : matrix) (k : kernel) (power : Q)
    (harm perc : matrix) :
  responses L S k = Ok (harm, perc) ->
  power < SMALL_FLOAT L ->
  exists H P,
    hpss L (RealA S) k power false = Ok (RealA H, RealA P) /\
    forall i j, in_shape S i j ->
      in_shape H i j /\ in_shape P i j /\
      (at_ 0 perc i j < at_ 0 harm i j ->
       at_ 0 H i j == at_ 0 S i j /\ at_ 0 P i j == 0) /\
      (at_ 0 harm i j <= at_ 0 perc i j ->
       at_ 0 H i j == 0 /\ at_ 0 P i j == at_ 0 S i j).
Proof.
  intros Hresp Hpow. unfold hpss. simpl.
  destruct (responses_shape L _ k harm perc Hresp) as [Hsh Hsp].
  rewrite Hresp. simpl.
  unfold masks. apply Qltb_lt in Hpow. rewrite Hpow. cbn [orb].
  destruct (hard_masks harm perc) as [mh mp] eqn:Em.
  eexists _, _. split; [reflexivity|].
  intros i j Hm.
  assert (Hh : in_shape harm i j) by now apply (same_shapeb_in_shape S harm i j Hsh).
  assert (Hp : in_shape perc i j) by now apply (same_shapeb_in_shape S perc i j Hsp).
  destruct (hard_masks_at harm perc i j Hh Hp) as (Hmh & Hmp & E1 & E2).
  rewrite Em in Hmh, Hmp, E1, E2. simpl in Hmh, Hmp, E1, E2.
  split; [shape|]. split; [shape|].
  repeat at_step. rewrite E1, E2. unfold float_of_bool, Qgtb. split.
  - intros Hgt. apply Qltb_lt in Hgt. rewrite Hgt. split; ring.
  - intros Hle. apply Qltb_ge in Hle. rewrite Hle. split; ring.
Qed.

End HpssHard.

Lemma hpss_components_scale_input_witness :
  0 < Hpss.SMALL_FLOAT Hpss.reference /\
  Hpss.magphase_okb Hpss.reference
    (Hpss.ComplexA [[(3, 4); (0, 0)]; [(0, -2); (1, 0)]]) = true /\
  exists mask_harm H P,
    Hpss.hpss Hpss.reference (Hpss.ComplexA [[(3, 4); (0, 0)]; [(0, -2); (1, 0)]])
      (Hpss.KScalar (Hpss.PyInt 3)) 2 false = Ok (H, P) /\
    0 <= at_ 0 mask_harm 0 0 <= 1 /\
    Hpss.ceq (Hpss.sample H 0 0) (Hpss.cscale (at_ 0 mask_harm 0 0) (3, 4)).
Proof.
  split; [reflexivity|]. split; [reflexivity|].
  destruct (hpss_components_scale_input Hpss.reference eq_refl
              (Hpss.ComplexA [[(3, 4); (0, 0)]; [(0, -2); (1, 0)]])
              (Hpss.KScalar (Hpss.PyInt 3)) 2
              [[5; 0]; [2; 1]] [[5; 0]; [2; 1]] eq_refl eq_refl)
    as (mh & mp & H & P & _ & Hrun & Hat).
  exists mh, H, P. split; [exact Hrun|].
  assert (H00 : Hpss.array_in_shape
                  (Hpss.ComplexA [[(3, 4); (0, 0)]; [(0, -2); (1, 0)]]) 0 0)
    by (unfold Hpss.array_in_shape, in_shape; simpl; lia).
  destruct (Hat 0%nat 0%nat H00) as (U & _ & Hh & _).
  split; [exact U|exact Hh].
Defined.

Lemma hpss_soft_mask_formula_witness :
  0 < Hpss.SMALL_FLOAT Hpss.reference /\
  Hpss.SMALL_FLOAT Hpss.reference <= 2 /\
  exists mask_harm mask_perc,
    Hpss.hpss_masks Hpss.reference (Hpss.RealA [[1; 2; 3]; [4; 50; 6]; [7; 8; 9]])
      (Hpss.KScalar (Hpss.PyInt 3)) 2 false = Ok (mask_harm, mask_perc) /\
    at_ 0 mask_harm 1 1 == 36 # 100 /\ at_ 0 mask_perc 1 1 == 64 # 100.
Proof.
  assert (Hpow : Hpss.SMALL_FLOAT Hpss.reference <= 2) by discriminate.
  split; [reflexivity|]. split; [exact Hpow|].
  destruct (hpss_soft_mask_formula Hpss.reference eq_refl
              (Hpss.RealA [[1; 2; 3]; [4; 50; 6]; [7; 8; 9]])
              (Hpss.KScalar (Hpss.PyInt 3)) 2
              [[1; 2; 3]; [4; 6; 6]; [7; 8; 9]] [[1; 2; 3]; [4; 8; 6]; [7; 8; 9]]
              eq_refl Hpow) as (mh & mp & Hrun & Hat).
  exists mh, mp. split; [exact Hrun|].
  assert (H11 : in_shape [[1; 2; 3]; [4; 50; 6]; [7; 8; 9]] 1 1)
    by (unfold in_shape; simpl; lia).
  destruct (Hat 1%nat 1%nat H11) as (Hboth & _ & _).
  destruct Hboth as (E1 & E2 & _); [discriminate|discriminate|].
  split; [rewrite E1|rewrite E2]; reflexivity.
Defined.

Lemma hpss_small_power_splits_hard_witness :
  0 < Hpss.SMALL_FLOAT Hpss.reference /\
  exists H P,
    Hpss.hpss Hpss.reference (Hpss.RealA [[1; 2; 3]; [4; 50; 6]; [7; 8; 9]])
      (Hpss.KScalar (Hpss.PyInt 3)) 0 false = Ok (Hpss.RealA H, Hpss.RealA P) /\
    at_ 0 H 1 1 == 0 /\ at_ 0 P 1 1 == 50.
Proof.
  split; [reflexivity|].
  destruct (hpss_small_power_splits_hard Hpss.reference
              [[1; 2; 3]; [4; 50; 6]; [7; 8; 9]] (Hpss.KScalar (Hpss.PyInt 3)) 0
              [[1; 2; 3]; [4; 6; 6]; [7; 8; 9]] [[1; 2; 3]; [4; 8; 6]; [7; 8; 9]]
              eq_refl eq_refl) as (H & P & Hrun & Hat).
  exists H, P. split; [exact Hrun|].
  assert (H11 : in_shape [[1; 2; 3]; [4; 50; 6]; [7; 8; 9]] 1 1)
    by (unfold in_shape; simpl; lia).
  destruct (Hat 1%nat 1%nat H11) as (_ & _ & _ & Hle).
  apply Hle. discriminate.
Defined.

(** *** The reference libraries *)

Lemma same_shapeb_intro {A B} (M : mat A) (N : mat B) :
  length M = length N ->
  (forall i, (i < length M)%nat -> length (row M i) = length (row N i)) ->
  same_shapeb M N = true.
Proof.
  revert N. induction M as [|r M IH]; intros [|s N] Hlen Hrow; simpl in *;
    try discriminate; auto.
  apply andb_true_iff. split.
  - apply Nat.eqb_eq. apply (Hrow 0%nat). lia.
  - apply IH; [lia|]. intros i Hi. apply (Hrow (S i)). lia.
Qed.

Lemma row_map_seq {A} (f : nat -> list A) (n i : nat) :
  (i < n)%nat -> row (map f (seq 0 n)) i = f i.
Proof.
  intros Hi. unfold row.
  rewrite (nth_indep _ [] (f 0%nat)) by now rewrite length_map, length_seq.
  rewrite map_nth, seq_nth; auto.
Qed.

Lemma scipy_median_filter_shape (M : matrix) (size : Hpss.pynum * Hpss.pynum) (X : matrix) :
  Hpss.scipy_median_filter M size = Ok X -> same_shapeb M X = true.
Proof.
  unfold Hpss.scipy_median_filter.
  destruct (Hpss.window_length (fst size)) as [kr|e]; simpl; [|discriminate].
  destruct (Hpss.window_length (snd size)) as [kc|e]; simpl; [|discriminate].
  intros [= <-]. apply same_shapeb_intro.
  - now rewrite length_map, length_seq.
  - intros i Hi. rewrite row_map_seq by exact Hi.
    now rewrite length_map, length_seq.
Qed.

Lemma window_length_malformed (k : Hpss.pynum) :
  Hpss.malformed k ->
  exists e, Hpss.window_length k = Raise e /\
            (e = TypeError \/ e = ValueError \/ e = RuntimeError).
Proof.
  destruct k as [z|q]; simpl; intros H; [|eauto].
  destruct (Z.ltb_spec z 0); [eauto|].
  destruct (Z.eqb_spec z 0); [eauto|]. lia.
Qed.

Lemma window_length_positive (k : Hpss.pynum) :
  ~ Hpss.malformed k -> exists n, Hpss.window_length k = Ok n.
Proof.
  destruct k as [z|q]; simpl; intros H; [|tauto].
  destruct (Z.ltb_spec z 0); [lia|].
  destruct (Z.eqb_spec z 0); [lia|]. eauto.
Qed.

Lemma malformed_dec (k : Hpss.pynum) : Hpss.malformed k \/ ~ Hpss.malformed k.
Proof.
  destruct k as [z|q]; simpl; [lia|tauto].
Qed.

(** The responses under the reference filter: an error for a malformed
    kernel size, arrays for a well-formed one. *)
Lemma reference_responses_malformed (M : matrix) (k : Hpss.kernel) :
  Hpss.kernel_malformed k ->
  exists e, Hpss.responses Hpss.reference M k = Raise e /\
            (e = TypeError \/ e = ValueError \/ e = RuntimeError).
Proof.
  unfold Hpss.responses. simpl.
  assert (Hfirst : forall w, Hpss.malformed w ->
            exists e, Hpss.scipy_median_filter M (Hpss.PyInt 1, w) = Raise e /\
                      (e = TypeError \/ e = ValueError \/ e = RuntimeError)).
  { intros w Hw. destruct (window_length_malformed w Hw) as (e & He & Hk).
    exists e. split; [|exact Hk]. unfold Hpss.scipy_median_filter. simpl.
    now rewrite He. }
  destruct k as [k|kh kp]; simpl; intros Hk.
  - destruct (Hfirst k Hk) as (e & He & Hkind). exists e. now rewrite He.
  - destruct (malformed_dec kh) as [Hh|Hh].
    + destruct (Hfirst kh Hh) as (e & He & Hkind). exists e. now rewrite He.
    + destruct Hk as [Hk|Hk]; [contradiction|].
      destruct (window_length_positive kh Hh) as (n & Hn).
      destruct (Hpss.scipy_median_filter M (Hpss.PyInt 1, kh)) as [h|e] eqn:Eh.
      2: { unfold Hpss.scipy_median_filter in Eh. simpl in Eh.
           rewrite Hn in Eh. discriminate. }
      simpl. unfold Hpss.assign_all at 1.
      rewrite (scipy_median_filter_shape M _ h Eh). simpl.
      destruct (window_length_malformed kp Hk) as (e & He & Hkind).
      exists e. split; [|exact Hkind].
      unfold Hpss.scipy_median_filter. simpl. now rewrite He.
Qed.

Lemma reference_responses_ok (M : matrix) (k : Hpss.kernel) :
  ~ Hpss.kernel_malformed k ->
  exists harm perc, Hpss.responses Hpss.reference M k = Ok (harm, perc).
Proof.
  intros Hk.
  assert (Hrun : forall size, ~ Hpss.malformed (fst size) -> ~ Hpss.malformed (snd size) ->
            exists X, Hpss.scipy_median_filter M size = Ok X /\ same_shapeb M X = true).
  { intros size H1 H2.
    destruct (window_length_positive _ H1) as (kr & Hkr).
    destruct (window_length_positive _ H2) as (kc & Hkc).
    destruct (Hpss.scipy_median_filter M size) as [X|e] eqn:E.
    - exists X. split; [reflexivity|]. now apply (scipy_median_filter_shape M size).
    - unfold Hpss.scipy_median_filter in E. rewrite Hkr, Hkc in E. discriminate. }
  assert (Hone : ~ Hpss.malformed (Hpss.PyInt 1)) by (simpl; lia).
  assert (Hw : exists wh wp,
            (match k with
             | Hpss.KScalar k0 => (k0, k0)
             | Hpss.KPair kh kp => (kh, kp)
             end) = (wh, wp) /\ ~ Hpss.malformed wh /\ ~ Hpss.malformed wp).
  { destruct k as [k0|kh kp]; simpl in Hk; eexists _, _; split; try reflexivity; tauto. }
  destruct Hw as (wh & wp & Ew & Hwh & Hwp).
  unfold Hpss.responses. rewrite Ew. simpl.
  destruct (Hrun (Hpss.PyInt 1, wh) Hone Hwh) as (h & Eh & Hsh).
  destruct (Hrun (wp, Hpss.PyInt 1) Hwp Hone) as (p & Ep & Hsp).
  rewrite Eh. simpl. unfold Hpss.assign_all. rewrite Hsh. simpl.
  rewrite Ep. simpl. rewrite Hsp. simpl. eauto.
Qed.

(** Lines 293-334.  With the reference filter, [hpss] returns for every
    input, every power and every kernel size that is a positive integer
    (as a scalar or in both elements of a pair). *)
Theorem hpss_returns (S : Hpss.array) (k : Hpss.kernel) (power : Q) (mask : bool) :
  ~ Hpss.kernel_malformed k ->
  exists H P, Hpss.hpss Hpss.reference S k power mask = Ok (H, P).
Proof.
  intros Hk. unfold Hpss.hpss.
  destruct (Hpss.split_phase Hpss.reference S) as [mag phase].
  destruct (reference_responses_ok mag k Hk) as (harm & perc & E).
  rewrite E. simpl.
  destruct (Hpss.masks Hpss.reference harm perc power mask) as [mh mp].
  destruct mask; eauto.
Qed.

Lemma hpss_returns_witness :
  ~ Hpss.kernel_malformed (Hpss.KPair (Hpss.PyInt 13) (Hpss.PyInt 31)) /\
  exists H P,
    Hpss.hpss Hpss.reference (Hpss.RealA [[1; 2]; [3; 4]])
      (Hpss.KPair (Hpss.PyInt 13) (Hpss.PyInt 31)) 2 false = Ok (H, P).
Proof.
  assert (Hk : ~ Hpss.kernel_malformed (Hpss.KPair (Hpss.PyInt 13) (Hpss.PyInt 31)))
    by (simpl; lia).
  split; [exact Hk|].
  apply (hpss_returns (Hpss.RealA [[1; 2]; [3; 4]])
           (Hpss.KPair (Hpss.PyInt 13) (Hpss.PyInt 31)) 2 false Hk).
Defined.

(** C7 (amended). [hpss] does fail on a malformed kernel size (not a
    positive integer, as a scalar or in either element of a pair), but it
    performs no validation of its own: the exception is the one the
    median filter raises ([TypeError], [ValueError] or [RuntimeError] for
    the reference filter), never [ParameterError]; for any libraries,
    what [hpss] raises was raised by a median filter or is the
    [ValueError] of copying a response of another shape. *)
Theorem hpss_malformed_kernel (S : Hpss.array) (k : Hpss.kernel) (power : Q)
    (mask : bool) :
  Hpss.kernel_malformed k ->
  (exists e, Hpss.hpss Hpss.reference S k power mask = Raise e /\
             (e = TypeError \/ e = ValueError \/ e = RuntimeError)) /\
  Hpss.hpss Hpss.reference S k power mask <> Raise ParameterError /\
  (forall L e, Hpss.hpss L S k power mask = Raise e ->
     (exists M size, Hpss.median_filter L M size = Raise e) \/ e = ValueError).
Proof.
  intros Hk.
  assert (H : exists e, Hpss.hpss Hpss.reference S k power mask = Raise e /\
                        (e = TypeError \/ e = ValueError \/ e = RuntimeError)).
  { unfold Hpss.hpss. destruct (Hpss.split_phase Hpss.reference S) as [mag phase].
    destruct (reference_responses_malformed mag k Hk) as (e & He & Hkind).
    exists e. now rewrite He. }
  split; [exact H|]. split.
  - destruct H as (e & He & [ -> | [ -> | -> ] ]); rewrite He; discriminate.
  - intros L e. apply hpss_raises.
Qed.

(** *** Instances *)

Lemma hpss_reconstructs_witness :
  0 < Hpss.SMALL_FLOAT Hpss.reference /\
  Hpss.magphase_okb Hpss.reference
    (Hpss.ComplexA [[(3, 4); (0, 0)]; [(0, -2); (1, 0)]]) = true /\
  exists H P,
    Hpss.hpss Hpss.reference (Hpss.ComplexA [[(3, 4); (0, 0)]; [(0, -2); (1, 0)]])
      (Hpss.KScalar (Hpss.PyInt 3)) 2 false = Ok (H, P) /\
    Hpss.ceq (Hpss.cadd (Hpss.sample H 0 0) (Hpss.sample P 0 0)) (3, 4).
Proof.
  split; [reflexivity|]. split; [reflexivity|].
  destruct (hpss_reconstructs Hpss.reference eq_refl
              (Hpss.ComplexA [[(3, 4); (0, 0)]; [(0, -2); (1, 0)]])
              (Hpss.KScalar (Hpss.PyInt 3)) 2
              [[5; 0]; [2; 1]] [[5; 0]; [2; 1]] eq_refl eq_refl)
    as (H & P & Hrun & _ & _ & Hsum).
  exists H, P. split; [exact Hrun|].
  apply (Hsum 0%nat 0%nat). simpl. unfold in_shape. simpl. lia.
Defined.

Lemma hpss_masks_sum_to_one_witness :
  0 < Hpss.SMALL_FLOAT Hpss.reference /\
  Hpss.responses Hpss.reference [[0; 0]; [0; 3]]
    (Hpss.KPair (Hpss.PyInt 3) (Hpss.PyInt 1))
  = Ok ([[0; 0]; [0; 3]], [[0; 0]; [0; 3]]) /\
  (exists mask_harm mask_perc,
     Hpss.hpss_masks Hpss.reference (Hpss.RealA [[0; 0]; [0; 3]])
       (Hpss.KPair (Hpss.PyInt 3) (Hpss.PyInt 1)) 2 false
     = Ok (mask_harm, mask_perc) /\
     at_ 0 mask_harm 0 0 == 1 # 2 /\ at_ 0 mask_perc 0 0 == 1 # 2 /\
     at_ 0 mask_harm 1 1 + at_ 0 mask_perc 1 1 == 1) /\
  Hpss.responses Hpss.reference [[1; 2; 3]; [4; 50; 6]; [7; 8; 9]]
    (Hpss.KScalar (Hpss.PyInt 3))
  = Ok ([[1; 2; 3]; [4; 6; 6]; [7; 8; 9]], [[1; 2; 3]; [4; 8; 6]; [7; 8; 9]]) /\
  exists mask_harm mask_perc,
    Hpss.hpss_masks Hpss.reference (Hpss.RealA [[1; 2; 3]; [4; 50; 6]; [7; 8; 9]])
      (Hpss.KScalar (Hpss.PyInt 3)) 2 true
    = Ok (mask_harm, mask_perc) /\
    at_ 0 mask_harm 1 1 = 0 /\ at_ 0 mask_perc 1 1 = 1 - 0.
Proof.
  split; [reflexivity|]. split; [reflexivity|]. split; [|split; [reflexivity|]].
  - destruct (hpss_masks_sum_to_one Hpss.reference eq_refl [[0; 0]; [0; 3]]
                (Hpss.KPair (Hpss.PyInt 3) (Hpss.PyInt 1)) 2 false
                [[0; 0]; [0; 3]] [[0; 0]; [0; 3]] eq_refl)
      as (mh & mp & Hrun & Hsum & Hhalf & _).
    exists mh, mp. split; [exact Hrun|].
    assert (H00 : in_shape [[0; 0]; [0; 3]] 0 0) by (unfold in_shape; simpl; lia).
    assert (H11 : in_shape [[0; 0]; [0; 3]] 1 1) by (unfold in_shape; simpl; lia).
    destruct (Hhalf eq_refl ltac:(discriminate) 0%nat 0%nat H00 eq_refl eq_refl)
      as [Hh Hp].
    split; [exact Hh|]. split; [exact Hp|].
    apply (Hsum 1%nat 1%nat H11).
  - destruct (hpss_masks_sum_to_one Hpss.reference eq_refl
                [[1; 2; 3]; [4; 50; 6]; [7; 8; 9]] (Hpss.KScalar (Hpss.PyInt 3)) 2 true
                [[1; 2; 3]; [4; 6; 6]; [7; 8; 9]] [[1; 2; 3]; [4; 8; 6]; [7; 8; 9]]
                eq_refl)
      as (mh & mp & Hrun & _ & _ & Hhard).
    exists mh, mp. split; [exact Hrun|].
    assert (H11 : in_shape [[1; 2; 3]; [4; 50; 6]; [7; 8; 9]] 1 1)
      by (unfold in_shape; simpl; lia).
    destruct (Hhard (or_introl eq_refl) 1%nat 1%nat H11) as [E1 E2].
    split; [exact E1|]. rewrite E2, E1. reflexivity.
Defined.

Lemma hpss_malformed_kernel_witness :
  Hpss.kernel_malformed (Hpss.KPair (Hpss.PyInt 31) (Hpss.PyInt 0)) /\
  Hpss.hpss Hpss.reference (Hpss.RealA [[1; 2]; [3; 4]])
    (Hpss.KPair (Hpss.PyInt 31) (Hpss.PyInt 0)) 2 false
  <> Raise ParameterError.
Proof.
  assert (Hk : Hpss.kernel_malformed (Hpss.KPair (Hpss.PyInt 31) (Hpss.PyInt 0)))
    by (simpl; right; lia).
  split; [exact Hk|].
  apply (hpss_malformed_kernel (Hpss.RealA [[1; 2]; [3; 4]])
           (Hpss.KPair (Hpss.PyInt 31) (Hpss.PyInt 0)) 2 false Hk).
Defined.

Lemma hpss_mask_binary_witness :
  Hpss.responses Hpss.reference [[1; 2; 3]; [4; 50; 6]; [7; 8; 9]]
    (Hpss.KScalar (Hpss.PyInt 3))
  = Ok ([[1; 2; 3]; [4; 6; 6]; [7; 8; 9]], [[1; 2; 3]; [4; 8; 6]; [7; 8; 9]]) /\
  exists mask_harm mask_perc,
    Hpss.hpss Hpss.reference (Hpss.RealA [[1; 2; 3]; [4; 50; 6]; [7; 8; 9]])
      (Hpss.KScalar (Hpss.PyInt 3)) 2 true
    = Ok (Hpss.RealA mask_harm, Hpss.RealA mask_perc) /\
    at_ 0 mask_harm 1 1 = 0 /\ at_ 0 mask_perc 1 1 = 1 - at_ 0 mask_harm 1 1.
Proof.
  split; [reflexivity|].
  destruct (hpss_mask_binary Hpss.reference
              (Hpss.RealA [[1; 2; 3]; [4; 50; 6]; [7; 8; 9]])
              (Hpss.KScalar (Hpss.PyInt 3)) 2
              [[1; 2; 3]; [4; 6; 6]; [7; 8; 9]] [[1; 2; 3]; [4; 8; 6]; [7; 8; 9]]
              eq_refl) as (mh & mp & Hrun & Hat).
  exists mh, mp. split; [exact Hrun|].
  assert (H11 : in_shape [[1; 2; 3]; [4; 50; 6]; [7; 8; 9]] 1 1)
    by (unfold in_shape; simpl; lia).
  destruct (Hat 1%nat 1%nat H11) as (_ & _ & E1 & E2).
  split; [exact E1|exact E2].
Defined.

Lemma hpss_complex_is_magnitude_times_phase_witness :
  Hpss.magphase_okb Hpss.reference
    (Hpss.ComplexA [[(3, 4); (0, 0)]; [(0, -2); (1, 0)]]) = true /\
  exists H P Hm Pm,
    Hpss.hpss Hpss.reference (Hpss.ComplexA [[(3, 4); (0, 0)]; [(0, -2); (1, 0)]])
      (Hpss.KScalar (Hpss.PyInt 3)) 2 false = Ok (Hpss.ComplexA H, Hpss.ComplexA P) /\
    Hpss.hpss Hpss.reference (Hpss.RealA [[5; 0]; [2; 1]])
      (Hpss.KScalar (Hpss.PyInt 3)) 2 false = Ok (Hpss.RealA Hm, Hpss.RealA Pm) /\
    Hpss.ceq (at_ (0, 0) H 0 0) (Hpss.cscale (at_ 0 Hm 0 0) (3 # 5, 4 # 5)).
Proof.
  split; [reflexivity|].
  destruct (hpss_complex_is_magnitude_times_phase Hpss.reference
              [[(3, 4); (0, 0)]; [(0, -2); (1, 0)]] (Hpss.KScalar (Hpss.PyInt 3)) 2
              [[5; 0]; [2; 1]] [[5; 0]; [2; 1]] eq_refl eq_refl)
    as (H & P & Hm & Pm & E1 & E2 & Hat).
  exists H, P, Hm, Pm. split; [exact E1|]. split; [exact E2|].
  assert (H00 : in_shape [[(3, 4); (0, 0)]; [(0, -2); (1, 0)]] 0 0)
    by (unfold in_shape; simpl; lia).
  destruct (Hat 0%nat 0%nat H00) as [Hh _]. exact Hh.
Defined.

(** The hard branch does not equalise: on a silent input both raised
    responses are zero, below the threshold, and the masks are 0 and 1,
    with [mask=True] at power 2 and with [mask=False] at a positive
    power below the threshold. *)
Lemma hpss_hard_masks_not_half :
  0 < 2 /\
  Hpss.float_power Hpss.reference 0 2 < Hpss.SMALL_FLOAT Hpss.reference /\
  Hpss.hpss_masks Hpss.reference (Hpss.RealA [[0]])
    (Hpss.KScalar (Hpss.PyInt 1)) 2 true = Ok ([[0]], [[1]]) /\
  0 < 1 # 200000000000000000000 /\
  Hpss.float_power Hpss.reference 0 (1 # 200000000000000000000)
  < Hpss.SMALL_FLOAT Hpss.reference /\
  Hpss.hpss_masks Hpss.reference (Hpss.RealA [[0]])
    (Hpss.KScalar (Hpss.PyInt 1)) (1 # 200000000000000000000) false
  = Ok ([[0]], [[1]]) /\
  ~ 0 == 1 # 2 /\ ~ 1 == 1 # 2.
Proof.
  repeat split; discriminate.
Qed.

(** Malformed kernel sizes fail with the filter's own exceptions. *)
Lemma hpss_kernel_error_is_not_parameter_error :
  Hpss.hpss Hpss.reference (Hpss.RealA [[1]]) (Hpss.KScalar (Hpss.PyInt 0)) 2 false
  = Raise RuntimeError /\
  Hpss.hpss Hpss.reference (Hpss.RealA [[1]]) (Hpss.KScalar (Hpss.PyInt (-3))) 2 false
  = Raise ValueError /\
  Hpss.hpss Hpss.reference (Hpss.RealA [[1]])
    (Hpss.KPair (Hpss.PyInt 3) (Hpss.PyFloat (5 # 2))) 2 false
  = Raise TypeError.
Proof.
  repeat split.
Qed.

(** ** decompose *)

Section DecomposeFacts.

Import Decompose.

Lemma insert_by_perm (key : nat -> nat) (i : nat) (l : list nat) :
  Permutation (insert_by key i l) (i :: l).
Proof.
  induction l as [|j l IH]; simpl; auto.
  destruct (Nat.leb (key i) (key j)); auto.
  rewrite IH. apply perm_swap.
Qed.

Lemma argsort_perm (keys : list nat) :
  Permutation (argsort keys) (seq 0 (length keys)).
Proof.
  unfold argsort. induction (seq 0 (length keys)) as [|i l IH]; simpl; auto.
  rewrite insert_by_perm. now constructor.
Qed.

Lemma sum_perm (l l' : list Q) : Permutation l l' -> sum l == sum l'.
Proof.
  induction 1; simpl; try reflexivity.
  - now rewrite IHPermutation.
  - ring.
  - now rewrite IHPermutation1.
Qed.

(** An entry of a product, as a sum over the component index. *)
Lemma dot_entry (r col : list Q) (k : nat) :
  length r = k -> length col = k ->
  sum (map2 Qmult r col)
  = sum (map (fun i => nth i r 0 * nth i col 0) (seq 0 k)).
Proof.
  intros Hr Hc.
  rewrite <- (map2_map_l Qmult (fun i => nth i r 0) (fun i => nth i col 0)).
  rewrite <- Hr at 1. rewrite map_nth_seq.
  rewrite <- Hc. now rewrite map_nth_seq.
Qed.

Lemma Forall2_map_same {A B} (R : B -> B -> Prop) (f g : A -> B) (l : list A) :
  (forall x, In x l -> R (f x) (g x)) -> Forall2 R (map f l) (map g l).
Proof.
  induction l as [|x l IH]; intros H; simpl; constructor.
  - apply H. now left.
  - apply IH. intros y Hy. apply H. now right.
Qed.

(** Permuting the columns of [X] and the rows of [Y] by the same
    permutation of the component indices leaves the product unchanged. *)
Lemma dot_permuted (X Y : matrix) (idx : list nat) :
  rect X -> rect Y -> nrows Y = ncols X ->
  Permutation idx (seq 0 (ncols X)) ->
  Forall2 (Forall2 Qeq)
    (dot (map (fun r => map (fun k => nth k r 0) idx) X) (map (fun k => row Y k) idx))
    (dot X Y).
Proof.
  intros HX HY Hk Hperm. unfold dot. rewrite map_map.
  assert (Hcols : ncols (map (fun k => row Y k) idx) = ncols Y).
  { destruct idx as [|k0 idx'].
    - apply Permutation_nil in Hperm.
      assert (E : ncols X = 0%nat)
        by (apply (f_equal (@length nat)) in Hperm; now rewrite length_seq in Hperm).
      unfold nrows in Hk. rewrite E in Hk. now destruct Y.
    - unfold ncols at 1. simpl.
      assert (Hin : In k0 (seq 0 (ncols X)))
        by (eapply Permutation_in; [exact Hperm|now left]).
      apply in_seq in Hin.
      apply (has_shape_row Y (nrows Y) (ncols Y) k0 (rect_has_shape Y HY)). lia. }
  rewrite Hcols. apply Forall2_map_same. intros r Hr.
  apply Forall2_map_same. intros j _.
  assert (Hlen : length r = ncols X).
  { unfold rect in HX. rewrite Forall_forall in HX. now apply HX. }
  assert (Hcol : length (column 0 Y j) = ncols X).
  { unfold column. rewrite length_map. exact Hk. }
  rewrite (dot_entry r (column 0 Y j) (ncols X) Hlen Hcol).
  replace (column 0 (map (fun k => row Y k) idx) j)
    with (map (fun k => nth k (column 0 Y j) 0) idx).
  2: { unfold column at 2. rewrite map_map. apply map_ext.
       intros k. apply nth_column. }
  rewrite map2_map_l. apply sum_perm. now apply Permutation_map.
Qed.

Variables T K : Type.
Variable F : factorizer T K.

(** Sorting works on the results of the unsorted call. *)
Lemma decompose_sort_unfold (S : matrix) (n : option nat) (t : option T)
    (fit : bool) (kwargs : K) :
  decompose F S n t true fit kwargs =
  ('(components, activations, transformer) <- decompose F S n t false fit kwargs ;;
   let '(components, idx) := axis_sort components in
   activations <- index_rows activations idx ;;
   Ok (components, activations, transformer)).
Proof.
  unfold decompose.
  destruct (default_transformer F n t fit kwargs) as [t0|e]; simpl; [|reflexivity].
  destruct fit.
  - destruct (fit_transform F t0 (transpose 0 S)) as [[t1 Y]|e]; simpl; [|reflexivity].
    destruct (components_ F t1) as [M|e]; simpl; reflexivity.
  - destruct (transform F t0 (transpose 0 S)) as [Y|e]; simpl; [|reflexivity].
    destruct (components_ F t0) as [M|e]; simpl; reflexivity.
Qed.

(** What the unsorted call returns: the transposes of the fitted basis
    and of the transformed data. *)
Lemma decompose_unsorted_inv (S : matrix) (n : option nat) (t : option T)
    (fit : bool) (kwargs : K) (C A : matrix) (t1 : T) :
  decompose F S n t false fit kwargs = Ok (C, A, t1) ->
  (exists M, components_ F t1 = Ok M /\ C = transpose 0 M) /\
  exists Y, A = transpose 0 Y.
Proof.
  unfold decompose.
  destruct (default_transformer F n t fit kwargs) as [t0|e]; simpl; [|discriminate].
  destruct fit.
  - destruct (fit_transform F t0 (transpose 0 S)) as [[t' Y]|e]; simpl; [|discriminate].
    destruct (components_ F t') as [M|e] eqn:EM; simpl; [|discriminate].
    intros [= <- <- <-]. eauto.
  - destruct (transform F t0 (transpose 0 S)) as [Y|e]; simpl; [|discriminate].
    destruct (components_ F t0) as [M|e] eqn:EM; simpl; [|discriminate].
    intros [= <- <- <-]. eauto.
Qed.

(** C6. When the unsorted call returns components [C] (features by
    components) and activations [A] (components by frames),
    [decompose(S, sort=True)] returns the columns of [C] and the rows of
    [A] under one permutation [idx] of the component indices, so the
    product is unchanged, entry by entry; and the transformer is left in
    the state the unsorted call leaves it in: sorting builds new arrays
    and writes nothing back. *)
Theorem decompose_sort_preserves_product (S : matrix) (n : option nat)
    (t : option T) (fit : bool) (kwargs : K) (C A : matrix) (t1 : T) :
  decompose F S n t false fit kwargs = Ok (C, A, t1) ->
  nrows A = ncols C ->
  exists C' A' idx,
    decompose F S n t true fit kwargs = Ok (C', A', t1) /\
    Permutation idx (seq 0 (ncols C)) /\
    C' = map (fun r => map (fun k => nth k r 0) idx) C /\
    A' = map (fun k => row A k) idx /\
    Forall2 (Forall2 Qeq) (dot C' A') (dot C A).
Proof.
  intros Hrun Hk.
  destruct (decompose_unsorted_inv S n t fit kwargs C A t1 Hrun)
    as ((M & _ & HC) & Y & HA).
  assert (HCr : rect C) by (rewrite HC; apply rect_transpose).
  assert (HAr : rect A) by (rewrite HA; apply rect_transpose).
  rewrite decompose_sort_unfold, Hrun. simpl.
  set (idx := argsort (map (fun k => peak_index (column 0 C k)) (seq 0 (ncols C)))).
  assert (Hperm : Permutation idx (seq 0 (ncols C))).
  { unfold idx. rewrite argsort_perm. now rewrite length_map, length_seq. }
  assert (Hrows : index_rows A idx = Ok (map (fun k => row A k) idx)).
  { unfold index_rows.
    assert (E : forallb (fun k => Nat.ltb k (nrows A)) idx = true).
    { apply forallb_forall. intros k Hin. apply Nat.ltb_lt.
      apply (Permutation_in _ Hperm) in Hin. apply in_seq in Hin. lia. }
    now rewrite E. }
  rewrite Hrows. simpl.
  eexists _, _, idx. split; [reflexivity|]. split; [exact Hperm|].
  split; [reflexivity|]. split; [reflexivity|].
  now apply dot_permuted.
Qed.

(** Lines 165-186.  [decompose] raises [ParameterError] when [fit] is
    false and no transformer is given, before anything is computed; any
    other exception is one raised by the constructor of the default
    transformer, by the transformer's [fit_transform] or [transform], by
    reading its [components_], or the [IndexError] of indexing the
    activations. *)
Theorem decompose_raises (S : matrix) (n : option nat) (t : option T)
    (sort fit : bool) (kwargs : K) :
  decompose F S n None sort false kwargs = Raise ParameterError /\
  forall e,
    decompose F S n t sort fit kwargs = Raise e ->
    (t = None /\ fit = false /\ e = ParameterError) \/
    (t = None /\ fit = true /\ NMF F n kwargs = Raise e) \/
    (exists t0 X, fit_transform F t0 X = Raise e \/ transform F t0 X = Raise e) \/
    (exists t0, components_ F t0 = Raise e) \/
    e = IndexError.
Proof.
  split; [reflexivity|]. intros e. unfold decompose.
  destruct (default_transformer F n t fit kwargs) as [t0|e0] eqn:Et; simpl.
  - assert (Hsort : forall (C A : matrix) (t1 : T),
              (if sort
               then let '(components, idx) := axis_sort C in
                    activations <- index_rows A idx ;;
                    Ok (components, activations, t1)
               else Ok (C, A, t1)) = Raise e -> e = IndexError).
    { intros C A t1. destruct sort; [|discriminate]. simpl. unfold index_rows.
      destruct (forallb _ _); simpl; [discriminate|]. now intros [= <-]. }
    destruct fit.
    + destruct (fit_transform F t0 (transpose 0 S)) as [[t1 Y]|e'] eqn:E; simpl.
      * destruct (components_ F t1) as [M|e'] eqn:EM; simpl.
        -- intros H. apply Hsort in H. auto 6.
        -- intros [= <-]. right. right. right. left. eauto.
      * intros [= <-]. right. right. left. eauto.
    + destruct (transform F t0 (transpose 0 S)) as [Y|e'] eqn:E; simpl.
      * destruct (components_ F t0) as [M|e'] eqn:EM; simpl.
        -- intros H. apply Hsort in H. auto 6.
        -- intros [= <-]. right. right. right. left. eauto.
      * intros [= <-]. right. right. left. eauto.
  - intros [= <-]. unfold default_transformer in Et.
    destruct t as [t0|]; [discriminate|].
    destruct fit; simpl in Et.
    + right. left. auto.
    + injection Et as <-. left. auto.
Qed.

(** With no transformer supplied the default one is built from the
    [n_components] argument as given, and the call goes on as if that
    transformer had been passed in. *)
Lemma decompose_default_transformer (S : matrix) (n : option nat) (sort : bool)
    (kwargs : K) :
  default_transformer F n None true kwargs = NMF F n kwargs /\
  forall t0, NMF F n kwargs = Ok t0 ->
    decompose F S n None sort true kwargs
    = decompose F S n (Some t0) sort true kwargs.
Proof.
  split; [reflexivity|]. intros t0 E. unfold decompose, default_transformer. simpl.
  now rewrite E.
Qed.

(** C8. [decompose(S)] with neither [n_components] nor a transformer
    uses [S.shape[0]] components.  The default transformer is built as
    [NMF(n_components=None)] (the later default of lines 172-173 is read
    by nothing) and fitted on [S.T], whose features are the rows of [S];
    scikit-learn reads [n_components=None] as "keep all features", which
    is the hypothesis on the factorizer; so the fitted transformer holds
    [S.shape[0]] components. *)
Theorem decompose_default_n_components (S : matrix) (sort : bool) (kwargs : K)
    (C A : matrix) (t : T) :
  (forall kw t0 X t1 Y,
     NMF F None kw = Ok t0 -> fit_transform F t0 X = Ok (t1, Y) ->
     exists M, components_ F t1 = Ok M /\ nrows M = ncols X) ->
  (0 < ncols S)%nat ->
  decompose F S None None sort true kwargs = Ok (C, A, t) ->
  default_transformer F None None true kwargs = NMF F None kwargs /\
  exists M, components_ F t = Ok M /\ nrows M = nrows S.
Proof.
  intros Hall Hcols Hrun. split; [reflexivity|].
  unfold decompose, default_transformer in Hrun. simpl in Hrun.
  destruct (NMF F None kwargs) as [t0|e] eqn:E0; simpl in Hrun; [|discriminate].
  destruct (fit_transform F t0 (transpose 0 S)) as [[t1 Y]|e] eqn:E1; simpl in Hrun;
    [|discriminate].
  destruct (Hall kwargs t0 (transpose 0 S) t1 Y E0 E1) as (M & EM & Hn).
  rewrite EM in Hrun. simpl in Hrun.
  assert (Ht : t = t1).
  { destruct sort.
    - destruct (index_rows (transpose 0 Y) _) as [A'|e]; simpl in Hrun; congruence.
    - congruence. }
  subst t1. exists M. split; [exact EM|].
  rewrite Hn. now apply ncols_transpose.
Qed.

End DecomposeFacts.

Lemma decompose_default_n_components_witness :
  (0 < ncols [[1; 2; 3]; [4; 5; 6]])%nat /\
  Decompose.decompose Decompose.keep_last_factorizer [[1; 2; 3]; [4; 5; 6]]
    None None false true tt
  = Ok ([[0; 1]; [1; 0]], [[4; 5; 6]; [1; 2; 3]],
        {| Decompose.n_components_ := None; Decompose.basis := [[0; 1]; [1; 0]] |}) /\
  exists M,
    Decompose.components_ Decompose.keep_last_factorizer
      {| Decompose.n_components_ := None; Decompose.basis := [[0; 1]; [1; 0]] |} = Ok M /\
    nrows M = nrows [[1; 2; 3]; [4; 5; 6]].
Proof.
  assert (Hcols : (0 < ncols [[1; 2; 3]; [4; 5; 6]])%nat) by (unfold ncols; simpl; lia).
  split; [exact Hcols|]. split; [reflexivity|].
  assert (Hall : forall (kw : unit) t0 X t1 Y,
            Decompose.NMF Decompose.keep_last_factorizer None kw = Ok t0 ->
            Decompose.fit_transform Decompose.keep_last_factorizer t0 X = Ok (t1, Y) ->
            exists M, Decompose.components_ Decompose.keep_last_factorizer t1 = Ok M /\
                      nrows M = ncols X).
  { intros kw t0 X t1 Y E0 E1. simpl in E0, E1.
    injection E0 as <-. injection E1 as <- _.
    eexists. split; [reflexivity|].
    unfold Decompose.keep_last_fit, nrows. simpl.
    now rewrite length_map, length_seq. }
  apply (decompose_default_n_components _ _ Decompose.keep_last_factorizer
           [[1; 2; 3]; [4; 5; 6]] false tt
           [[0; 1]; [1; 0]] [[4; 5; 6]; [1; 2; 3]]
           {| Decompose.n_components_ := None; Decompose.basis := [[0; 1]; [1; 0]] |}
           Hall Hcols eq_refl).
Defined.

Lemma decompose_sort_preserves_product_witness :
  nrows [[4; 5; 6]; [1; 2; 3]] = ncols [[0; 1]; [1; 0]] /\
  exists C' A',
    Decompose.decompose Decompose.keep_last_factorizer [[1; 2; 3]; [4; 5; 6]]
      None None true true tt
    = Ok (C', A', {| Decompose.n_components_ := None;
                     Decompose.basis := [[0; 1]; [1; 0]] |}) /\
    Forall2 (Forall2 Qeq) (Decompose.dot C' A')
            (Decompose.dot [[0; 1]; [1; 0]] [[4; 5; 6]; [1; 2; 3]]).
Proof.
  split; [reflexivity|].
  destruct (decompose_sort_preserves_product _ _ Decompose.keep_last_factorizer
              [[1; 2; 3]; [4; 5; 6]] None None true tt
              [[0; 1]; [1; 0]] [[4; 5; 6]; [1; 2; 3]]
              {| Decompose.n_components_ := None;
                 Decompose.basis := [[0; 1]; [1; 0]] |}
              eq_refl eq_refl)
    as (C' & A' & idx & Hrun & _ & _ & _ & Hdot).
  exists C', A'. split; [exact Hrun|exact Hdot].
Defined.

(** ** The store: which arrays a call writes to *)

Section StoreFacts.

Import Hpss NnFilter Store.

Lemma keeps_bind {A B} (c : M A) (k : A -> M B) (P : A -> Prop) (Q : B -> Prop) :
  keeps_old c P -> (forall a, P a -> keeps_old (k a) Q) ->
  keeps_old (bindM c k) Q.
Proof.
  intros Hc Hk s. unfold bindM. destruct (Hc s) as [Ho Hp].
  destruct (c s) as [[a|e] s']; simpl in *.
  - destruct (Hk a (Hp a eq_refl) s') as [Ho' Hq]. split; [congruence|exact Hq].
  - split; [exact Ho|discriminate].
Qed.

Lemma keeps_weaken {A} (c : M A) (P Q : A -> Prop) :
  keeps_old c P -> (forall a, P a -> Q a) -> keeps_old c Q.
Proof.
  intros Hc HPQ s. destruct (Hc s) as [Ho Hp]. split; auto.
Qed.

Lemma keeps_ret {A} (a : A) (P : A -> Prop) : P a -> keeps_old (ret a) P.
Proof. intros H s. split; [reflexivity|]. simpl. now intros ? [= <-]. Qed.

Lemma keeps_raise {A} (e : exn) (P : A -> Prop) : keeps_old (raise e) P.
Proof. intros s. split; [reflexivity|discriminate]. Qed.

Lemma keeps_lift {A} (r : result A) : keeps_old (lift r) (fun _ => True).
Proof. intros s. split; [reflexivity|auto]. Qed.

Lemma keeps_alloc (b : buffer) : keeps_old (alloc b) is_new.
Proof. intros s. split; [reflexivity|]. simpl. now intros ? [= <-]. Qed.

Lemma keeps_read (r : ref) : keeps_old (read r) (fun _ => True).
Proof.
  intros s. unfold read. destruct (lookup s r); split; auto.
Qed.

(** A write leaves the old region alone when it goes through a
    reference to a new array. *)
Lemma keeps_write (r : ref) (b : buffer) :
  is_new r -> keeps_old (write r b) (fun _ => True).
Proof.
  intros Hr s. destruct r; [contradiction|]. split; [reflexivity|auto].
Qed.

Ltac keeps_reader :=
  eapply keeps_bind; [apply keeps_read|];
  intros [ | | | ] _; solve [apply keeps_ret; exact I | apply keeps_raise].

Lemma keeps_read_float (r : ref) : keeps_old (read_float r) (fun _ => True).
Proof. unfold read_float. keeps_reader. Qed.

Lemma keeps_read_bool (r : ref) : keeps_old (read_bool r) (fun _ => True).
Proof. unfold read_bool. keeps_reader. Qed.

Lemma keeps_read_complex (r : ref) : keeps_old (read_complex r) (fun _ => True).
Proof. unfold read_complex. keeps_reader. Qed.

Lemma keeps_read_sparse (r : ref) : keeps_old (read_sparse r) (fun _ => True).
Proof. unfold read_sparse. keeps_reader. Qed.

Create HintDb keeps.

Hint Resolve keeps_read keeps_read_float keeps_read_bool keeps_read_complex
  keeps_read_sparse keeps_alloc keeps_lift keeps_write : keeps.

(** One step of a sequence: the first computation by a known fact, then
    the rest under what it returned. *)
Ltac keeps_step :=
  eapply keeps_bind; [solve [eauto with keeps]|]; intros ? ?.

Lemma keeps_map_float f x : keeps_old (map_float f x) is_new.
Proof. unfold map_float. keeps_step. apply keeps_alloc. Qed.

Lemma keeps_zip_float f x y : keeps_old (zip_float f x y) is_new.
Proof. unfold zip_float. do 2 keeps_step. apply keeps_alloc. Qed.

Lemma keeps_less x v : keeps_old (less x v) is_new.
Proof. unfold less. keeps_step. apply keeps_alloc. Qed.

Lemma keeps_greater x y : keeps_old (greater x y) is_new.
Proof. unfold greater. do 2 keeps_step. apply keeps_alloc. Qed.

Lemma keeps_and x y : keeps_old (and_ x y) is_new.
Proof. unfold and_. do 2 keeps_step. apply keeps_alloc. Qed.

Lemma keeps_astype_float x : keeps_old (astype_float x) is_new.
Proof. unfold astype_float. keeps_step. apply keeps_alloc. Qed.

Lemma keeps_empty_like x : keeps_old (empty_like x) is_new.
Proof. unfold empty_like. keeps_step. apply keeps_alloc. Qed.

Lemma keeps_copy x : keeps_old (copy x) is_new.
Proof. unfold copy. keeps_step. apply keeps_alloc. Qed.

Lemma keeps_median_filter L x size : keeps_old (median_filter_st L x size) is_new.
Proof. unfold median_filter_st. do 2 keeps_step. apply keeps_alloc. Qed.

Lemma keeps_copy_into dst src :
  is_new dst -> keeps_old (copy_into dst src) (fun _ => True).
Proof. intros H. unfold copy_into. do 3 keeps_step. now apply keeps_write. Qed.

Lemma keeps_assign_where x w v :
  is_new x -> keeps_old (assign_where_st x w v) (fun _ => True).
Proof. intros H. unfold assign_where_st. do 2 keeps_step. now apply keeps_write. Qed.

Lemma keeps_set_slice x i v a :
  is_new x -> keeps_old (set_slice_st x i v a) (fun _ => True).
Proof. intros H. unfold set_slice_st. keeps_step. now apply keeps_write. Qed.

Lemma keeps_times_phase x phase : keeps_old (times_phase_st x phase) is_new.
Proof.
  unfold times_phase_st. destruct phase as [p|].
  - do 2 keeps_step. apply keeps_alloc.
  - apply keeps_map_float.
Qed.

Hint Resolve keeps_map_float keeps_zip_float keeps_less keeps_greater keeps_and
  keeps_astype_float keeps_empty_like keeps_copy keeps_median_filter
  keeps_copy_into keeps_assign_where keeps_set_slice keeps_times_phase : keeps.

Lemma keeps_hpss (L : lib) (S : ref) (k : kernel) (power : Q) (mask : bool) :
  keeps_old (hpss_st L S k power mask) (fun r => is_new (fst r) /\ is_new (snd r)).
Proof.
  unfold hpss_st.
  eapply keeps_bind; [apply keeps_read|]. intros b _.
  eapply keeps_bind with (P := fun _ => True).
  { destruct b; try (apply keeps_ret; exact I).
    destruct (magphase L m) as [mag ph]. do 2 keeps_step. apply keeps_ret. exact I. }
  intros [mag phase] _.
  destruct (match k with KScalar k0 => (k0, k0) | KPair kh kp => (kh, kp) end)
    as [win_harm win_perc].
  do 6 keeps_step.
  destruct (mask || Qltb power (SMALL_FLOAT L)).
  - do 3 keeps_step. destruct mask.
    + apply keeps_ret. simpl. auto.
    + do 4 keeps_step. apply keeps_ret. simpl. auto.
  - do 18 keeps_step. apply keeps_ret. simpl. auto.
Qed.

Lemma keeps_filter_rows (S rec : ref) aggregate a rows s_out :
  is_new s_out ->
  keeps_old (filter_rows_st S rec aggregate a rows s_out) (fun _ => True).
Proof.
  intros Hnew. induction rows as [|i rest IH]; simpl.
  - apply keeps_ret. exact I.
  - keeps_step. destruct (nonzero _); [exact IH|].
    do 6 keeps_step. exact IH.
Qed.

Lemma keeps_nn_filter recurrence_matrix (S : ref) (rec : option ref) aggregate axis :
  keeps_old (nn_filter_st recurrence_matrix S rec aggregate axis) is_new.
Proof.
  unfold nn_filter_st, graph_st, filter_st.
  eapply keeps_bind with (P := fun _ => True).
  { destruct rec as [r|].
    - eapply keeps_bind; [apply keeps_read|]. intros b _.
      destruct b; try apply keeps_raise.
      + eapply keeps_weaken; [apply keeps_alloc|auto].
      + apply keeps_ret. exact I.
    - do 2 keeps_step. eapply keeps_weaken; [apply keeps_alloc|auto]. }
  intros rec' _. do 3 keeps_step.
  destruct (negb _ || negb _); [apply keeps_raise|].
  keeps_step.
  eapply keeps_bind; [now apply keeps_filter_rows|]. intros _ _.
  now apply keeps_ret.
Qed.

End StoreFacts.

(** ** The store: what a call computes *)

Section StoreRefinement.

Import Hpss NnFilter Store.

Lemma nth_error_set_nth_same {A} (l : list A) (j : nat) (x y : A) :
  nth_error l j = Some y -> nth_error (set_nth j x l) j = Some x.
Proof.
  revert j. induction l as [|z l IH]; intros [|j]; simpl; try discriminate; auto.
Qed.

Lemma nth_error_set_nth_other {A} (l : list A) (j k : nat) (x : A) :
  j <> k -> nth_error (set_nth j x l) k = nth_error l k.
Proof.
  revert j k. induction l as [|z l IH]; intros [|j] [|k] H; simpl; auto; try lia.
Qed.

Lemma nth_error_app_some {A} (l l' : list A) (k : nat) (x : A) :
  nth_error l k = Some x -> nth_error (l ++ l') k = Some x.
Proof.
  intros H. rewrite nth_error_app1; auto.
  apply nth_error_Some. congruence.
Qed.

Lemma nth_error_app_last {A} (l : list A) (x : A) :
  nth_error (l ++ [x]) (length l) = Some x.
Proof.
  rewrite nth_error_app2 by lia. now rewrite Nat.sub_diag.
Qed.

(** What a reference points to survives an allocation followed by a
    write through another reference. *)
Lemma lookup_step (s : store) (j : nat) (b x y : buffer) (r : ref) :
  r <> New j ->
  lookup s r = Some y ->
  lookup {| old := old s; new := set_nth j b (new s ++ [x]) |} r = Some y.
Proof.
  destruct r as [i|i]; simpl; auto. intros Hr Hy.
  rewrite nth_error_set_nth_other by congruence.
  now apply nth_error_app_some.
Qed.

(** One iteration of the loop over the store. *)
Lemma filter_rows_st_cons (S rec : ref) (Sm recm cur : matrix) aggregate a (i j : nat)
    (rest : list nat) (s : store) :
  lookup s S = Some (FloatBuf Sm) ->
  lookup s rec = Some (SparseBuf recm) ->
  nth_error (new s) j = Some (FloatBuf cur) ->
  filter_rows_st S rec aggregate a (i :: rest) (New j) s =
  match nonzero (row recm i) with
  | [] => filter_rows_st S rec aggregate a rest (New j) s
  | targets =>
      match take Sm targets a with
      | Raise e => (Raise e, s)
      | Ok n =>
          match aggregate_neighbors aggregate (row recm i) targets n a with
          | Raise e => (Raise e, {| old := old s; new := new s ++ [FloatBuf n] |})
          | Ok v =>
              filter_rows_st S rec aggregate a rest (New j)
                {| old := old s;
                   new := set_nth j (FloatBuf (set_slice cur i (map (astype float64) v) a))
                                  (new s ++ [FloatBuf n]) |}
          end
      end
  end.
Proof.
  intros HlS Hlrec Hcur. simpl.
  unfold bindM, read_sparse, read_float, bindM, read, lift, alloc, set_slice_st,
    write, ret.
  rewrite Hlrec. destruct (nonzero (row recm i)) as [|t ts]; [reflexivity|].
  rewrite HlS. destruct (take Sm (t :: ts) a) as [n|e]; [|reflexivity].
  simpl. rewrite nth_error_app_last.
  destruct (aggregate_neighbors aggregate (row recm i) (t :: ts) n a) as [v|e];
    [|reflexivity].
  unfold bindM, read_float, bindM, read. simpl.
  rewrite (nth_error_app_some _ _ _ _ Hcur). reflexivity.
Qed.

(** The loop over the store computes what the loop over values does,
    in the array [s_out] points to. *)
Lemma filter_rows_st_refines (S rec : ref) (Sm recm : matrix) aggregate a (j : nat) :
  S <> New j -> rec <> New j ->
  forall rows s cur,
    lookup s S = Some (FloatBuf Sm) ->
    lookup s rec = Some (SparseBuf recm) ->
    nth_error (new s) j = Some (FloatBuf cur) ->
    match filter_rows float64 Sm recm aggregate a rows cur with
    | Ok out =>
        fst (filter_rows_st S rec aggregate a rows (New j) s) = Ok tt /\
        nth_error (new (snd (filter_rows_st S rec aggregate a rows (New j) s))) j
        = Some (FloatBuf out)
    | Raise e => fst (filter_rows_st S rec aggregate a rows (New j) s) = Raise e
    end.
Proof.
  intros HS Hrec. induction rows as [|i rest IH]; intros s cur HlS Hlrec Hcur.
  - simpl. auto.
  - rewrite (filter_rows_st_cons S rec Sm recm cur aggregate a i j rest s HlS Hlrec Hcur).
    simpl. destruct (nonzero (row recm i)) as [|t ts] eqn:Et; [now apply IH|].
    destruct (take Sm (t :: ts) a) as [n|e]; simpl; [|reflexivity].
    destruct (aggregate_neighbors aggregate (row recm i) (t :: ts) n a) as [v|e];
      simpl; [|reflexivity].
    apply IH.
    + now apply lookup_step.
    + now apply lookup_step.
    + simpl. apply (nth_error_set_nth_same _ j _ (FloatBuf cur)).
      apply nth_error_app_some. exact Hcur.
Qed.

Lemma run_bind_ok {A B} (c : M A) (k : A -> M B) (s s' : store) (a : A) :
  c s = (Ok a, s') -> bindM c k s = k a s'.
Proof. intros H. unfold bindM. now rewrite H. Qed.

Lemma run_bind_raise {A B} (c : M A) (k : A -> M B) (s s' : store) (e : exn) :
  c s = (Raise e, s') -> bindM c k s = (Raise e, s').
Proof. intros H. unfold bindM. now rewrite H. Qed.

Lemma run_read (s : store) (r : ref) (b : buffer) :
  lookup s r = Some b -> read r s = (Ok b, s).
Proof. intros H. unfold read. now rewrite H. Qed.

Lemma run_read_float (s : store) (r : ref) (m : matrix) :
  lookup s r = Some (FloatBuf m) -> read_float r s = (Ok m, s).
Proof.
  intros H. unfold read_float. now rewrite (run_bind_ok _ _ s s _ (run_read s r _ H)).
Qed.

Lemma run_read_sparse (s : store) (r : ref) (m : matrix) :
  lookup s r = Some (SparseBuf m) -> read_sparse r s = (Ok m, s).
Proof.
  intros H. unfold read_sparse. now rewrite (run_bind_ok _ _ s s _ (run_read s r _ H)).
Qed.

Lemma lookup_alloc (s : store) (b x : buffer) (r : ref) :
  lookup s r = Some x ->
  lookup {| old := old s; new := new s ++ [b] |} r = Some x.
Proof.
  destruct r; simpl; auto. apply nth_error_app_some.
Qed.

Lemma lookup_not_fresh (s : store) (r : ref) (x : buffer) (j : nat) :
  lookup s r = Some x -> (length (new s) <= j)%nat -> r <> New j.
Proof.
  intros H Hj ->. simpl in H.
  assert (j < length (new s))%nat by (apply nth_error_Some; congruence). lia.
Qed.

Lemma filter_st_refines (S rec : ref) (s : store) (Sm recm : matrix) aggregate axis :
  lookup s S = Some (FloatBuf Sm) ->
  lookup s rec = Some (SparseBuf recm) ->
  agrees (filter_validated float64 Sm recm aggregate axis)
         (filter_st S rec aggregate axis s).
Proof.
  intros HS Hrec. unfold filter_st, filter_validated.
  rewrite (run_bind_ok _ _ s s _ (run_read_sparse s rec recm Hrec)).
  rewrite (run_bind_ok _ _ s s _ (run_read_float s S Sm HS)).
  destruct (norm_axis axis) as [a|e]; simpl; [|reflexivity].
  unfold bindM at 1, lift. simpl.
  destruct (negb (Nat.eqb (nrows recm) (shape_along Sm a))
            || negb (Nat.eqb (nrows recm) (ncols recm))); simpl; [reflexivity|].
  unfold bindM at 1, copy. rewrite (run_bind_ok _ _ s s _ (run_read_float s S Sm HS)).
  unfold alloc at 1.
  set (s1 := {| old := old s; new := new s ++ [FloatBuf Sm] |}).
  assert (HS1 : lookup s1 S = Some (FloatBuf Sm)) by now apply lookup_alloc.
  assert (Hrec1 : lookup s1 rec = Some (SparseBuf recm)) by now apply lookup_alloc.
  assert (Hout : nth_error (new s1) (length (new s)) = Some (FloatBuf Sm))
    by apply nth_error_app_last.
  pose proof (filter_rows_st_refines S rec Sm recm aggregate a (length (new s))
                (lookup_not_fresh s S _ _ HS (Nat.le_refl _))
                (lookup_not_fresh s rec _ _ Hrec (Nat.le_refl _))
                (seq 0 (nrows recm)) s1 Sm HS1 Hrec1 Hout) as Hloop.
  unfold bindM.
  destruct (filter_rows float64 Sm recm aggregate a (seq 0 (nrows recm)) Sm) as [out|e];
    destruct (filter_rows_st S rec aggregate a (seq 0 (nrows recm))
                (New (length (new s))) s1) as [[[]|e'] s2]; simpl in *.
  - exists (New (length (new s))). destruct Hloop as [_ Hloop]. simpl. auto.
  - destruct Hloop as [Hloop _]. discriminate.
  - discriminate.
  - now injection Hloop as ->.
Qed.

Lemma nn_filter_unfold recurrence_matrix (S : matrix) rec aggregate axis :
  nn_filter recurrence_matrix float64 S rec aggregate axis =
  (r <- graph recurrence_matrix S rec axis ;;
   filter_validated float64 S r
     (match aggregate with None => np_mean | Some f => f end) axis).
Proof. reflexivity. Qed.

(** [nn_filter] over the store computes what [nn_filter] on values
    does, into a new array. *)
Lemma nn_filter_st_refines recurrence_matrix (S : ref) (rec : option ref)
    (s : store) (Sm : matrix) (recv : option matrix) aggregate axis :
  lookup s S = Some (FloatBuf Sm) ->
  holds_graph s rec recv ->
  agrees (nn_filter recurrence_matrix float64 Sm recv aggregate axis)
         (nn_filter_st recurrence_matrix S rec aggregate axis s).
Proof.
  intros HS Hg. rewrite nn_filter_unfold. unfold nn_filter_st, graph_st.
  destruct rec as [r|], recv as [recm|]; simpl in Hg; try contradiction.
  - destruct Hg as [Hr|Hr].
    + rewrite (run_bind_ok _ _ s {| old := old s; new := new s ++ [SparseBuf recm] |}
                 (New (length (new s)))).
      2: { now rewrite (run_bind_ok _ _ s s _ (run_read s r _ Hr)). }
      simpl. apply filter_st_refines.
      * now apply lookup_alloc.
      * simpl. apply nth_error_app_last.
    + rewrite (run_bind_ok _ _ s s r).
      2: { now rewrite (run_bind_ok _ _ s s _ (run_read s r _ Hr)). }
      simpl. now apply filter_st_refines.
  - simpl. destruct (recurrence_matrix Sm axis) as [recm|e] eqn:Erm.
    + rewrite (run_bind_ok _ _ s {| old := old s; new := new s ++ [SparseBuf recm] |}
                 (New (length (new s)))).
      2: { rewrite (run_bind_ok _ _ s s _ (run_read_float s S Sm HS)).
           unfold bindM, lift. now rewrite Erm. }
      simpl. apply filter_st_refines.
      * now apply lookup_alloc.
      * simpl. apply nth_error_app_last.
    + rewrite (run_bind_raise _ _ s s e); [reflexivity|].
      rewrite (run_bind_ok _ _ s s _ (run_read_float s S Sm HS)).
      unfold bindM, lift. now rewrite Erm.
Qed.

End StoreRefinement.

(** *** hpss over the store *)

Section StoreHpss.

Import Hpss NnFilter Store.

Lemma grow_nil (s : store) : grow s [] = s.
Proof. destruct s as [o n]. unfold grow. simpl. now rewrite app_nil_r. Qed.

Lemma lookup_grow_old (s : store) (l : list buffer) (r : ref) (x : buffer) :
  lookup s r = Some x -> lookup (grow s l) r = Some x.
Proof. destruct r; simpl; auto. apply nth_error_app_some. Qed.

Lemma lookup_grow_loc (s : store) (l : list buffer) (k : nat) :
  lookup (grow s l) (loc s k) = nth_error l k.
Proof.
  simpl. rewrite nth_error_app2 by lia. f_equal. lia.
Qed.

Lemma set_nth_app {A} (n l : list A) (k : nat) (b : A) :
  set_nth (length n + k) b (n ++ l) = n ++ set_nth k b l.
Proof. induction n as [|x n IH]; simpl; congruence. Qed.

(** Running a sequence, one operation at a time. *)
Lemma bind_assoc {A B C} (c : M A) (f : A -> M B) (k : B -> M C) (s : store) :
  bindM (bindM c f) k s = bindM c (fun a => bindM (f a) k) s.
Proof. unfold bindM. destruct (c s) as [[a|e] s']; reflexivity. Qed.

Lemma step_ret {A B} (a : A) (k : A -> M B) (s : store) : bindM (ret a) k s = k a s.
Proof. reflexivity. Qed.

Lemma step_raise {A B} (e : exn) (k : A -> M B) (s : store) :
  bindM (raise e) k s = (Raise e, s).
Proof. reflexivity. Qed.

Lemma step_lift {A B} (r : result A) (k : A -> M B) (s : store) :
  bindM (lift r) k s = match r with Ok a => k a s | Raise e => (Raise e, s) end.
Proof. destruct r; reflexivity. Qed.

Lemma step_alloc {B} (b : buffer) (k : ref -> M B) (s : store) (l : list buffer) :
  bindM (alloc b) k (grow s l) = k (loc s (length l)) (grow s (l ++ [b])).
Proof.
  unfold bindM, alloc, grow, loc. simpl. now rewrite length_app, <- app_assoc.
Qed.

Lemma step_read {B} (r : ref) (b : buffer) (k : buffer -> M B) (s : store) :
  lookup s r = Some b -> bindM (read r) k s = k b s.
Proof. intros H. unfold bindM, read. now rewrite H. Qed.

Lemma step_write {B} (j : nat) (b : buffer) (k : unit -> M B) (s : store)
    (l : list buffer) :
  bindM (write (loc s j) b) k (grow s l) = k tt (grow s (set_nth j b l)).
Proof.
  unfold bindM, write, grow, loc. simpl. now rewrite set_nth_app.
Qed.

Lemma same_shapeb_mapm_l {A B C} (f : A -> B) (M : mat A) (N : mat C) :
  same_shapeb (mapm f M) N = same_shapeb M N.
Proof.
  revert N. induction M as [|r M IH]; intros [|s N]; simpl; auto.
  now rewrite length_map, IH.
Qed.

Ltac look :=
  first [ eassumption
        | apply lookup_grow_old; eassumption
        | rewrite lookup_grow_loc; reflexivity ].

Ltac step :=
  first [ rewrite bind_assoc
        | rewrite step_ret
        | rewrite step_raise
        | rewrite step_alloc
        | erewrite step_read by look
        | rewrite step_write
        | rewrite step_lift ];
  cbv beta iota; cbn [app length Nat.add set_nth].

Ltac split_case :=
  unfold assign_all; rewrite ?same_shapeb_mapm_l;
  match goal with
  | |- context [match median_filter ?L ?m ?sz with _ => _ end] =>
      destruct (median_filter L m sz) as [?|?] eqn:?
  | |- context [if same_shapeb ?a ?b then _ else _] =>
      destruct (same_shapeb a b) eqn:?
  end.

Ltac use_eqs :=
  repeat match goal with
         | H : median_filter _ _ _ = _ |- _ => rewrite H; cbn [bind]
         | H : same_shapeb _ _ = _ |- _ => rewrite H; cbn [bind]
         | H : Qltb _ _ = _ |- _ => rewrite H; cbn [orb]
         | H : magphase _ _ = _ |- _ => rewrite H
         end.

Ltac finish :=
  unfold hpss, split_phase, responses, masks, hard_masks, soft_masks,
    raise_and_clamp, times_phase, assign_all;
  use_eqs; cbn [orb bind]; cbv beta iota zeta; unfold agrees2, ret; cbn [fst snd];
  first [ reflexivity
        | eexists _, _; split; [reflexivity|]; split; [exact I|]; split; [exact I|];
          split; rewrite lookup_grow_loc; reflexivity ].

(** [hpss] over the store computes what [hpss] on values does, into new
    arrays: the same exception, or two references to new arrays holding
    the two results. *)
Lemma hpss_st_refines (L : lib) (S : ref) (s : store) (X : array) (k : kernel)
    (power : Q) (mask : bool) :
  lookup s S = Some (buffer_of X) ->
  agrees2 (hpss L X k power mask) (hpss_st L S k power mask s).
Proof.
  intros HS. rewrite <- (grow_nil s).
  unfold hpss_st, times_phase_st.
  unfold empty_like, median_filter_st, copy_into, greater, astype_float, map_float,
    zip_float, less, and_, assign_where_st, read_float, read_bool, read_complex.
  destruct X as [m|D]; simpl in HS.
  - repeat step.
    destruct k as [k0|kh kp]; cbv iota;
      destruct mask, (Qltb power (SMALL_FLOAT L)) eqn:?; cbn [orb];
      repeat first [step | split_case]; finish.
  - step. destruct (magphase L D) as [mag phase] eqn:?.
    repeat step.
    destruct k as [k0|kh kp]; cbv iota;
      destruct mask, (Qltb power (SMALL_FLOAT L)) eqn:?; cbn [orb];
      repeat first [step | split_case]; finish.
Qed.

Ltac distinct :=
  unfold ret; cbn [fst];
  first [ discriminate
        | let E := fresh in
          intros E; injection E as <- <-; unfold loc; intros E; injection E; lia ].

(** Lines 306-334.  The two arrays [hpss] returns are two different
    objects, in every branch: writing into one of them afterwards does
    not change the other. *)
Theorem hpss_results_not_aliased (L : lib) (S : ref) (s : store) (k : kernel)
    (power : Q) (mask : bool) (h p : ref) :
  fst (hpss_st L S k power mask s) = Ok (h, p) -> h <> p.
Proof.
  rewrite <- (grow_nil s).
  unfold hpss_st, times_phase_st.
  unfold empty_like, median_filter_st, copy_into, greater, astype_float, map_float,
    zip_float, less, and_, assign_where_st, read_float, read_bool, read_complex.
  destruct (lookup s S) as [[m|D|b|m]|] eqn:HS.
  - repeat step.
    destruct k as [k0|kh kp]; cbv iota;
      destruct mask, (Qltb power (SMALL_FLOAT L)) eqn:?; cbn [orb];
      repeat first [step | split_case]; distinct.
  - step. destruct (magphase L D) as [mag phase] eqn:?.
    repeat step.
    destruct k as [k0|kh kp]; cbv iota;
      destruct mask, (Qltb power (SMALL_FLOAT L)) eqn:?; cbn [orb];
      repeat first [step | split_case]; distinct.
  - repeat step. destruct k; repeat step; distinct.
  - repeat step. destruct k; repeat step; distinct.
  - rewrite grow_nil. unfold bindM at 1. unfold read. rewrite HS. discriminate.
Qed.

End StoreHpss.

Lemma hpss_results_not_aliased_witness :
  fst (Store.hpss_st Hpss.reference (Store.Old 0) (Hpss.KScalar (Hpss.PyInt 3)) 2 false
         (Store.enter [Store.FloatBuf [[1; 2; 3]; [4; 50; 6]]]))
  = Ok (Store.New 15, Store.New 17) /\
  Store.New 15 <> Store.New 17.
Proof.
  split; [reflexivity|].
  apply (hpss_results_not_aliased Hpss.reference (Store.Old 0)
           (Store.enter [Store.FloatBuf [[1; 2; 3]; [4; 50; 6]]])
           (Hpss.KScalar (Hpss.PyInt 3)) 2 false (Store.New 15) (Store.New 17)).
  reflexivity.
Defined.

(** C9. Neither [hpss] nor [nn_filter] writes to an array that exists
    when it is called: started in a store holding [arrays], each leaves
    them all as they were, the inputs [S] and [rec] among them, whether
    it returns or raises; the arrays returned are new ones, and they hold
    what the call computes on values ([nn_filter] writes into a copy of
    [S]). *)
Theorem hpss_nn_filter_keep_inputs (L : Hpss.lib)
    (recurrence_matrix : matrix -> Z -> result matrix)
    (arrays : list Store.buffer) (S : Store.ref) (rec : option Store.ref)
    (k : Hpss.kernel) (power : Q) (mask : bool)
    (aggregate : option NnFilter.aggregator) (axis : Z) :
  (Store.old (snd (Store.hpss_st L S k power mask (Store.enter arrays))) = arrays /\
   forall h p,
     fst (Store.hpss_st L S k power mask (Store.enter arrays)) = Ok (h, p) ->
     Store.is_new h /\ Store.is_new p) /\
  (Store.old (snd (Store.nn_filter_st recurrence_matrix S rec aggregate axis
                     (Store.enter arrays))) = arrays /\
   forall o,
     fst (Store.nn_filter_st recurrence_matrix S rec aggregate axis
            (Store.enter arrays)) = Ok o ->
     Store.is_new o) /\
  (forall X,
     Store.lookup (Store.enter arrays) S = Some (Store.buffer_of X) ->
     Store.agrees2 (Hpss.hpss L X k power mask)
                   (Store.hpss_st L S k power mask (Store.enter arrays))) /\
  (forall Sm recv,
     Store.lookup (Store.enter arrays) S = Some (Store.FloatBuf Sm) ->
     Store.holds_graph (Store.enter arrays) rec recv ->
     Store.agrees (NnFilter.nn_filter recurrence_matrix float64 Sm recv aggregate axis)
                  (Store.nn_filter_st recurrence_matrix S rec aggregate axis
                     (Store.enter arrays))).
Proof.
  split; [|split; [|split]].
  - destruct (keeps_hpss L S k power mask (Store.enter arrays)) as [Ho Hr].
    split; [exact Ho|]. intros h p E. apply (Hr (h, p) E).
  - apply (keeps_nn_filter recurrence_matrix S rec aggregate axis (Store.enter arrays)).
  - intros X HS. now apply hpss_st_refines.
  - intros Sm recv HS Hg. now apply nn_filter_st_refines.
Qed.

Lemma hpss_nn_filter_keep_inputs_witness :
  Store.old (snd (Store.hpss_st Hpss.reference (Store.Old 0)
                    (Hpss.KScalar (Hpss.PyInt 3)) 2 false
                    (Store.enter [Store.FloatBuf [[1; 2; 3]; [4; 50; 6]];
                                  Store.FloatBuf [[0; 1; 1]; [0; 0; 0]; [1; 0; 0]]])))
  = [Store.FloatBuf [[1; 2; 3]; [4; 50; 6]];
     Store.FloatBuf [[0; 1; 1]; [0; 0; 0]; [1; 0; 0]]] /\
  Store.old (snd (Store.nn_filter_st NnFilter.self_graph (Store.Old 0)
                    (Some (Store.Old 1)) None (-1)
                    (Store.enter [Store.FloatBuf [[1; 2; 3]; [4; 50; 6]];
                                  Store.FloatBuf [[0; 1; 1]; [0; 0; 0]; [1; 0; 0]]])))
  = [Store.FloatBuf [[1; 2; 3]; [4; 50; 6]];
     Store.FloatBuf [[0; 1; 1]; [0; 0; 0]; [1; 0; 0]]].
Proof.
  destruct (hpss_nn_filter_keep_inputs Hpss.reference NnFilter.self_graph
              [Store.FloatBuf [[1; 2; 3]; [4; 50; 6]];
               Store.FloatBuf [[0; 1; 1]; [0; 0; 0]; [1; 0; 0]]]
              (Store.Old 0) (Some (Store.Old 1)) (Hpss.KScalar (Hpss.PyInt 3)) 2 false
              None (-1)) as ((H1 & _) & (H2 & _) & _ & _).
  split; [exact H1|exact H2].
Defined.
